(** * Minecraft chat extractor: the log ingestion and extraction pipeline

    A shallow embedding of [Minecraft_log_extraction_system.py]:
    [LogProcessor] (line count, encoding detection, line extraction,
    fallback encodings) and the parts of [ChatExtractorApp] that queue
    tasks, extract archives, run the worker, store results, validate and
    deduplicate them.

    Python values are embedded as follows.
    - A [str] is the list of its Unicode code points ([N]); a [bytes] object
      is a [list byte]; paths and encoding names are [string]s.
    - Floating-point scores are binary64 numbers ([spec_float] with the
      operations of [SpecFloat] at precision 53).
    - What the program takes from the Python runtime and from third-party
      packages (codecs, [str.isprintable], [chardet], [gzip], [tempfile]) is
      a parameter, gathered in the class [Runtime].
    - The shared flag [stop_requested] is written by another thread; a run
      reads it through an oracle that answers each successive poll.
    - File reads are recorded in a trace of I/O events.
    - Logging and progress callbacks do not influence any returned value
      and are left out. *)

From Stdlib Require Import ZArith NArith List String Ascii Bool Lia SpecFloat.
From Stdlib.Strings Require Import Byte.
From stdpp Require Import base option list gmap sets strings.

Open Scope N_scope.

(** ** Python strings *)

Definition char := N.
Definition str := list char.

Definition str_of_string (s : string) : str :=
  map N_of_ascii (list_ascii_of_string s).

(** [s.startswith(p)] *)
Fixpoint startswith (s p : str) {struct p} : bool :=
  match p, s with
  | [], _ => true
  | _ :: _, [] => false
  | c :: p', d :: s' => (c =? d) && startswith s' p'
  end.

(** [p in s] *)
Fixpoint contains (s p : str) : bool :=
  startswith s p ||
  match s with
  | [] => false
  | _ :: s' => contains s' p
  end.

(** [s.split(sep, 1)] for a non-empty separator: the text before the first
    occurrence of [sep] and the text after it, or [s] alone. *)
Fixpoint split_once (s sep : str) : list str :=
  if startswith s sep then [[]; drop (length sep) s]
  else match s with
       | [] => [[]]
       | c :: s' =>
           match split_once s' sep with
           | head :: tail => (c :: head) :: tail
           | [] => []
           end
       end.

(** [c.isspace()]: the code points CPython treats as whitespace. *)
Definition isspace (c : char) : bool :=
  ((9 <=? c) && (c <=? 13)) || ((28 <=? c) && (c <=? 32))
  || (c =? 133) || (c =? 160) || (c =? 5760)
  || ((8192 <=? c) && (c <=? 8202))
  || (c =? 8232) || (c =? 8233) || (c =? 8239) || (c =? 8287) || (c =? 12288).

Fixpoint lstrip (s : str) : str :=
  match s with
  | [] => []
  | c :: s' => if isspace c then lstrip s' else s
  end.

Definition rstrip (s : str) : str := rev (lstrip (rev s)).

(** [s.strip()] *)
Definition strip (s : str) : str := rstrip (lstrip s).

Definition chr_lt : char := 60.         (* "<" *)
Definition chr_lbracket : char := 91.   (* "[" *)
Definition chr_cr : char := 13.
Definition chr_lf : char := 10.
Definition chr_tab : char := 9.
Definition chr_replacement : char := 65533.  (* U+FFFD *)

(** ** LogProcessor: constants *)

Definition prefixes : list str :=
  [ str_of_string "[Server thread/INFO] [net.minecraft.server.MinecraftServer/]:";
    str_of_string "[Server thread/INFO] [Console/]:" ].

Definition backup_encodings : list string :=
  [ "utf-8"; "gbk"; "gb2312"; "gb18030"; "big5";
    "latin1"; "cp1252"; "utf-16"; "utf-16-le"; "utf-16-be";
    "iso-8859-1"; "iso-8859-15"; "euc-kr"; "shift_jis";
    "cp932"; "cp936"; "cp949"; "cp950"; "ascii" ]%string.

Arguments prefixes : simpl never.
Arguments backup_encodings : simpl never.

(** ** The prefix test of one line

    The loop [for prefix in self.prefixes] of [process_log] and of
    [try_backup_encodings]: the first prefix of the list that occurs in the
    line decides, and the loop stops there. *)

Definition is_chat_content (content : str) : bool :=
  startswith content [chr_lt] || startswith content [chr_lbracket].

Fixpoint scan_prefixes (ps : list str) (line : str) (chat_records : list str)
  : list str :=
  match ps with
  | [] => chat_records
  | prefix :: ps' =>
      if contains line prefix then
        let content := strip (nth 1 (split_once line prefix) []) in
        if is_chat_content content
        then chat_records ++ [strip line]
        else chat_records
      else scan_prefixes ps' line chat_records
  end.

Definition has_replacement (line : str) : bool :=
  existsb (N.eqb chr_replacement) line.

(** ** Bytes *)

Definition bytes := list byte.

#[global] Instance byte_eq_decision : EqDecision byte := Byte.byte_eq_dec.

Fixpoint bytes_startswith (data bom : bytes) {struct bom} : bool :=
  match bom, data with
  | [], _ => true
  | _ :: _, [] => false
  | b :: bom', d :: data' => Byte.eqb b d && bytes_startswith data' bom'
  end.

(** [f.read(n)] at the start of a file whose content is [data]. *)
Fixpoint read_prefix (n : N) (data : bytes) : bytes :=
  match data with
  | [] => []
  | b :: data' => if n =? 0 then [] else b :: read_prefix (N.pred n) data'
  end.

(** The successive non-empty results of [f.read(n)] until end of file
    ([n] positive): [cur] holds, newest first, the bytes of the chunk being
    filled and [room] what it can still take. *)
Fixpoint chunks_from (n room : N) (cur data : bytes) : list bytes :=
  match data with
  | [] => match cur with [] => [] | _ => [rev cur] end
  | b :: data' =>
      if room =? 0 then rev cur :: chunks_from n (N.pred n) [b] data'
      else chunks_from n (N.pred room) (b :: cur) data'
  end.

Definition file_chunks (n : N) (data : bytes) : list bytes :=
  chunks_from n n [] data.

Definition byte_lf : byte := x0a.

Definition count_byte (b : byte) (buf : list byte) : N :=
  N.of_nat (length (filter (fun c => Byte.eqb b c = true) buf)).

(** ** The Python runtime and third-party packages *)

(** The [errors] argument of a codec. *)
Inductive errors_mode := Strict | Ignore | Replace.

(** How the iteration over a text file ends. *)
Inductive stream_end :=
  | AtEOF
  | RaisesUnicodeDecodeError
  | RaisesOther.

(** The lines a text file yields, and how the iteration ends. A file that
    cannot be opened yields no line and ends in [RaisesOther]. *)
Record text_stream := { ts_lines : list str; ts_end : stream_end }.

Record chardet_result := {
  cd_encoding : option string;
  cd_confidence : spec_float
}.

Class Runtime := {
  (** [data.decode(encoding, errors=mode)]; [None] when it raises *)
  bytes_decode : string -> errors_mode -> bytes -> option str;
  (** iterating [open(path, 'r', encoding=encoding, errors='replace')]
      over a file of content [data] *)
  text_lines : string -> bytes -> text_stream;
  (** [c.isprintable()] *)
  isprintable : char -> bool;
  (** [chardet.detect(data)] *)
  chardet_detect : bytes -> chardet_result;
  (** [gzip.open(path, 'rb')] read to the end; [None] when it raises *)
  gunzip : bytes -> option bytes;
  (** the directory [tempfile.mkdtemp(prefix="minecraft_logs_")] creates *)
  mkdtemp : string
}.

(** ** Binary64 numbers *)

Definition b64_of_N (n : N) : spec_float :=
  binary_normalize 53 1024 (Z.of_N n) 0 false.
Definition b64_div : spec_float -> spec_float -> spec_float := SFdiv 53 1024.
Definition b64_add : spec_float -> spec_float -> spec_float := SFadd 53 1024.
Definition b64_ltb : spec_float -> spec_float -> bool := SFltb.
Definition b64_zero : spec_float := S754_zero false.
(** the binary64 numbers the literals [0.3] and [0.8] denote *)
Definition b64_0_3 : spec_float := S754_finite false 5404319552844595 (-54).
Definition b64_0_8 : spec_float := S754_finite false 7205759403792794 (-53).

(** ** Paths ([posixpath]) *)

Definition chars_of (s : string) : list ascii := list_ascii_of_string s.
Definition string_of (l : list ascii) : string := string_of_list_ascii l.

Definition slash : ascii := "/"%char.

Definition is_slash (a : ascii) : bool := Ascii.eqb a slash.

(** the characters after the last "/" of [l], given reversed *)
Fixpoint until_slash (rl : list ascii) : list ascii :=
  match rl with
  | [] => []
  | a :: rl' => if is_slash a then [] else a :: until_slash rl'
  end.

(** [rl] from its first "/" on *)
Fixpoint from_slash (rl : list ascii) : list ascii :=
  match rl with
  | [] => []
  | a :: rl' => if is_slash a then rl else from_slash rl'
  end.

Fixpoint drop_slashes (rl : list ascii) : list ascii :=
  match rl with
  | [] => []
  | a :: rl' => if is_slash a then drop_slashes rl' else rl
  end.

(** [os.path.basename(p)] *)
Definition basename (p : string) : string :=
  string_of (rev (until_slash (rev (chars_of p)))).

(** [os.path.dirname(p)] *)
Definition dirname (p : string) : string :=
  let rhead := from_slash (rev (chars_of p)) in
  match drop_slashes rhead with
  | [] => string_of (rev rhead)
  | stripped => string_of (rev stripped)
  end.

Definition string_endswith (s suffix : string) : bool :=
  let l := chars_of s in
  let k := chars_of suffix in
  bool_decide (drop (length l - length k) l = k).

(** [s[:-n]] for [n] positive *)
Definition drop_last (n : nat) (s : string) : string :=
  let l := chars_of s in string_of (take (length l - n) l).

(** [os.path.join(a, b)] *)
Definition path_join (a b : string) : string :=
  match chars_of b with
  | c :: _ => if is_slash c then b else
      if string_endswith a "/" || bool_decide (a = ""%string) then (a +:+ b)%string
      else (a +:+ "/" +:+ b)%string
  | [] =>
      if string_endswith a "/" || bool_decide (a = ""%string) then a
      else (a +:+ "/")%string
  end.

Definition ascii_lower (a : ascii) : ascii :=
  let n := nat_of_ascii a in
  if ((65 <=? n) && (n <=? 90))%nat then ascii_of_nat (n + 32) else a.

(** [s.lower()] on names made of ASCII characters *)
Definition lower (s : string) : string :=
  string_of (map ascii_lower (chars_of s)).

(** ** Runs of the processor *)

Inductive io_event :=
  | ReadBinary (path : string) (nbytes : N)
      (* a read on the file opened with mode 'rb' returned [nbytes] bytes *)
  | OpenText (path : string) (encoding : string).
      (* the file was opened for decoding and line iteration *)

(** The state a run threads: how often [stop_requested] has been read, and
    the I/O events so far, newest first. *)
Record pstate := { polls : nat; trace : list io_event }.

Definition initial_pstate : pstate := {| polls := 0; trace := [] |}.

Definition record_event (e : io_event) (st : pstate) : pstate :=
  {| polls := polls st; trace := e :: trace st |}.

Definition is_binary_read (e : io_event) : bool :=
  match e with ReadBinary _ _ => true | OpenText _ _ => false end.

Definition event_bytes (e : io_event) : N :=
  match e with ReadBinary _ n => n | OpenText _ _ => 0 end.

(** the bytes of the file that binary reads have returned *)
Definition bytes_read (st : pstate) : N :=
  fold_right (fun e acc => event_bytes e + acc) 0 (trace st).

Definition opened_for_text (st : pstate) : bool :=
  existsb (fun e => negb (is_binary_read e)) (trace st).

Inductive error_msg :=
  | MsgStopped                 (* "处理已停止" *)
  | MsgDiskSpace (free : Z)    (* "磁盘空间不足: 仅剩 ... MB 可用空间" *)
  | MsgProcessing              (* "处理文件 ... 时出错: ..." *)
  | MsgAllBackupFailed         (* "所有备选编码均失败: ..." *)
  | MsgExtractFailed.          (* "解压文件 ... 失败: ..." *)

(** What a call of [process_log] or [try_backup_encodings] does: it
    returns the triple [(file_path, records, error)] or lets an exception
    escape. *)
Inductive outcome :=
  | Returned (file_path : string) (records : list str) (error : option error_msg)
  | Raised.

Definition min_free_bytes : Z := 100 * 1024 * 1024.

Definition bom_encodings : list (bytes * string) :=
  [ ([xef; xbb; xbf], "utf-8");
    ([xff; xfe], "utf-16-le");
    ([xfe; xff], "utf-16-be");
    ([xff; xfe; x00; x00], "utf-32-le");
    ([x00; x00; xfe; xff], "utf-32-be") ]%string.

(** The loop over [bom_encodings.items()], in insertion order. *)
Fixpoint match_bom (table : list (bytes * string)) (header : bytes)
  : option string :=
  match table with
  | [] => None
  | (bom, encoding) :: table' =>
      if bytes_startswith header bom then Some encoding
      else match_bom table' header
  end.

Section LogProcessor.
Context {rt : Runtime}.
(** the files that can be opened, by path *)
Variable fs : gmap string bytes.
(** [psutil.disk_usage(dir).free]; [None] when the call raises *)
Variable disk_free : string -> option Z.
(** the value of [self.stop_requested] at each successive read *)
Variable stop : nat -> bool.

Definition poll (st : pstate) : bool * pstate :=
  (stop (polls st), {| polls := S (polls st); trace := trace st |}).

(** *** count_lines *)

Fixpoint count_lines_loop (file_path : string) (chunks : list bytes)
    (lines : N) (st : pstate) : N * pstate :=
  match chunks with
  | [] => (lines, record_event (ReadBinary file_path 0) st)
  | buf :: chunks' =>
      let st1 := record_event (ReadBinary file_path (N.of_nat (length buf))) st in
      let lines' := lines + count_byte byte_lf buf in
      let (stopped, st2) := poll st1 in
      if stopped then (lines', st2)
      else count_lines_loop file_path chunks' lines' st2
  end.

Definition count_lines (file_path : string) (st : pstate) : N * pstate :=
  match fs !! file_path with
  | None => (0, st)
  | Some data =>
      count_lines_loop file_path (file_chunks (1024 * 1024) data) 0 st
  end.

(** *** select_best_encoding *)

Definition is_counted (c : char) : bool :=
  isprintable c || bool_decide (c ∈ [chr_cr; chr_lf; chr_tab]).

Definition has_log_features (decoded : str) : bool :=
  existsb (contains decoded) prefixes.

Definition sample_score (decoded : str) : spec_float :=
  let printable_count := N.of_nat (length (filter (fun c => is_counted c = true) decoded)) in
  let score :=
    match decoded with
    | [] => b64_zero
    | _ => b64_div (b64_of_N printable_count) (b64_of_N (N.of_nat (length decoded)))
    end in
  if has_log_features decoded then b64_add score b64_0_3 else score.

Fixpoint select_loop (mode : errors_mode) (encodings : list string)
    (sample_data : bytes) (best_encoding : string) (best_score : spec_float)
    (st : pstate) : string * pstate :=
  match encodings with
  | [] => (best_encoding, st)
  | encoding :: rest =>
      let (stopped, st1) := poll st in
      if stopped then (best_encoding, st1)
      else match bytes_decode encoding mode sample_data with
           | None => select_loop mode rest sample_data best_encoding best_score st1
           | Some decoded =>
               let score := sample_score decoded in
               if b64_ltb best_score score
               then select_loop mode rest sample_data encoding score st1
               else select_loop mode rest sample_data best_encoding best_score st1
           end
  end.

Definition select_best_encoding (sample_data : bytes) (st : pstate)
  : string * pstate :=
  select_loop Ignore backup_encodings sample_data "utf-8"%string b64_zero st.

(** *** detect_encoding *)

Definition detect_by_chardet (file_path : string) (st : pstate)
  : string * pstate :=
  match fs !! file_path with
  | None => ("utf-8"%string, st)
  | Some data =>
      let raw_data := read_prefix 50000 data in
      let st1 := record_event (ReadBinary file_path (N.of_nat (length raw_data))) st in
      let result := chardet_detect raw_data in
      let encoding :=
        match cd_encoding result with
        | Some e => if bool_decide (e = ""%string) then "utf-8"%string else e
        | None => "utf-8"%string
        end in
      let encoding :=
        if bool_decide (lower encoding = "ascii"%string) then "utf-8"%string
        else encoding in
      if b64_ltb (cd_confidence result) b64_0_8
      then select_best_encoding raw_data st1
      else (encoding, st1)
  end.

Definition detect_encoding (file_path : string) (st : pstate)
  : string * pstate :=
  match fs !! file_path with
  | None => detect_by_chardet file_path st
  | Some data =>
      let header := read_prefix 4 data in
      let st1 := record_event (ReadBinary file_path (N.of_nat (length header))) st in
      match match_bom bom_encodings header with
      | Some encoding => (encoding, st1)
      | None => detect_by_chardet file_path st1
      end
  end.

(** *** try_backup_encodings *)

Inductive pass_exit :=
  | PassFinished (chat_records : list str)   (* the file is exhausted *)
  | PassBroken (chat_records : list str)     (* [break] on the stop flag *)
  | PassRaised.                              (* too many garbled lines *)

Fixpoint backup_pass_loop (lines : list str) (chat_records : list str)
    (line_errors : N) (st : pstate) : pass_exit * pstate :=
  match lines with
  | [] => (PassFinished chat_records, st)
  | line :: rest =>
      let (stopped, st1) := poll st in
      if stopped then (PassBroken chat_records, st1)
      else if has_replacement line then
        let line_errors := line_errors + 1 in
        if 50 <? line_errors then (PassRaised, st1)
        else backup_pass_loop rest (scan_prefixes prefixes line chat_records)
               line_errors st1
      else backup_pass_loop rest (scan_prefixes prefixes line chat_records)
             line_errors st1
  end.

(** One candidate: [Some chat_records] when control reaches the
    comparison with [best_records], [None] when an exception is caught. *)
Definition backup_pass (file_path encoding : string) (st : pstate)
  : option (list str) * pstate :=
  let st1 := record_event (OpenText file_path encoding) st in
  match fs !! file_path with
  | None => (None, st1)
  | Some data =>
      let stream := text_lines encoding data in
      match backup_pass_loop (ts_lines stream) [] 0 st1 with
      | (PassFinished chat_records, st2) =>
          match ts_end stream with
          | AtEOF => (Some chat_records, st2)
          | _ => (None, st2)
          end
      | (PassBroken chat_records, st2) => (Some chat_records, st2)
      | (PassRaised, st2) => (None, st2)
      end
  end.

Record backup_state := {
  best_records : list str;
  best_encoding : option string;
  attempts : list (string * option (list str));  (* oldest first *)
  broke : bool                                   (* left by [break] *)
}.

Fixpoint backup_loop (file_path : string) (encodings : list string)
    (best : backup_state) (st : pstate) : backup_state * pstate :=
  match encodings with
  | [] => (best, st)
  | encoding :: rest =>
      let (stopped, st1) := poll st in
      if stopped then
        ({| best_records := best_records best;
            best_encoding := best_encoding best;
            attempts := attempts best;
            broke := true |}, st1)
      else
        let (result, st2) := backup_pass file_path encoding st1 in
        let best' :=
          match result with
          | Some chat_records =>
              if (length (best_records best) <? length chat_records)%nat
              then {| best_records := chat_records;
                      best_encoding := Some encoding;
                      attempts := attempts best ++ [(encoding, result)];
                      broke := false |}
              else {| best_records := best_records best;
                      best_encoding := best_encoding best;
                      attempts := attempts best ++ [(encoding, result)];
                      broke := false |}
          | None =>
              {| best_records := best_records best;
                 best_encoding := best_encoding best;
                 attempts := attempts best ++ [(encoding, result)];
                 broke := false |}
          end in
        backup_loop file_path rest best' st2
  end.

Definition no_best : backup_state :=
  {| best_records := []; best_encoding := None; attempts := []; broke := false |}.

Definition backup_result (file_path : string) (best : backup_state) : outcome :=
  match best_records best with
  | [] => Returned file_path [] (Some MsgAllBackupFailed)
  | _ :: _ => Returned file_path (best_records best) None
  end.

Definition try_backup_encodings (file_path : string) (st : pstate)
  : outcome * pstate :=
  let (stopped, st1) := poll st in
  if stopped then (Returned file_path [] (Some MsgStopped), st1)
  else match fs !! file_path with
       | None => (Raised, st1)               (* os.path.getsize raises *)
       | Some _ =>
           let (best, st2) := backup_loop file_path backup_encodings no_best st1 in
           (backup_result file_path best, st2)
       end.

(** *** process_log *)

Inductive loop_exit :=
  | LoopDone (chat_records : list str)   (* the file is exhausted *)
  | LoopStopped                          (* the stop flag was seen *)
  | LoopTooManyErrors.                   (* more than 100 garbled lines *)

Fixpoint primary_loop (lines : list str) (chat_records : list str)
    (line_errors : N) (st : pstate) : loop_exit * pstate :=
  match lines with
  | [] => (LoopDone chat_records, st)
  | line :: rest =>
      let (stopped, st1) := poll st in
      if stopped then (LoopStopped, st1)
      else
        let chat_records := scan_prefixes prefixes line chat_records in
        if has_replacement line then
          let line_errors := line_errors + 1 in
          if 100 <? line_errors then (LoopTooManyErrors, st1)
          else primary_loop rest chat_records line_errors st1
        else primary_loop rest chat_records line_errors st1
  end.

(** The [try] block of [process_log] from the disk check on. A call of
    [try_backup_encodings] made inside the block has its exceptions
    caught by the block; one made from the [UnicodeDecodeError] handler
    has not. *)
Definition extract_records (file_path encoding : string) (data : bytes)
    (st : pstate) : outcome * pstate :=
  match disk_free (dirname file_path) with
  | None => (Returned file_path [] (Some MsgProcessing), st)
  | Some free =>
      if (free <? min_free_bytes)%Z
      then (Returned file_path [] (Some (MsgDiskSpace free)), st)
      else
        let st1 := record_event (OpenText file_path encoding) st in
        let stream := text_lines encoding data in
        match primary_loop (ts_lines stream) [] 0 st1 with
        | (LoopStopped, st2) => (Returned file_path [] (Some MsgStopped), st2)
        | (LoopTooManyErrors, st2) =>
            match try_backup_encodings file_path st2 with
            | (Raised, st3) => (Returned file_path [] (Some MsgProcessing), st3)
            | r => r
            end
        | (LoopDone chat_records, st2) =>
            match ts_end stream with
            | AtEOF => (Returned file_path chat_records None, st2)
            | RaisesUnicodeDecodeError => try_backup_encodings file_path st2
            | RaisesOther => (Returned file_path [] (Some MsgProcessing), st2)
            end
        end
  end.

(** [file_size] and [line_count] only decide whether the file is reported
    as large; the count is still taken, and [os.path.getsize] still raises
    for a file that is not there. *)
Definition process_log (file_path : string) (st : pstate) : outcome * pstate :=
  let (stopped, st0) := poll st in
  if stopped then (Returned file_path [] (Some MsgStopped), st0)
  else
    let (encoding, st1) := detect_encoding file_path st0 in
    match fs !! file_path with
    | None => (Raised, st1)                  (* os.path.getsize raises *)
    | Some data =>
        let (line_count, st2) := count_lines file_path st1 in
        extract_records file_path encoding data st2
    end.

End LogProcessor.

(** ** ChatExtractorApp: tasks, the worker and the result stores *)

(** A dict whose iteration order matters: the pairs in insertion order, a
    key bound at most once. *)
Definition odict (V : Type) := list (string * V).

Fixpoint odict_get {V} (k : string) (d : odict V) : option V :=
  match d with
  | [] => None
  | (k', v) :: d' => if decide (k = k') then Some v else odict_get k d'
  end.

(** [d[k] = v]: a bound key keeps its place, a new key goes last. *)
Fixpoint odict_set {V} (k : string) (v : V) (d : odict V) : odict V :=
  match d with
  | [] => [(k, v)]
  | (k', v') :: d' =>
      if decide (k = k') then (k, v) :: d' else (k', v') :: odict_set k v d'
  end.

Inductive task :=
  | Extract (gz_path : string)                                  (* ("extract", gz_path) *)
  | Process (file_path : string) (source_archive : option string).
                                              (* ("process", file_path, source_archive) *)

Inductive status :=
  | StatusSuccess   (* "成功" *)
  | StatusFailed.   (* "失败" *)

Record result_entry := {
  r_records : list str;
  r_error : option error_msg;
  r_status : status;
  r_source_archive : option string
}.

Record app_state := {
  task_queue : list task;                  (* oldest first *)
  results : gmap string result_entry;
  all_results : gmap string (list str);
  results_by_id : odict (list str);
  filepath_to_treeid : odict string;
  temp_dir : option string;
  files : gmap string bytes;
  processed_files : nat;
  currently_processing : nat;
  processor : pstate;                      (* the run of [self.processor] *)
  app_polls : nat                          (* reads of the app's own stop flag *)
}.

(** [x if x else y] on [source_archive]: [None] and the empty string are
    false. *)
Definition truthy_archive (source_archive : option string) : option string :=
  match source_archive with
  | Some a => if bool_decide (a = ""%string) then None else Some a
  | None => None
  end.

(** [file_path.lower().endswith(('.gz', '.log.gz'))] *)
Definition is_archive_name (file_path : string) : bool :=
  string_endswith (lower file_path) ".gz" || string_endswith (lower file_path) ".log.gz".

(** The queueing loop of [process_files]. *)
Definition enqueue_file (file_path : string) (queue : list task) : list task :=
  if is_archive_name file_path then queue ++ [Extract file_path]
  else queue ++ [Process file_path None].

Definition enqueue_files (file_paths : list string) (queue : list task) : list task :=
  foldl (fun q f => enqueue_file f q) queue file_paths.

(** the name of the member extracted from an archive *)
Definition member_name (gz_path : string) : string :=
  let file_name := basename gz_path in
  if string_endswith file_name ".log.gz" then (drop_last 7 file_name +:+ ".log")%string
  else if string_endswith file_name ".gz" then drop_last 3 file_name
  else file_name.

Definition status_of (error : option error_msg) : status :=
  match error with
  | None => StatusSuccess
  | Some _ => StatusFailed
  end.

(** *** deduplicate_records: the loop over one record list *)

Section Dedup.
Context {A : Type} `{Countable A}.

Fixpoint dedup_loop (records : list A) (seen : gset A)
    (deduplicated_records : list A) : list A :=
  match records with
  | [] => deduplicated_records
  | record :: rest =>
      if decide (record ∈ seen) then dedup_loop rest seen deduplicated_records
      else dedup_loop rest ({[record]} ∪ seen) (deduplicated_records ++ [record])
  end.

Definition deduplicate (records : list A) : list A := dedup_loop records ∅ [].
End Dedup.

Section App.
Context {rt : Runtime}.
Variable disk_free : string -> option Z.
(** [self.processor.stop_requested] and [self.stop_requested] at each
    successive read *)
Variable stop : nat -> bool.
Variable app_stop : nat -> bool.

Definition set_temp_dir (d : string) (a : app_state) : app_state :=
  {| task_queue := task_queue a; results := results a;
     all_results := all_results a; results_by_id := results_by_id a;
     filepath_to_treeid := filepath_to_treeid a; temp_dir := Some d;
     files := files a; processed_files := processed_files a;
     currently_processing := currently_processing a;
     processor := processor a; app_polls := app_polls a |}.

Definition write_file (path : string) (data : bytes) (a : app_state) : app_state :=
  {| task_queue := task_queue a; results := results a;
     all_results := all_results a; results_by_id := results_by_id a;
     filepath_to_treeid := filepath_to_treeid a; temp_dir := temp_dir a;
     files := <[path := data]> (files a); processed_files := processed_files a;
     currently_processing := currently_processing a;
     processor := processor a; app_polls := app_polls a |}.

Definition put_task (t : task) (a : app_state) : app_state :=
  {| task_queue := task_queue a ++ [t]; results := results a;
     all_results := all_results a; results_by_id := results_by_id a;
     filepath_to_treeid := filepath_to_treeid a; temp_dir := temp_dir a;
     files := files a; processed_files := processed_files a;
     currently_processing := currently_processing a;
     processor := processor a; app_polls := app_polls a |}.

(** [extract_gz_file]: the extracted path or an error. An output file
    left behind by a failed decompression is not recorded: no task reads
    it. *)
Definition extract_gz_file (gz_path : string) (a : app_state)
  : (option string * option error_msg) * app_state :=
  match disk_free (dirname gz_path) with
  | None => ((None, Some MsgExtractFailed), a)
  | Some free =>
      if (free <? min_free_bytes)%Z then ((None, Some (MsgDiskSpace free)), a)
      else
        let dir := match temp_dir a with Some d => d | None => mkdtemp end in
        let a1 := set_temp_dir dir a in
        let extract_dir := path_join dir (basename gz_path +:+ "_extracted")%string in
        let file_name := member_name gz_path in
        let extract_path := path_join extract_dir file_name in
        match files a !! gz_path with
        | None => ((None, Some MsgExtractFailed), a1)
        | Some compressed =>
            if bool_decide (file_name = ""%string)
            then ((None, Some MsgExtractFailed), a1)   (* the path is a directory *)
            else match gunzip compressed with
                 | None => ((None, Some MsgExtractFailed), a1)
                 | Some data => ((Some extract_path, None), write_file extract_path data a1)
                 end
        end
  end.

Definition store_result (file_path : string) (source_archive : option string)
    (records : list str) (error : option error_msg) (st : pstate) (a : app_state) : app_state :=
  let tree_id :=
    match truthy_archive source_archive with
    | Some archive => archive
    | None => file_path
    end in
  {| task_queue := task_queue a;
     results := <[file_path := {| r_records := records; r_error := error;
                                  r_status := status_of error;
                                  r_source_archive := source_archive |}]> (results a);
     all_results := <[file_path := records]> (all_results a);
     results_by_id := odict_set tree_id records (results_by_id a);
     filepath_to_treeid := odict_set file_path tree_id (filepath_to_treeid a);
     temp_dir := temp_dir a; files := files a;
     processed_files := S (processed_files a);
     currently_processing := S (currently_processing a);
     processor := st; app_polls := app_polls a |}.

Definition note_exception (st : pstate) (a : app_state) : app_state :=
  {| task_queue := task_queue a; results := results a;
     all_results := all_results a; results_by_id := results_by_id a;
     filepath_to_treeid := filepath_to_treeid a; temp_dir := temp_dir a;
     files := files a; processed_files := processed_files a;
     currently_processing := S (currently_processing a);
     processor := st; app_polls := app_polls a |}.

(** The body of the worker's loop for a task taken from the queue. The
    status texts it writes to the tree view are left out; an exception that
    escapes [process_log] is caught by the loop and stores nothing. *)
Definition worker_task (t : task) (a : app_state) : app_state :=
  match t with
  | Extract gz_path =>
      match extract_gz_file gz_path a with
      | ((Some extracted_path, _), a1) =>
          if bool_decide (extracted_path = ""%string) then a1
          else put_task (Process extracted_path (Some gz_path)) a1
      | ((None, _), a1) => a1
      end
  | Process file_path source_archive =>
      match process_log (files a) disk_free stop file_path (processor a) with
      | (Returned _ records error, st) =>
          store_result file_path source_archive records error st a
      | (Raised, st) => note_exception st a
      end
  end.

Definition set_records (tree_id : string) (records : list str) (a : app_state) : app_state :=
  let all :=
    match filter (fun kv => bool_decide (kv.2 = tree_id)) (filepath_to_treeid a) with
    | (file_path, _) :: _ => <[file_path := records]> (all_results a)
    | [] => all_results a
    end in
  {| task_queue := task_queue a; results := results a;
     all_results := all; results_by_id := odict_set tree_id records (results_by_id a);
     filepath_to_treeid := filepath_to_treeid a; temp_dir := temp_dir a;
     files := files a; processed_files := processed_files a;
     currently_processing := currently_processing a;
     processor := processor a; app_polls := app_polls a |}.

Definition app_poll (a : app_state) : bool * app_state :=
  (app_stop (app_polls a),
   {| task_queue := task_queue a; results := results a;
      all_results := all_results a; results_by_id := results_by_id a;
      filepath_to_treeid := filepath_to_treeid a; temp_dir := temp_dir a;
      files := files a; processed_files := processed_files a;
      currently_processing := currently_processing a;
      processor := processor a; app_polls := S (app_polls a) |}).

(** The loop of [deduplicate_records] over [list(self.results_by_id.items())]. *)
Fixpoint dedup_entries (entries : list (string * list str)) (a : app_state)
    (deduplicated_count : nat) : nat * app_state :=
  match entries with
  | [] => (deduplicated_count, a)
  | (tree_id, records) :: rest =>
      let (stopped, a1) := app_poll a in
      if stopped then (deduplicated_count, a1)
      else match records with
           | [] => dedup_entries rest a1 deduplicated_count
           | _ :: _ =>
               let deduplicated_records := deduplicate records in
               let deduplicated := (length records - length deduplicated_records)%nat in
               dedup_entries rest (set_records tree_id deduplicated_records a1)
                 (deduplicated_count + deduplicated)%nat
           end
  end.

Definition deduplicate_records (a : app_state) : nat * app_state :=
  let (stopped, a1) := app_poll a in
  if stopped then (0%nat, a1)
  else dedup_entries (results_by_id a1) a1 0%nat.

End App.

(** *** validate_content and the loop of worker *)

(** [any('\ufffd' in record for record in records)] *)
Definition has_garbled (records : list str) : bool :=
  existsb has_replacement records.

(** The first path that [filepath_to_treeid] maps to [tree_id]. *)
Definition path_of_tree_id (tree_id : string) (a : app_state) : option string :=
  match filter (fun kv => bool_decide (kv.2 = tree_id)) (filepath_to_treeid a) with
  | (file_path, _) :: _ => Some file_path
  | [] => None
  end.

(** What a call of [validate_content] does: it returns [revalidated] or
    lets an exception of [process_log] escape. *)
Inductive validation :=
  | Revalidated (revalidated : nat)
  | ValidationRaised.

Section AppLoops.
Context {rt : Runtime}.
Variable disk_free : string -> option Z.
Variable stop : nat -> bool.
Variable app_stop : nat -> bool.

Definition set_processor (st : pstate) (a : app_state) : app_state :=
  {| task_queue := task_queue a; results := results a;
     all_results := all_results a; results_by_id := results_by_id a;
     filepath_to_treeid := filepath_to_treeid a; temp_dir := temp_dir a;
     files := files a; processed_files := processed_files a;
     currently_processing := currently_processing a;
     processor := st; app_polls := app_polls a |}.

(** [self.results_by_id[tree_id] = new_records] and
    [self.all_results[file_path] = new_records] *)
Definition replace_records (tree_id file_path : string) (new_records : list str)
    (a : app_state) : app_state :=
  {| task_queue := task_queue a; results := results a;
     all_results := <[file_path := new_records]> (all_results a);
     results_by_id := odict_set tree_id new_records (results_by_id a);
     filepath_to_treeid := filepath_to_treeid a; temp_dir := temp_dir a;
     files := files a; processed_files := processed_files a;
     currently_processing := currently_processing a;
     processor := processor a; app_polls := app_polls a |}.

(** The loop of [validate_content] over [list(self.results_by_id.items())].
    The status texts it writes to the tree view are left out. *)
Fixpoint validate_entries (entries : list (string * list str)) (a : app_state)
    (revalidated : nat) : validation * app_state :=
  match entries with
  | [] => (Revalidated revalidated, a)
  | (tree_id, records) :: rest =>
      let (stopped, a1) := app_poll app_stop a in
      if stopped then (Revalidated revalidated, a1)
      else if negb (has_garbled records) then validate_entries rest a1 revalidated
      else
        match path_of_tree_id tree_id a1 with
        | None => validate_entries rest a1 revalidated
        | Some file_path =>
            if bool_decide (file_path = ""%string)
            then validate_entries rest a1 revalidated
            else
              match process_log (files a1) disk_free stop file_path (processor a1) with
              | (Raised, st) => (ValidationRaised, set_processor st a1)
              | (Returned _ new_records (Some _), st) =>
                  validate_entries rest (set_processor st a1) revalidated
              | (Returned _ new_records None, st) =>
                  if has_garbled new_records
                  then validate_entries rest (set_processor st a1) revalidated
                  else validate_entries rest
                         (replace_records tree_id file_path new_records
                            (set_processor st a1))
                         (S revalidated)
              end
        end
  end.

Definition validate_content (a : app_state) : validation * app_state :=
  validate_entries (results_by_id a) a 0%nat.

(** [validate_and_deduplicate]: [None] when an exception of
    [validate_content] ends the thread; else the number of repaired files
    and, when the stop flag is clear after the validation, the number of
    records that [deduplicate_records] removed. *)
Definition validate_and_deduplicate (a : app_state)
  : option (nat * option nat) * app_state :=
  match validate_content a with
  | (ValidationRaised, a1) => (None, a1)
  | (Revalidated revalidated, a1) =>
      let (stopped, a2) := app_poll app_stop a1 in
      if stopped then (Some (revalidated, None), a2)
      else
        let (deduplicated_count, a3) := deduplicate_records app_stop a2 in
        (Some (revalidated, Some deduplicated_count), a3)
  end.

(** [self.task_queue.get(timeout=1)] that returned a task *)
Definition take_task (a : app_state) : app_state :=
  {| task_queue := tail (task_queue a); results := results a;
     all_results := all_results a; results_by_id := results_by_id a;
     filepath_to_treeid := filepath_to_treeid a; temp_dir := temp_dir a;
     files := files a; processed_files := processed_files a;
     currently_processing := currently_processing a;
     processor := processor a; app_polls := app_polls a |}.

(** The loop of [worker], run on its own after the tasks were queued: it
    ends when the app's stop flag is read as set or when the queue is
    empty. [fuel] bounds the number of tasks taken; [None] means it ran
    out. The [None] the program puts on the queue once the window is
    closed is not a task of a run and is left out. *)
Fixpoint worker (fuel : nat) (a : app_state) : option app_state :=
  match fuel with
  | O => None
  | S fuel' =>
      let (stopped, a1) := app_poll app_stop a in
      if stopped then Some a1
      else match task_queue a1 with
           | [] => Some a1
           | t :: _ => worker fuel' (worker_task disk_free stop t (take_task a1))
           end
  end.

End AppLoops.

(** ** A runtime for examples

    The instance the examples below are evaluated with. It answers as
    CPython 3 and chardet do on the data the examples use:
    - [latin1], [iso-8859-1], [cp1252] and [iso-8859-15] are decoded by
      their tables, exactly;
    - [utf-16-le] and [utf-16-be] are decoded unit by unit, exactly on data
      without surrogates; [utf-16] decodes as [utf-16-le] after an optional
      byte-order mark and, as a text stream, refuses data of two or more
      bytes without a mark;
    - every other encoding of [backup_encodings] decodes an ASCII byte to
      itself and counts any other byte as undecodable, which is exact on
      ASCII data and on a lone trailing byte [E9];
    - [isprintable] is exact below U+0100 and at U+FFFD;
    - [chardet_detect] answers for empty and for ASCII data;
    - [gunzip] inflates the gzip member of the empty file. *)

Module ExampleRuntime.

Definition cp1252_high (n : N) : option char :=
  match n with
  | 128 => Some 8364 | 130 => Some 8218 | 131 => Some 402 | 132 => Some 8222
  | 133 => Some 8230 | 134 => Some 8224 | 135 => Some 8225 | 136 => Some 710
  | 137 => Some 8240 | 138 => Some 352 | 139 => Some 8249 | 140 => Some 338
  | 142 => Some 381 | 145 => Some 8216 | 146 => Some 8217 | 147 => Some 8220
  | 148 => Some 8221 | 149 => Some 8226 | 150 => Some 8211 | 151 => Some 8212
  | 152 => Some 732 | 153 => Some 8482 | 154 => Some 353 | 155 => Some 8250
  | 156 => Some 339 | 158 => Some 382 | 159 => Some 376
  | 129 | 141 | 143 | 144 | 157 => None
  | _ => Some n
  end.

Definition latin9 (n : N) : option char :=
  match n with
  | 164 => Some 8364 | 166 => Some 352 | 168 => Some 353 | 180 => Some 381
  | 184 => Some 382 | 188 => Some 338 | 189 => Some 339 | 190 => Some 376
  | _ => Some n
  end.

Definition ascii_only (n : N) : option char :=
  if n <? 128 then Some n else None.

Inductive codec :=
  | SingleByte (table : N -> option char)
  | Utf16 (little_endian : bool)
  | Utf16Marked
  | NoCodec.

Definition codec_of (encoding : string) : codec :=
  let name := lower encoding in
  if bool_decide (name ∈ ["latin1"; "iso-8859-1"]%string) then SingleByte Some
  else if bool_decide (name = "cp1252"%string) then SingleByte cp1252_high
  else if bool_decide (name = "iso-8859-15"%string) then SingleByte latin9
  else if bool_decide (name = "utf-16-le"%string) then Utf16 true
  else if bool_decide (name = "utf-16-be"%string) then Utf16 false
  else if bool_decide (name = "utf-16"%string) then Utf16Marked
  else if bool_decide (name ∈ backup_encodings) then SingleByte ascii_only
  else NoCodec.

Definition is_surrogate (u : N) : bool := (55296 <=? u) && (u <=? 57343).

(** the code units of the data, [None] for an undecodable one *)
Fixpoint utf16_units (little_endian : bool) (data : bytes) : list (option char) :=
  match data with
  | [] => []
  | [_] => [None]
  | b1 :: b2 :: rest =>
      let u := if little_endian then Byte.to_N b1 + 256 * Byte.to_N b2
               else 256 * Byte.to_N b1 + Byte.to_N b2 in
      (if is_surrogate u then None else Some u) :: utf16_units little_endian rest
  end.

Definition units (c : codec) (data : bytes) : option (list (option char)) :=
  match c with
  | SingleByte table => Some (map (fun b => table (Byte.to_N b)) data)
  | Utf16 little_endian => Some (utf16_units little_endian data)
  | Utf16Marked =>
      if bytes_startswith data [xff; xfe] then Some (utf16_units true (drop 2 data))
      else if bytes_startswith data [xfe; xff] then Some (utf16_units false (drop 2 data))
      else Some (utf16_units true data)
  | NoCodec => None
  end.

Fixpoint apply_mode (mode : errors_mode) (us : list (option char)) : option str :=
  match us with
  | [] => Some []
  | Some c :: us' => option_map (cons c) (apply_mode mode us')
  | None :: us' =>
      match mode with
      | Strict => None
      | Ignore => apply_mode mode us'
      | Replace => option_map (cons chr_replacement) (apply_mode mode us')
      end
  end.

Definition decode (encoding : string) (mode : errors_mode) (data : bytes)
  : option str :=
  match units (codec_of encoding) data with
  | Some us => apply_mode mode us
  | None => None
  end.

(** Lines as a file opened in text mode yields them: "\n", "\r" and
    "\r\n" end a line and are read as "\n". [cur] is the line being
    read, newest character first. *)
Fixpoint split_lines (cur : str) (text : str) : list str :=
  match text with
  | [] => match cur with [] => [] | _ => [rev cur] end
  | c :: rest =>
      if c =? chr_lf then rev (chr_lf :: cur) :: split_lines [] rest
      else if c =? chr_cr then
        match rest with
        | d :: rest' =>
            if d =? chr_lf then rev (chr_lf :: cur) :: split_lines [] rest'
            else rev (chr_lf :: cur) :: split_lines [] rest
        | [] => [rev (chr_lf :: cur)]
        end
      else split_lines (c :: cur) rest
  end.

Definition lines_of (encoding : string) (data : bytes) : text_stream :=
  let unmarked :=
    match codec_of encoding with
    | Utf16Marked =>
        (2 <=? length data)%nat && negb (bytes_startswith data [xff; xfe])
        && negb (bytes_startswith data [xfe; xff])
    | _ => false
    end in
  if unmarked then {| ts_lines := []; ts_end := RaisesOther |}
  else match decode encoding Replace data with
       | Some text => {| ts_lines := split_lines [] text; ts_end := AtEOF |}
       | None => {| ts_lines := []; ts_end := RaisesOther |}
       end.

Definition printable (c : char) : bool :=
  ((32 <=? c) && (c <=? 126)) || ((161 <=? c) && (c <=? 172))
  || ((174 <=? c) && (c <=? 255)) || (c =? chr_replacement).

Definition b64_one : spec_float := S754_finite false 4503599627370496 (-52).

Definition detect (data : bytes) : chardet_result :=
  match data with
  | [] => {| cd_encoding := None; cd_confidence := b64_zero |}
  | _ =>
      if forallb (fun b => Byte.to_N b <? 128) data
      then {| cd_encoding := Some "ascii"%string; cd_confidence := b64_one |}
      else {| cd_encoding := None; cd_confidence := b64_zero |}
  end.

Definition empty_gzip : bytes :=
  [x1f; x8b; x08; x00; x00; x00; x00; x00; x02; x03;
   x03; x00; x00; x00; x00; x00; x00; x00; x00; x00].

Definition inflate (data : bytes) : option bytes :=
  if bool_decide (data = empty_gzip) then Some [] else None.

#[export] Instance runtime : Runtime := {|
  bytes_decode := decode;
  text_lines := lines_of;
  isprintable := printable;
  chardet_detect := detect;
  gunzip := inflate;
  mkdtemp := "/tmp/minecraft_logs_run"
|}.

Definition bytes_of_string (s : string) : bytes := list_byte_of_string s.

(** the line of the scenario, as text and as the bytes of a log file *)
Definition alice : string :=
  "[12:00:00] [Server thread/INFO] [net.minecraft.server.MinecraftServer/]: <Alice> hello".

Definition alice_line : str := str_of_string alice ++ [chr_lf].

Definition alice_log : bytes := bytes_of_string alice ++ [byte_lf].

Definition never : nat -> bool := fun _ => false.

Definition plenty : string -> option Z := fun _ => Some (2 * min_free_bytes)%Z.

(** 50 MiB free on every volume *)
Definition scarce : string -> option Z := fun _ => Some (50 * 1024 * 1024)%Z.

(** the stop flag set from the [n]-th read on, and at the [n]-th read only *)
Definition stop_from (n : nat) : nat -> bool := fun k => (n <=? k)%nat.
Definition stop_at (n : nat) : nat -> bool := fun k => (k =? n)%nat.

Definition log_path : string := "/logs/latest.log".
Definition archive_path : string := "/logs/chat.log.gz".
Definition member_path : string :=
  "/tmp/minecraft_logs_run/chat.log.gz_extracted/chat.log".

Definition app_with (fs : gmap string bytes) : app_state :=
  {| task_queue := []; results := ∅; all_results := ∅; results_by_id := [];
     filepath_to_treeid := []; temp_dir := None; files := fs;
     processed_files := 0; currently_processing := 0;
     processor := initial_pstate; app_polls := 0 |}.

Definition log_files : gmap string bytes := {[ log_path := alice_log ]}.
Definition archive_files : gmap string bytes := {[ archive_path := empty_gzip ]}.

End ExampleRuntime.

(** ** Vocabulary of the statements *)

Definition occurs (p s : str) : Prop :=
  exists pre post, s = pre ++ p ++ post.

(** [s = pre ++ p ++ post] at the leftmost occurrence of [p]. *)
Definition first_occurrence (p s pre post : str) : Prop :=
  s = pre ++ p ++ post /\
  forall pre' post', s = pre' ++ p ++ post' -> (length pre <= length pre')%nat.

(** The prefix of the list that decides for [line]: it occurs in the line
    and no prefix listed before it does. *)
Definition first_listed_prefix (ps : list str) (p line : str) : Prop :=
  exists before after,
    ps = before ++ p :: after /\ occurs p line /\
    forall q, q ∈ before -> ~ occurs q line.

Definition starts_with_lt_or_bracket (content : str) : Prop :=
  exists rest, content = chr_lt :: rest \/ content = chr_lbracket :: rest.

(** The stop flag is never seen set. *)
Definition never_stopped (stop : nat -> bool) : Prop := forall k, stop k = false.

(** The records the prefix test collects from the lines of a file. *)
Definition chat_lines (lines : list str) : list str :=
  fold_left (fun chat_records line => scan_prefixes prefixes line chat_records) lines [].

(** the number of lines holding U+FFFD *)
Definition garbled (lines : list str) : N :=
  N.of_nat (length (filter (fun line => has_replacement line = true) lines)).

(** a stored record list after deduplication *)
Definition dedup_entry (kv : string * list str) : string * list str :=
  (kv.1, deduplicate kv.2).

(** [st'] continues [st] with binary reads only. *)
Definition reads_only (st st' : pstate) : Prop :=
  exists events, trace st' = events ++ trace st /\ forallb is_binary_read events = true.

Section Vocabulary.
Context {rt : Runtime}.

(** What one fallback candidate yields for a file when the run is not
    stopped: nothing when more than 50 lines are garbled or the stream
    raises, else the records of all lines. *)
Definition candidate_records (encoding : string) (data : bytes) : option (list str) :=
  let stream := text_lines encoding data in
  if 50 <? garbled (ts_lines stream) then None
  else match ts_end stream with
       | AtEOF => Some (chat_lines (ts_lines stream))
       | _ => None
       end.

(** The score of a candidate of [select_best_encoding] under an error
    mode, when its decoding does not raise. *)
Definition candidate_score (mode : errors_mode) (sample_data : bytes)
    (encoding : string) : option spec_float :=
  option_map sample_score (bytes_decode encoding mode sample_data).

(** The candidates [select_best_encoding] examines: those before the
    first poll that sees the stop flag, polls counted from [k]. *)
Fixpoint examined (stop : nat -> bool) (k : nat) (encodings : list string)
  : list string :=
  match encodings with
  | [] => []
  | encoding :: rest =>
      if stop k then [] else encoding :: examined stop (S k) rest
  end.

(** The candidates a call of [try_backup_encodings] tried, each with
    the record list it brought to the comparison, if any; none when the
    call is stopped on entry. *)
Definition backup_attempts (fs : gmap string bytes) (stop : nat -> bool)
    (path : string) (st : pstate) : list (string * option (list str)) :=
  if stop (polls st) then []
  else attempts (backup_loop fs stop path backup_encodings no_best (poll stop st).2).1.

(** The selection as the specification words it: every candidate of the
    fixed list is decoded with invalid bytes replaced and scored; the
    highest score wins, the first candidate among equals; utf-8 when no
    score is above 0. *)
Definition replaced_score (sample_data : bytes) (encoding : string) : spec_float :=
  match bytes_decode encoding Replace sample_data with
  | Some decoded => sample_score decoded
  | None => b64_zero
  end.

Fixpoint highest_scoring (score : string -> spec_float) (candidates : list string)
    (best : string) (best_score : spec_float) : string :=
  match candidates with
  | [] => best
  | candidate :: rest =>
      if b64_ltb best_score (score candidate)
      then highest_scoring score rest candidate (score candidate)
      else highest_scoring score rest best best_score
  end.

Definition select_best_encoding_replacing (sample_data : bytes) : string :=
  highest_scoring (replaced_score sample_data) backup_encodings "utf-8"%string b64_zero.
End Vocabulary.

(** ** Vocabulary of the further properties *)

(** A line the prefix test keeps. *)
Definition is_chat_line (line : str) : bool :=
  match scan_prefixes prefixes line [] with
  | [] => false
  | _ :: _ => true
  end.

Definition total_records (d : odict (list str)) : nat :=
  fold_right (fun kv acc => (length kv.2 + acc)%nat) 0%nat d.

Definition text_opens (st : pstate) : nat :=
  length (filter (fun e => is_binary_read e = false) (trace st)).

(** [a'] has the stores of [a], except that record lists may have been
    replaced by lists free of U+FFFD: the keys and their order are kept,
    and [self.results], the tree ids, the queue and the files are
    untouched. *)
Definition repaired_from (a a' : app_state) : Prop :=
  results a' = results a /\
  filepath_to_treeid a' = filepath_to_treeid a /\
  task_queue a' = task_queue a /\
  files a' = files a /\
  processed_files a' = processed_files a /\
  map fst (results_by_id a') = map fst (results_by_id a) /\
  (forall tree_id records,
      odict_get tree_id (results_by_id a') = Some records ->
      odict_get tree_id (results_by_id a) = Some records \/
      has_garbled records = false) /\
  (forall file_path records,
      all_results a' !! file_path = Some records ->
      all_results a !! file_path = Some records \/ has_garbled records = false).

(** How many tasks a queue can still give the worker: an extract task
    may queue one process task. *)
Definition task_weight (t : task) : nat :=
  match t with
  | Extract _ => 2
  | Process _ _ => 1
  end.

Definition queue_weight (queue : list task) : nat :=
  fold_right (fun t acc => (task_weight t + acc)%nat) 0%nat queue.

(** The size of a file in bytes, 0 for a file that is not there. *)
Definition file_size (fs : gmap string bytes) (path : string) : N :=
  match (fs !! path : option bytes) with
  | Some data => N.of_nat (length data)
  | None => 0
  end.

(** ** Data of the further examples *)

Module ExampleData.
Import ExampleRuntime.

(** the log of the scenario behind the utf-8 byte-order mark *)
Definition marked_log : bytes := [xef; xbb; xbf] ++ alice_log.
Definition marked_files : gmap string bytes := {[ log_path := marked_log ]}.

(** the scenario line twice *)
Definition two_line_log : bytes := alice_log ++ alice_log.
Definition two_line_files : gmap string bytes := {[ log_path := two_line_log ]}.

(** an ASCII text in utf-16-be *)
Definition utf16be (text : bytes) : bytes := flat_map (fun b => [x00; b]) text.

(** A utf-16-be log, with its byte-order mark, of 101 lines that each
    hold the character U+FFFD itself. *)
Definition garbled_log : bytes :=
  [xfe; xff] ++ concat (replicate 101 [xff; xfd; x00; x0a]).
Definition garbled_files : gmap string bytes := {[ log_path := garbled_log ]}.

(** A utf-16-be log, with its byte-order mark, whose one chat line ends
    with the character U+FFFD, and the record that line gives. *)
Definition replacement_log : bytes :=
  [xfe; xff] ++ utf16be (bytes_of_string alice) ++ [xff; xfd; x00; x0a].
Definition replacement_files : gmap string bytes :=
  {[ log_path := replacement_log ]}.
Definition replacement_record : str :=
  [65279] ++ str_of_string alice ++ [chr_replacement].

(** the app after the worker has processed [replacement_log] *)
Definition replacement_app : app_state :=
  worker_task plenty never (Process log_path None) (app_with replacement_files).

(** stores that hold the scenario line twice for one file *)
Definition repeated_app : app_state :=
  {| task_queue := []; results := ∅;
     all_results := {[ log_path := [str_of_string alice; str_of_string alice] ]};
     results_by_id := [(log_path, [str_of_string alice; str_of_string alice])];
     filepath_to_treeid := [(log_path, log_path)]; temp_dir := None;
     files := log_files; processed_files := 1; currently_processing := 1;
     processor := initial_pstate; app_polls := 0 |}.

Definition upper_archive_path : string := "/logs/CHAT.LOG.GZ".

End ExampleData.

(* ================================================================== *)
(** * Properties *)

(** ** Occurrences of a literal in a line *)

Lemma startswith_spec (s p : str) :
  startswith s p = true <-> exists post, s = p ++ post.
Proof.
  revert s. induction p as [|c p IH]; intros s; simpl.
  - split; [intros _; exists s; reflexivity | reflexivity].
  - destruct s as [|d s]; simpl.
    + split; [discriminate | intros [post H]; discriminate].
    + rewrite andb_true_iff, N.eqb_eq, IH. split.
      * intros [-> [post ->]]. exists post. reflexivity.
      * intros [post H]. injection H as -> ->. split; [reflexivity | exists post; reflexivity].
Qed.

Lemma contains_spec (s p : str) :
  contains s p = true <-> occurs p s.
Proof.
  induction s as [|d s IH]; simpl.
  - rewrite orb_false_r, startswith_spec. split.
    + intros [post ->]. exists [], post. reflexivity.
    + intros (pre & post & H). destruct pre; simpl in H; [eauto | discriminate].
  - rewrite orb_true_iff, startswith_spec, IH. split.
    + intros [[post ->] | (pre & post & ->)].
      * exists [], post. reflexivity.
      * exists (d :: pre), post. reflexivity.
    + intros (pre & post & H). destruct pre as [|e pre]; simpl in H.
      * left. eauto.
      * right. injection H as -> ->. exists pre, post. reflexivity.
Qed.

Lemma first_occurrence_cons (p s pre post : str) c :
  first_occurrence p (c :: s) (c :: pre) post -> first_occurrence p s pre post.
Proof.
  intros [Heq Hmin]. split.
  - simpl in Heq. congruence.
  - intros pre' post' H.
    specialize (Hmin (c :: pre') post'). simpl in Hmin.
    rewrite H in Hmin. specialize (Hmin eq_refl). lia.
Qed.

Lemma split_once_cons (c : char) (s sep : str) :
  split_once (c :: s) sep =
    if startswith (c :: s) sep then [[]; drop (length sep) (c :: s)]
    else match split_once s sep with
         | head :: tail => (c :: head) :: tail
         | [] => []
         end.
Proof. reflexivity. Qed.

Lemma split_once_first (p s pre post : str) :
  first_occurrence p s pre post -> split_once s p = [pre; post].
Proof.
  revert s. induction pre as [|c pre IH]; intros s Hfo.
  - destruct Hfo as [-> _]. simpl app.
    assert (Hsw : startswith (p ++ post) p = true)
      by (apply startswith_spec; exists post; reflexivity).
    destruct (p ++ post) as [|d t] eqn:E; simpl; rewrite Hsw;
      rewrite <- E, drop_app_length; reflexivity.
  - destruct s as [|d s].
    { destruct Hfo as [Hs _]. discriminate. }
    assert (d = c) as -> by (destruct Hfo as [Hs _]; simpl in Hs; congruence).
    rewrite split_once_cons.
    destruct (startswith (c :: s) p) eqn:Hsw.
    + apply startswith_spec in Hsw as [post' Hsw].
      destruct Hfo as [_ Hmin].
      specialize (Hmin [] post' Hsw). simpl in Hmin. lia.
    + rewrite (IH s (first_occurrence_cons _ _ _ _ _ Hfo)). reflexivity.
Qed.

Lemma is_chat_content_spec (content : str) :
  is_chat_content content = true <-> starts_with_lt_or_bracket content.
Proof.
  unfold is_chat_content, starts_with_lt_or_bracket.
  rewrite orb_true_iff, !startswith_spec. simpl. split.
  - intros [[post ->] | [post ->]]; exists post; auto.
  - intros [rest [-> | ->]]; [left | right]; exists rest; reflexivity.
Qed.

Lemma scan_prefixes_none (ps : list str) (line : str) (recs : list str) :
  (forall p, p ∈ ps -> ~ occurs p line) -> scan_prefixes ps line recs = recs.
Proof.
  induction ps as [|q ps IH]; intros Hno; simpl; [reflexivity|].
  destruct (contains line q) eqn:Hc.
  - apply contains_spec in Hc. exfalso. apply (Hno q); [left | exact Hc].
  - apply IH. intros p Hp. apply Hno. right. exact Hp.
Qed.

Lemma scan_prefixes_first (ps : list str) (p line pre post : str) (recs : list str) :
  first_listed_prefix ps p line ->
  first_occurrence p line pre post ->
  scan_prefixes ps line recs =
    if is_chat_content (strip post) then recs ++ [strip line] else recs.
Proof.
  intros (before & after & -> & Hocc & Hno) Hfo.
  induction before as [|q before IH]; simpl.
  - apply contains_spec in Hocc. rewrite Hocc.
    rewrite (split_once_first _ _ _ _ Hfo). reflexivity.
  - destruct (contains line q) eqn:Hc.
    + apply contains_spec in Hc. exfalso. apply (Hno q); [left | exact Hc].
    + apply IH. intros r Hr. apply Hno. right. exact Hr.
Qed.

(** C3. For every line and every record list collected so far: when [p] is
    the first listed prefix that occurs in the line and the trimmed text
    after its leftmost occurrence starts with "<" or "[", the prefix loop
    appends the trimmed line, once; when that text starts with neither, the
    loop appends nothing; when neither prefix occurs, it appends nothing. *)
Theorem scan_prefixes_rule (line : str) (chat_records : list str) :
  (forall p pre post,
      first_listed_prefix prefixes p line ->
      first_occurrence p line pre post ->
      starts_with_lt_or_bracket (strip post) ->
      scan_prefixes prefixes line chat_records = chat_records ++ [strip line]) /\
  (forall p pre post,
      first_listed_prefix prefixes p line ->
      first_occurrence p line pre post ->
      ~ starts_with_lt_or_bracket (strip post) ->
      scan_prefixes prefixes line chat_records = chat_records) /\
  ((forall p, p ∈ prefixes -> ~ occurs p line) ->
      scan_prefixes prefixes line chat_records = chat_records).
Proof.
  split; [|split].
  - intros p pre post Hp Hfo Hc.
    rewrite (scan_prefixes_first _ _ _ _ _ _ Hp Hfo).
    apply is_chat_content_spec in Hc. rewrite Hc. reflexivity.
  - intros p pre post Hp Hfo Hc.
    rewrite (scan_prefixes_first _ _ _ _ _ _ Hp Hfo).
    destruct (is_chat_content (strip post)) eqn:E; [|reflexivity].
    apply is_chat_content_spec in E. contradiction.
  - apply scan_prefixes_none.
Qed.

(** ** Order of binary64 numbers *)

Ltac sf_compare_cases :=
  repeat match goal with
    | x : spec_float |- _ => destruct x as [[]|[]| |[] ? ?]
    end;
  simpl in *; try congruence;
  repeat match goal with
    | H : context [Z.compare ?a ?b] |- _ =>
        destruct (Z.compare_spec a b); simpl in H; try congruence
    | |- context [Z.compare ?a ?b] =>
        destruct (Z.compare_spec a b); simpl; try congruence
    end;
  repeat match goal with
    | H : context [Pos.compare_cont Eq ?a ?b] |- _ =>
        change (Pos.compare_cont Eq a b) with (Pos.compare a b) in H;
        destruct (Pos.compare_spec a b); simpl in H; try congruence
    | |- context [Pos.compare_cont Eq ?a ?b] =>
        change (Pos.compare_cont Eq a b) with (Pos.compare a b);
        destruct (Pos.compare_spec a b); simpl; try congruence
    end;
  try (exfalso; lia).

Lemma SFcompare_lt_trans (x y z : spec_float) :
  SFcompare x y = Some Lt -> SFcompare y z = Some Lt -> SFcompare x z = Some Lt.
Proof. intros Hxy Hyz. sf_compare_cases. Qed.

Lemma SFcompare_lt_ge (b x y : spec_float) :
  SFcompare b x = Some Lt -> SFcompare b y <> Some Lt -> SFcompare b y <> None ->
  SFcompare x y = Some Gt.
Proof. intros Hbx Hby Hn. sf_compare_cases. Qed.

Lemma SFcompare_nan_r (b x y : spec_float) :
  SFcompare b x = Some Lt -> SFcompare b y = None -> SFcompare x y = None.
Proof. intros Hbx Hby. sf_compare_cases. Qed.

Lemma b64_ltb_irrefl (x : spec_float) : b64_ltb x x = false.
Proof.
  unfold b64_ltb, SFltb. destruct (SFcompare x x) as [[]|] eqn:E; try reflexivity.
  exfalso. sf_compare_cases.
Qed.

Lemma b64_ltb_trans (x y z : spec_float) :
  b64_ltb x y = true -> b64_ltb y z = true -> b64_ltb x z = true.
Proof.
  unfold b64_ltb, SFltb.
  destruct (SFcompare x y) as [[]|] eqn:Hxy; try discriminate.
  destruct (SFcompare y z) as [[]|] eqn:Hyz; try discriminate.
  intros _ _. rewrite (SFcompare_lt_trans _ _ _ Hxy Hyz). reflexivity.
Qed.

(** [b < x] and not [b < y] leave [x <= y] false: [y] is below [x] or is
    not a number. *)
Lemma b64_leb_false (b x y : spec_float) :
  b64_ltb b x = true -> b64_ltb b y = false -> SFleb x y = false.
Proof.
  unfold b64_ltb, SFltb, SFleb.
  destruct (SFcompare b x) as [[]|] eqn:Hbx; try discriminate. intros _.
  destruct (SFcompare b y) as [c|] eqn:Hby.
  - intros Hc. rewrite (SFcompare_lt_ge b x y Hbx); [reflexivity| |congruence].
    destruct c; congruence.
  - intros _. rewrite (SFcompare_nan_r b x y Hbx Hby). reflexivity.
Qed.

Lemma b64_ltb_leb_false (x y : spec_float) :
  b64_ltb x y = true -> SFleb y x = false.
Proof.
  intros H. apply (b64_leb_false x y x H). apply b64_ltb_irrefl.
Qed.

Lemma b64_ltb_asym (x y : spec_float) :
  b64_ltb x y = true -> b64_ltb y x = false.
Proof.
  intros H. destruct (b64_ltb y x) eqn:E; [|reflexivity].
  pose proof (b64_ltb_trans _ _ _ H E) as Hxx.
  rewrite b64_ltb_irrefl in Hxx. discriminate.
Qed.

(** ** select_best_encoding *)

Section SelectFacts.
Context {rt : Runtime}.
Variable stop : nat -> bool.

Lemma examined_never (k : nat) (encodings : list string) :
  never_stopped stop -> examined stop k encodings = encodings.
Proof.
  intros Hn. revert k. induction encodings as [|e rest IH]; intros k; simpl.
  - reflexivity.
  - rewrite Hn, IH. reflexivity.
Qed.

(** The loop keeps [best_encoding] when no examined candidate beats
    [best_score]; otherwise it returns the first examined candidate of
    the highest score. *)
Lemma select_loop_spec (mode : errors_mode) (sample : bytes)
    (encodings : list string) (best : string) (best_score : spec_float)
    (st : pstate) :
  let r := (select_loop stop mode encodings sample best best_score st).1 in
  let tried := examined stop (polls st) encodings in
  (r = best /\
   forall e s, e ∈ tried -> candidate_score mode sample e = Some s ->
               b64_ltb best_score s = false)
  \/
  (exists i s,
      tried !! i = Some r /\ candidate_score mode sample r = Some s /\
      b64_ltb best_score s = true /\
      (forall j e sj, tried !! j = Some e ->
                      candidate_score mode sample e = Some sj ->
                      b64_ltb s sj = false) /\
      (forall j e sj, (j < i)%nat -> tried !! j = Some e ->
                      candidate_score mode sample e = Some sj ->
                      SFleb s sj = false)).
Proof.
  revert best best_score st.
  induction encodings as [|enc rest IH]; intros best best_score st; simpl.
  - left. split; [reflexivity|]. intros e s He. inversion He.
  - destruct (stop (polls st)) eqn:Hstop; simpl.
    + left. split; [reflexivity|]. intros e s He. inversion He.
    + set (st1 := {| polls := S (polls st); trace := trace st |}).
      destruct (bytes_decode enc mode sample) as [decoded|] eqn:Hdec.
      * destruct (b64_ltb best_score (sample_score decoded)) eqn:Hlt.
        -- (* the candidate becomes the best *)
           destruct (IH enc (sample_score decoded) st1)
             as [[Hr Hall] | (i & s & Hi & Hs & Hgt & Hmax & Hfirst)].
           ++ right. exists 0%nat, (sample_score decoded).
              rewrite Hr. unfold candidate_score at 1. rewrite Hdec. simpl.
              repeat split; try assumption.
              ** intros [|j] e sj Hj Hsj; simpl in Hj.
                 --- injection Hj as <-. unfold candidate_score in Hsj.
                     rewrite Hdec in Hsj. injection Hsj as <-.
                     apply b64_ltb_irrefl.
                 --- apply (Hall e sj); [|assumption].
                     eapply list_elem_of_lookup_2. exact Hj.
              ** intros j e sj Hj. lia.
           ++ right. exists (S i), s. simpl. repeat split; try assumption.
              ** eapply b64_ltb_trans; eassumption.
              ** intros [|j] e sj Hj Hsj; simpl in Hj.
                 --- injection Hj as <-. unfold candidate_score in Hsj.
                     rewrite Hdec in Hsj. injection Hsj as <-.
                     apply b64_ltb_asym. assumption.
                 --- apply (Hmax j e sj); assumption.
              ** intros [|j] e sj Hlt' Hj Hsj; simpl in Hj.
                 --- injection Hj as <-. unfold candidate_score in Hsj.
                     rewrite Hdec in Hsj. injection Hsj as <-.
                     apply b64_ltb_leb_false. assumption.
                 --- apply (Hfirst j e sj); [lia|assumption..].
        -- (* the candidate does not beat the best *)
           destruct (IH best best_score st1)
             as [[Hr Hall] | (i & s & Hi & Hs & Hgt & Hmax & Hfirst)].
           ++ left. split; [assumption|]. intros e s He Hs.
              apply elem_of_cons in He as [-> | He].
              ** unfold candidate_score in Hs. rewrite Hdec in Hs.
                 injection Hs as <-. assumption.
              ** apply (Hall e s); assumption.
           ++ right. exists (S i), s. simpl. repeat split; try assumption.
              ** intros [|j] e sj Hj Hsj; simpl in Hj.
                 --- injection Hj as <-. unfold candidate_score in Hsj.
                     rewrite Hdec in Hsj. injection Hsj as <-.
                     destruct (b64_ltb s (sample_score decoded)) eqn:E; [|reflexivity].
                     rewrite (b64_ltb_trans _ _ _ Hgt E) in Hlt. discriminate.
                 --- apply (Hmax j e sj); assumption.
              ** intros [|j] e sj Hlt' Hj Hsj; simpl in Hj.
                 --- injection Hj as <-. unfold candidate_score in Hsj.
                     rewrite Hdec in Hsj. injection Hsj as <-.
                     eapply b64_leb_false; eassumption.
                 --- apply (Hfirst j e sj); [lia|assumption..].
      * (* decoding raises: the candidate is skipped *)
        destruct (IH best best_score st1)
          as [[Hr Hall] | (i & s & Hi & Hs & Hgt & Hmax & Hfirst)].
        -- left. split; [assumption|]. intros e s He Hs.
           apply elem_of_cons in He as [-> | He].
           ++ unfold candidate_score in Hs. rewrite Hdec in Hs. discriminate.
           ++ apply (Hall e s); assumption.
        -- right. exists (S i), s. simpl. repeat split; try assumption.
           ++ intros [|j] e sj Hj Hsj; simpl in Hj.
              ** injection Hj as <-. unfold candidate_score in Hsj.
                 rewrite Hdec in Hsj. discriminate.
              ** apply (Hmax j e sj); assumption.
           ++ intros [|j] e sj Hlt' Hj Hsj; simpl in Hj.
              ** injection Hj as <-. unfold candidate_score in Hsj.
                 rewrite Hdec in Hsj. discriminate.
              ** apply (Hfirst j e sj); [lia|assumption..].
Qed.

(** C5, as the code has it. [select_best_encoding] examines the
    candidates of the fixed list in order until a poll sees the stop flag
    (all of them when it is never set). Each is decoded with invalid bytes
    dropped; one whose decoding raises is skipped. The score is
    [sample_score]: counted characters over decoded characters, plus 0.3
    when a log prefix occurs. When no examined candidate scores above 0
    the result is utf-8; otherwise it is an examined candidate that scores
    above 0, that no examined candidate beats, and that every candidate
    examined before it scores strictly below. *)
Theorem select_best_encoding_rule (sample : bytes) (st : pstate) :
  let r := (select_best_encoding stop sample st).1 in
  let tried := examined stop (polls st) backup_encodings in
  (never_stopped stop -> tried = backup_encodings) /\
  ((forall e s, e ∈ tried -> candidate_score Ignore sample e = Some s ->
                b64_ltb b64_zero s = false) ->
   r = "utf-8"%string) /\
  ((exists e s, e ∈ tried /\ candidate_score Ignore sample e = Some s /\
                b64_ltb b64_zero s = true) ->
   exists i s,
     tried !! i = Some r /\ candidate_score Ignore sample r = Some s /\
     b64_ltb b64_zero s = true /\
     (forall j e sj, tried !! j = Some e ->
                     candidate_score Ignore sample e = Some sj ->
                     b64_ltb s sj = false) /\
     (forall j e sj, (j < i)%nat -> tried !! j = Some e ->
                     candidate_score Ignore sample e = Some sj ->
                     SFleb s sj = false)).
Proof.
  intros r tried. split; [|split].
  - intros Hn. apply examined_never. exact Hn.
  - intros Hnone.
    destruct (select_loop_spec Ignore sample backup_encodings "utf-8"%string
                b64_zero st) as [[Hr _] | (i & s & Hi & Hs & Hgt & _)].
    + exact Hr.
    + apply list_elem_of_lookup_2 in Hi.
      rewrite (Hnone _ _ Hi Hs) in Hgt. discriminate.
  - intros (e & s & He & Hs & Hgt).
    destruct (select_loop_spec Ignore sample backup_encodings "utf-8"%string
                b64_zero st) as [[_ Hall] | Hbest].
    + rewrite (Hall e s He Hs) in Hgt. discriminate.
    + exact Hbest.
Qed.
End SelectFacts.

(** ** Reads of the target file *)

Lemma reads_only_refl (st : pstate) : reads_only st st.
Proof. exists []. split; reflexivity. Qed.

Lemma reads_only_trans (st1 st2 st3 : pstate) :
  reads_only st1 st2 -> reads_only st2 st3 -> reads_only st1 st3.
Proof.
  intros (e1 & H1 & F1) (e2 & H2 & F2). exists (e2 ++ e1). split.
  - rewrite H2, H1, app_assoc. reflexivity.
  - rewrite forallb_app, F1, F2. reflexivity.
Qed.

Lemma reads_only_same_trace (st st' : pstate) :
  trace st' = trace st -> reads_only st st'.
Proof. intros H. exists []. split; [exact H | reflexivity]. Qed.

Lemma reads_only_read (path : string) (n : N) (st : pstate) :
  reads_only st (record_event (ReadBinary path n) st).
Proof. exists [ReadBinary path n]. split; reflexivity. Qed.

Lemma reads_only_elem (e : io_event) (st st' : pstate) :
  reads_only st st' -> e ∈ trace st -> e ∈ trace st'.
Proof.
  intros (events & -> & _) He. apply elem_of_app. right. exact He.
Qed.

Section ProcessorFacts.
Context {rt : Runtime}.
Variable fs : gmap string bytes.
Variable disk_free : string -> option Z.
Variable stop : nat -> bool.

Lemma select_loop_trace (mode : errors_mode) (encodings : list string)
    (sample : bytes) (best : string) (best_score : spec_float) (st : pstate) :
  trace (select_loop stop mode encodings sample best best_score st).2 = trace st.
Proof.
  revert best best_score st.
  induction encodings as [|enc rest IH]; intros best best_score st; simpl.
  - reflexivity.
  - destruct (stop (polls st)); simpl; [reflexivity|].
    destruct (bytes_decode enc mode sample) as [decoded|].
    + destruct (b64_ltb best_score (sample_score decoded)); rewrite IH; reflexivity.
    + rewrite IH. reflexivity.
Qed.

Lemma detect_by_chardet_reads (path : string) (st : pstate) :
  reads_only st (detect_by_chardet fs stop path st).2.
Proof.
  unfold detect_by_chardet. destruct (fs !! path) as [data|].
  - destruct (b64_ltb _ _).
    + eapply reads_only_trans; [apply reads_only_read|].
      apply reads_only_same_trace. apply select_loop_trace.
    + apply reads_only_read.
  - apply reads_only_refl.
Qed.

Lemma detect_encoding_reads (path : string) (st : pstate) :
  reads_only st (detect_encoding fs stop path st).2.
Proof.
  unfold detect_encoding. destruct (fs !! path) as [data|] eqn:Hf.
  - destruct (match_bom _ _).
    + apply reads_only_read.
    + eapply reads_only_trans; [apply reads_only_read|].
      apply detect_by_chardet_reads.
  - apply detect_by_chardet_reads.
Qed.

(** Detection reads the first four bytes of a file that can be opened. *)
Lemma detect_encoding_reads_header (path : string) (data : bytes) (st : pstate) :
  fs !! path = Some data ->
  ReadBinary path (N.of_nat (length (read_prefix 4 data)))
    ∈ trace (detect_encoding fs stop path st).2.
Proof.
  intros Hf. unfold detect_encoding. rewrite Hf.
  destruct (match_bom _ _).
  - simpl. left.
  - eapply reads_only_elem; [apply detect_by_chardet_reads|]. simpl. left.
Qed.

Lemma count_lines_loop_reads (path : string) (chunks : list bytes) (lines : N)
    (st : pstate) :
  reads_only st (count_lines_loop stop path chunks lines st).2.
Proof.
  revert lines st. induction chunks as [|buf rest IH]; intros lines st; simpl.
  - apply reads_only_read.
  - destruct (stop (polls st)); simpl.
    + exists [ReadBinary path (N.of_nat (length buf))]. split; reflexivity.
    + eapply reads_only_trans; [|apply IH].
      exists [ReadBinary path (N.of_nat (length buf))]. split; reflexivity.
Qed.

Lemma count_lines_reads (path : string) (st : pstate) :
  reads_only st (count_lines fs stop path st).2.
Proof.
  unfold count_lines. destruct (fs !! path).
  - apply count_lines_loop_reads.
  - apply reads_only_refl.
Qed.

(** C1, as the code has it. When less than 100 MiB are free, the file
    can be opened and the stop flag is clear on entry, [process_log]
    returns the insufficient-disk-space error with no record. The file is
    not opened for line extraction, but it has been read before the
    check: the run ends in the state encoding detection and line counting
    leave, they add binary reads only, and the read of the header is
    among them. *)
Theorem process_log_disk_check (path : string) (data : bytes) (free : Z)
    (st : pstate) :
  stop (polls st) = false ->
  fs !! path = Some data ->
  disk_free (dirname path) = Some free ->
  (free < min_free_bytes)%Z ->
  let st0 := (poll stop st).2 in
  let st1 := (detect_encoding fs stop path st0).2 in
  let st2 := (count_lines fs stop path st1).2 in
  process_log fs disk_free stop path st
    = (Returned path [] (Some (MsgDiskSpace free)), st2) /\
  reads_only st st2 /\
  ReadBinary path (N.of_nat (length (read_prefix 4 data))) ∈ trace st2.
Proof.
  intros Hstop Hf Hfree Hlt st0 st1 st2. split; [|split].
  - unfold process_log, poll. rewrite Hstop.
    change {| polls := S (polls st); trace := trace st |} with st0.
    subst st2 st1. generalize st0. intros s0.
    destruct (detect_encoding fs stop path s0) as [enc s1].
    rewrite Hf. simpl.
    destruct (count_lines fs stop path s1) as [n s2].
    unfold extract_records. rewrite Hfree.
    apply Z.ltb_lt in Hlt. rewrite Hlt. reflexivity.
  - eapply reads_only_trans; [apply reads_only_same_trace; reflexivity|].
    eapply reads_only_trans; [apply (detect_encoding_reads path st0)|].
    apply count_lines_reads.
  - eapply reads_only_elem; [apply count_lines_reads|].
    apply detect_encoding_reads_header. exact Hf.
Qed.

(** ** The primary extraction loop *)

Lemma garbled_cons (line : str) (lines : list str) :
  garbled (line :: lines) =
    (if has_replacement line then 1 else 0) + garbled lines.
Proof.
  unfold garbled. rewrite filter_cons.
  destruct (decide (has_replacement line = true)) as [-> | Hn].
  - simpl length. lia.
  - destruct (has_replacement line); [congruence | lia].
Qed.

(** The loop runs through [before] and leaves at the poll of the next
    line when that poll sees the stop flag. *)
Lemma primary_loop_stopped (before : list str) (line : str) (after : list str)
    (chat_records : list str) (line_errors : N) (st : pstate) :
  (forall i, (i < length before)%nat -> stop (polls st + i) = false) ->
  line_errors + garbled before <= 100 ->
  stop (polls st + length before) = true ->
  primary_loop stop (before ++ line :: after) chat_records line_errors st
    = (LoopStopped,
       {| polls := S (polls st + length before); trace := trace st |}).
Proof.
  revert chat_records line_errors st.
  induction before as [|l before IH]; intros chat_records line_errors st Hrun Herr Hstop.
  - simpl in *. rewrite Nat.add_0_r in *. rewrite Hstop. reflexivity.
  - simpl app. cbn [primary_loop poll].
    rewrite <- (Nat.add_0_r (polls st)) at 1.
    rewrite (Hrun 0%nat) by (simpl; lia).
    rewrite garbled_cons in Herr.
    set (st1 := {| polls := S (polls st); trace := trace st |}).
    assert (Hrun' : forall i, (i < length before)%nat -> stop (polls st1 + i) = false).
    { intros i Hi. replace (polls st1 + i)%nat with (polls st + S i)%nat by (simpl; lia).
      apply Hrun. simpl. lia. }
    assert (Hstop' : stop (polls st1 + length before) = true).
    { replace (polls st1 + length before)%nat
        with (polls st + length (l :: before))%nat by (simpl; lia).
      exact Hstop. }
    destruct (has_replacement l).
    + assert ((100 <? line_errors + 1) = false) as -> by (apply N.ltb_ge; lia).
      rewrite IH; [|assumption|lia|assumption].
      simpl. do 2 f_equal. lia.
    + rewrite IH; [|assumption|lia|assumption].
      simpl. do 2 f_equal. lia.
Qed.
End ProcessorFacts.

(** ** try_backup_encodings *)

Section BackupFacts.
Context {rt : Runtime}.
Variable fs : gmap string bytes.
Variable stop : nat -> bool.

Lemma backup_pass_loop_never (lines : list str) (chat_records : list str)
    (line_errors : N) (st : pstate) :
  never_stopped stop ->
  line_errors <= 50 ->
  (backup_pass_loop stop lines chat_records line_errors st).1 =
    if 50 <? line_errors + garbled lines then PassRaised
    else PassFinished
           (fold_left (fun recs line => scan_prefixes prefixes line recs)
              lines chat_records).
Proof.
  intros Hn. revert chat_records line_errors st.
  induction lines as [|l lines IH]; intros chat_records line_errors st Hle.
  - change (garbled []) with 0. rewrite N.add_0_r.
    destruct (50 <? line_errors) eqn:E; [apply N.ltb_lt in E; lia | reflexivity].
  - cbn [backup_pass_loop poll]. rewrite Hn, garbled_cons.
    destruct (has_replacement l).
    + destruct (50 <? line_errors + 1) eqn:E.
      * apply N.ltb_lt in E.
        assert ((50 <? line_errors + (1 + garbled lines)) = true) as ->
          by (apply N.ltb_lt; lia).
        reflexivity.
      * apply N.ltb_ge in E. rewrite IH by lia.
        replace (line_errors + 1 + garbled lines)
          with (line_errors + (1 + garbled lines)) by lia.
        reflexivity.
    + rewrite IH by lia. reflexivity.
Qed.

Lemma backup_pass_never (path encoding : string) (data : bytes) (st : pstate) :
  never_stopped stop ->
  fs !! path = Some data ->
  (backup_pass fs stop path encoding st).1 = candidate_records encoding data.
Proof.
  intros Hn Hf. unfold backup_pass, candidate_records. rewrite Hf.
  pose proof (backup_pass_loop_never (ts_lines (text_lines encoding data)) [] 0
                (record_event (OpenText path encoding) st) Hn) as Hloop.
  destruct (backup_pass_loop _ _ _ _ _) as [exit st2]. simpl in Hloop.
  rewrite Hloop by lia. rewrite N.add_0_l.
  destruct (50 <? garbled _); [reflexivity|].
  unfold chat_lines. destruct (ts_end _); reflexivity.
Qed.

(** Whatever the stop flag does, the best record list is as long as the
    record list of every candidate that reached the comparison. *)
Lemma backup_loop_longest (path : string) (encodings : list string)
    (best : backup_state) (st : pstate) :
  (forall e recs, (e, Some recs) ∈ attempts best ->
                  (length recs <= length (best_records best))%nat) ->
  forall e recs,
    (e, Some recs) ∈ attempts (backup_loop fs stop path encodings best st).1 ->
    (length recs <= length (best_records (backup_loop fs stop path encodings best st).1))%nat.
Proof.
  revert best st. induction encodings as [|enc rest IH]; intros best st Hbest.
  - simpl. exact Hbest.
  - cbn [backup_loop poll]. destruct (stop (polls st)); [exact Hbest|].
    destruct (backup_pass fs stop path enc _) as [[chat_records|] st2].
    + destruct (length (best_records best) <? length chat_records)%nat eqn:E.
      * apply IH. simpl. intros e recs He.
        apply Nat.ltb_lt in E.
        apply elem_of_app in He as [He | He].
        -- specialize (Hbest e recs He). lia.
        -- apply list_elem_of_singleton in He. injection He as _ ->. lia.
      * apply IH. simpl. intros e recs He.
        apply Nat.ltb_ge in E.
        apply elem_of_app in He as [He | He].
        -- apply (Hbest e). exact He.
        -- apply list_elem_of_singleton in He. injection He as _ ->. exact E.
    + apply IH. simpl. intros e recs He.
      apply elem_of_app in He as [He | He].
      * apply (Hbest e). exact He.
      * apply list_elem_of_singleton in He. discriminate.
Qed.

(** With the stop flag never set the loop tries every candidate, in
    order, and ends with the first of the longest record lists that is
    longer than the one it started with. *)
Lemma backup_loop_never (path : string) (data : bytes)
    (encodings : list string) (best : backup_state) (st : pstate) :
  never_stopped stop ->
  fs !! path = Some data ->
  let final := (backup_loop fs stop path encodings best st).1 in
  attempts final =
    attempts best ++ map (fun e => (e, candidate_records e data)) encodings /\
  ((best_records final = best_records best /\
    forall e recs, e ∈ encodings -> candidate_records e data = Some recs ->
                   (length recs <= length (best_records best))%nat)
   \/
   (exists i e,
       encodings !! i = Some e /\
       candidate_records e data = Some (best_records final) /\
       (length (best_records best) < length (best_records final))%nat /\
       (forall j e' recs, encodings !! j = Some e' ->
                          candidate_records e' data = Some recs ->
                          (length recs <= length (best_records final))%nat) /\
       (forall j e' recs, (j < i)%nat -> encodings !! j = Some e' ->
                          candidate_records e' data = Some recs ->
                          (length recs < length (best_records final))%nat))).
Proof.
  intros Hn Hf. revert best st.
  induction encodings as [|enc rest IH]; intros best st; simpl.
  - split; [rewrite app_nil_r; reflexivity|]. left. split; [reflexivity|].
    intros e recs He. inversion He.
  - rewrite Hn.
    pose proof (backup_pass_never path enc data
                  {| polls := S (polls st); trace := trace st |} Hn Hf) as Hpass.
    destruct (backup_pass fs stop path enc _) as [result st2]. simpl in Hpass.
    subst result.
    destruct (candidate_records enc data) as [chat_records|] eqn:Hc.
    + destruct (length (best_records best) <? length chat_records)%nat eqn:E.
      * apply Nat.ltb_lt in E.
        match goal with |- context [backup_loop fs stop path rest ?b st2] =>
          destruct (IH b st2) as [Hatt Hcases] end.
        simpl in Hatt, Hcases. split.
        { rewrite Hatt, <- app_assoc. reflexivity. }
        right. destruct Hcases as [[Hsame Hall] | (i & e & Hi & He & Hlt & Hmax & Hfirst)].
        -- exists 0%nat, enc. rewrite Hsame. simpl.
           repeat split; try assumption.
           ++ intros [|j] e' recs Hj Hrecs; simpl in Hj.
              ** injection Hj as <-. rewrite Hc in Hrecs. injection Hrecs as <-. lia.
              ** apply (Hall e' recs); [|assumption].
                 eapply list_elem_of_lookup_2. exact Hj.
           ++ intros j e' recs Hj. lia.
        -- exists (S i), e. simpl. repeat split; try assumption.
           ++ lia.
           ++ intros [|j] e' recs Hj Hrecs; simpl in Hj.
              ** injection Hj as <-. rewrite Hc in Hrecs. injection Hrecs as <-. lia.
              ** apply (Hmax j e' recs); assumption.
           ++ intros [|j] e' recs Hlt' Hj Hrecs; simpl in Hj.
              ** injection Hj as <-. rewrite Hc in Hrecs. injection Hrecs as <-. lia.
              ** apply (Hfirst j e' recs); [lia|assumption..].
      * apply Nat.ltb_ge in E.
        match goal with |- context [backup_loop fs stop path rest ?b st2] =>
          destruct (IH b st2) as [Hatt Hcases] end.
        simpl in Hatt, Hcases. split.
        { rewrite Hatt, <- app_assoc. reflexivity. }
        destruct Hcases as [[Hsame Hall] | (i & e & Hi & He & Hlt & Hmax & Hfirst)].
        -- left. split; [assumption|]. intros e recs He Hrecs.
           apply elem_of_cons in He as [-> | He].
           ++ rewrite Hc in Hrecs. injection Hrecs as <-. exact E.
           ++ apply (Hall e recs); assumption.
        -- right. exists (S i), e. simpl. repeat split; try assumption.
           ++ intros [|j] e' recs Hj Hrecs; simpl in Hj.
              ** injection Hj as <-. rewrite Hc in Hrecs. injection Hrecs as <-. lia.
              ** apply (Hmax j e' recs); assumption.
           ++ intros [|j] e' recs Hlt' Hj Hrecs; simpl in Hj.
              ** injection Hj as <-. rewrite Hc in Hrecs. injection Hrecs as <-. lia.
              ** apply (Hfirst j e' recs); [lia|assumption..].
    + match goal with |- context [backup_loop fs stop path rest ?b st2] =>
        destruct (IH b st2) as [Hatt Hcases] end.
      simpl in Hatt, Hcases. split.
      { rewrite Hatt, <- app_assoc. reflexivity. }
      destruct Hcases as [[Hsame Hall] | (i & e & Hi & He & Hlt & Hmax & Hfirst)].
      * left. split; [assumption|]. intros e recs He Hrecs.
        apply elem_of_cons in He as [-> | He].
        -- rewrite Hc in Hrecs. discriminate.
        -- apply (Hall e recs); assumption.
      * right. exists (S i), e. simpl. repeat split; try assumption.
        -- intros [|j] e' recs Hj Hrecs; simpl in Hj.
           ++ injection Hj as <-. rewrite Hc in Hrecs. discriminate.
           ++ apply (Hmax j e' recs); assumption.
        -- intros [|j] e' recs Hlt' Hj Hrecs; simpl in Hj.
           ++ injection Hj as <-. rewrite Hc in Hrecs. discriminate.
           ++ apply (Hfirst j e' recs); [lia|assumption..].
Qed.
End BackupFacts.

Section BackupTheorems.
Context {rt : Runtime}.
Variable fs : gmap string bytes.
Variable stop : nat -> bool.

Lemma try_backup_encodings_running (path : string) (data : bytes) (st : pstate) :
  stop (polls st) = false ->
  fs !! path = Some data ->
  try_backup_encodings fs stop path st =
    let (best, st2) :=
      backup_loop fs stop path backup_encodings no_best (poll stop st).2 in
    (backup_result path best, st2).
Proof.
  intros Hstop Hf. unfold try_backup_encodings, poll.
  rewrite Hstop, Hf. reflexivity.
Qed.

Lemma backup_attempts_eq (path : string) (st : pstate) :
  stop (polls st) = false ->
  backup_attempts fs stop path st =
    attempts (backup_loop fs stop path backup_encodings no_best (poll stop st).2).1.
Proof. intros Hstop. unfold backup_attempts. rewrite Hstop. reflexivity. Qed.

Lemma backup_attempts_stopped (path : string) (st : pstate) :
  stop (polls st) = true -> backup_attempts fs stop path st = [].
Proof. intros Hstop. unfold backup_attempts. rewrite Hstop. reflexivity. Qed.

(** C6. Whenever [try_backup_encodings] returns, its record list is at
    least as long as the record list of every candidate it tried. When the
    stop flag is never set it tries the whole fallback list in order, each
    candidate under the threshold of 50 garbled lines
    ([candidate_records]); it fails with the all-encodings-failed error
    when no candidate yields a record, and otherwise returns, without
    error, the records of the first candidate among those with the most
    records. *)
Theorem fallback_picks_longest (path : string) (st : pstate) :
  (forall p records error st' e recs,
      try_backup_encodings fs stop path st = (Returned p records error, st') ->
      (e, Some recs) ∈ backup_attempts fs stop path st ->
      (length recs <= length records)%nat) /\
  (forall data,
      never_stopped stop ->
      fs !! path = Some data ->
      backup_attempts fs stop path st
        = map (fun e => (e, candidate_records e data)) backup_encodings /\
      ((forall e recs, e ∈ backup_encodings ->
                       candidate_records e data = Some recs -> recs = []) ->
       (try_backup_encodings fs stop path st).1
         = Returned path [] (Some MsgAllBackupFailed)) /\
      ((exists e recs, e ∈ backup_encodings /\
                       candidate_records e data = Some recs /\ recs <> []) ->
       exists i e records,
         backup_encodings !! i = Some e /\
         candidate_records e data = Some records /\ records <> [] /\
         (try_backup_encodings fs stop path st).1 = Returned path records None /\
         (forall j e' recs, backup_encodings !! j = Some e' ->
                            candidate_records e' data = Some recs ->
                            (length recs <= length records)%nat) /\
         (forall j e' recs, (j < i)%nat -> backup_encodings !! j = Some e' ->
                            candidate_records e' data = Some recs ->
                            (length recs < length records)%nat))).
Proof.
  split.
  - intros p records error st' e recs Hret He.
    destruct (stop (polls st)) eqn:Hstop.
    { rewrite (backup_attempts_stopped path st Hstop) in He. inversion He. }
    destruct (fs !! path) as [data|] eqn:Hf.
    + rewrite (try_backup_encodings_running path data st Hstop Hf) in Hret.
      rewrite (backup_attempts_eq path st Hstop) in He.
      pose proof (backup_loop_longest fs stop path backup_encodings no_best
                    (poll stop st).2) as Hmax.
      remember (backup_loop fs stop path backup_encodings no_best (poll stop st).2)
        as final eqn:Hfinal.
      clear Hfinal. destruct final as [best st2].
      cbn [fst] in He, Hmax.
      assert (records = best_records best) as ->.
      { unfold backup_result in Hret.
        destruct (best_records best); injection Hret as _ <- _ _; reflexivity. }
      apply (Hmax ltac:(intros e0 r0 H0; inversion H0) e recs He).
    + unfold try_backup_encodings, poll in Hret.
      rewrite Hstop, Hf in Hret. discriminate.
  - intros data Hn Hf.
    pose proof (backup_loop_never fs stop path data backup_encodings no_best
                  (poll stop st).2 Hn Hf) as [Hatt Hcases].
    rewrite (backup_attempts_eq path st (Hn _)). split; [exact Hatt|].
    rewrite (try_backup_encodings_running path data st (Hn _) Hf).
    remember (backup_loop fs stop path backup_encodings no_best (poll stop st).2)
      as final eqn:Hfinal.
    clear Hfinal. destruct final as [best st2]. cbn [fst] in Hcases |- *.
    unfold backup_result.
    destruct Hcases as [[Hsame Hall] | (i & e & Hi & He & Hlt & Hmax & Hfirst)].
    + rewrite Hsame. split; [reflexivity|].
      intros (e & recs & He & Hrecs & Hne). exfalso.
      specialize (Hall e recs He Hrecs). destruct recs; [congruence | simpl in Hall; lia].
    + destruct (best_records best) as [|r records] eqn:Hb; [simpl in Hlt; lia|].
      split.
      * intros Hnone. specialize (Hnone e _ (list_elem_of_lookup_2 _ _ _ Hi) He).
        discriminate.
      * intros _. exists i, e, (r :: records).
        repeat split; try assumption. discriminate.
Qed.

Lemma backup_loop_app (path : string) (done rest : list string)
    (best : backup_state) (st : pstate) :
  broke best = false ->
  backup_loop fs stop path (done ++ rest) best st =
    let (best1, st1) := backup_loop fs stop path done best st in
    if broke best1 then (best1, st1) else backup_loop fs stop path rest best1 st1.
Proof.
  revert best st. induction done as [|enc done IH]; intros best st Hb.
  - simpl. rewrite Hb. reflexivity.
  - simpl app. cbn [backup_loop poll].
    destruct (stop (polls st)); [reflexivity|].
    destruct (backup_pass fs stop path enc _) as [[chat_records|] st2].
    + destruct (length (best_records best) <? length chat_records)%nat;
        apply IH; reflexivity.
    + apply IH. reflexivity.
Qed.

(** C10. When a call of [try_backup_encodings] that was not stopped on
    entry has run through the candidates [done], holds a non-empty best
    record list, and the poll before the next candidate sees the stop
    flag, it returns that record list with no error. *)
Theorem cancelled_fallback_returns_best (path : string) (data : bytes)
    (st : pstate) (done : list string) (enc : string) (rest : list string)
    (best : backup_state) (st1 : pstate) :
  stop (polls st) = false ->
  fs !! path = Some data ->
  backup_encodings = done ++ enc :: rest ->
  backup_loop fs stop path done no_best (poll stop st).2 = (best, st1) ->
  broke best = false ->
  best_records best <> [] ->
  stop (polls st1) = true ->
  try_backup_encodings fs stop path st
    = (Returned path (best_records best) None, (poll stop st1).2).
Proof.
  intros Hstop Hf Hsplit Hdone Hb Hne Hst1.
  rewrite (try_backup_encodings_running path data st Hstop Hf).
  rewrite Hsplit, backup_loop_app by reflexivity.
  rewrite Hdone, Hb. cbn [backup_loop poll]. rewrite Hst1.
  unfold backup_result.
  destruct (best_records best); [congruence | reflexivity].
Qed.
End BackupTheorems.

(** ** Deduplication *)

Section DedupFacts.
Context {A : Type} `{Countable A}.

Lemma dedup_loop_acc (records : list A) (seen : gset A) (acc : list A) :
  dedup_loop records seen acc = acc ++ dedup_loop records seen [].
Proof.
  revert seen acc. induction records as [|r rest IH]; intros seen acc; simpl.
  - rewrite app_nil_r. reflexivity.
  - destruct (decide (r ∈ seen)).
    + apply IH.
    + rewrite (IH _ (acc ++ [r])), (IH _ [r]), <- app_assoc. reflexivity.
Qed.

Lemma dedup_loop_cons (r : A) (rest : list A) (seen : gset A) :
  dedup_loop (r :: rest) seen [] =
    if decide (r ∈ seen) then dedup_loop rest seen []
    else r :: dedup_loop rest ({[r]} ∪ seen) [].
Proof.
  simpl. destruct (decide (r ∈ seen)); [reflexivity|].
  rewrite dedup_loop_acc. reflexivity.
Qed.

Lemma dedup_loop_elem (x : A) (records : list A) (seen : gset A) :
  x ∈ dedup_loop records seen [] <-> x ∈ records /\ x ∉ seen.
Proof.
  revert seen. induction records as [|r rest IH]; intros seen.
  - simpl. split; [intros Hx; inversion Hx | intros [Hx _]; inversion Hx].
  - rewrite dedup_loop_cons. destruct (decide (r ∈ seen)) as [Hr|Hr].
    + rewrite IH, elem_of_cons. split; [tauto|].
      intros [[-> | Hx] Hn]; [contradiction | tauto].
    + rewrite !elem_of_cons, IH. split.
      * intros [-> | [Hx Hn]]; [tauto|]. split; [tauto|].
        intros Hs. apply Hn. apply elem_of_union. tauto.
      * intros [[-> | Hx] Hn]; [tauto|].
        destruct (decide (x = r)) as [-> | Hne]; [tauto|].
        right. split; [assumption|].
        rewrite elem_of_union, elem_of_singleton. tauto.
Qed.

Lemma dedup_loop_NoDup (records : list A) (seen : gset A) :
  NoDup (dedup_loop records seen []).
Proof.
  revert seen. induction records as [|r rest IH]; intros seen.
  - constructor.
  - rewrite dedup_loop_cons. destruct (decide (r ∈ seen)); [apply IH|].
    constructor; [|apply IH]. rewrite dedup_loop_elem.
    rewrite elem_of_union, elem_of_singleton. tauto.
Qed.

Lemma dedup_loop_sublist (records : list A) (seen : gset A) :
  dedup_loop records seen [] `sublist_of` records.
Proof.
  revert seen. induction records as [|r rest IH]; intros seen.
  - constructor.
  - rewrite dedup_loop_cons. destruct (decide (r ∈ seen)).
    + apply sublist_cons. apply IH.
    + apply sublist_skip. apply IH.
Qed.

Lemma dedup_loop_idem (records : list A) (seen : gset A) :
  dedup_loop (dedup_loop records seen []) seen [] = dedup_loop records seen [].
Proof.
  revert seen. induction records as [|r rest IH]; intros seen.
  - reflexivity.
  - rewrite dedup_loop_cons. destruct (decide (r ∈ seen)) as [Hr|Hr]; [apply IH|].
    rewrite dedup_loop_cons. rewrite decide_False by assumption.
    rewrite IH. reflexivity.
Qed.

Lemma dedup_loop_snoc (pre : list A) (x : A) (seen : gset A) :
  dedup_loop (pre ++ [x]) seen [] =
    dedup_loop pre seen [] ++
    (if decide (x ∈ pre \/ x ∈ seen) then [] else [x]).
Proof.
  revert seen. induction pre as [|r rest IH]; intros seen.
  - simpl. destruct (decide (x ∈ seen)) as [Hx|Hx].
    + rewrite decide_True by tauto. reflexivity.
    + rewrite decide_False; [reflexivity|].
      intros [Hin | Hin]; [inversion Hin | contradiction].
  - change ((r :: rest) ++ [x]) with (r :: (rest ++ [x])).
    rewrite !dedup_loop_cons. destruct (decide (r ∈ seen)) as [Hr|Hr].
    + rewrite IH. f_equal.
      destruct (decide (x ∈ rest \/ x ∈ seen)) as [Hd|Hd].
      * rewrite decide_True; [reflexivity|]. rewrite elem_of_cons. tauto.
      * rewrite decide_False; [reflexivity|]. rewrite elem_of_cons.
        intros [[-> | Hin] | Hin]; tauto.
    + rewrite IH. simpl. f_equal. f_equal.
      destruct (decide (x ∈ rest \/ x ∈ {[r]} ∪ seen)) as [Hd|Hd].
      * rewrite decide_True; [reflexivity|].
        rewrite elem_of_union, elem_of_singleton in Hd. rewrite elem_of_cons. tauto.
      * rewrite decide_False; [reflexivity|].
        rewrite elem_of_union, elem_of_singleton in Hd. rewrite elem_of_cons. tauto.
Qed.

(** C7. Deduplicating a deduplicated record list changes nothing. *)
Theorem deduplicate_idempotent (records : list A) :
  deduplicate (deduplicate records) = deduplicate records.
Proof. apply dedup_loop_idem. Qed.

(** C8. The deduplicated list is a subsequence of the input, holds every
    record of the input, none twice, and keeps a record exactly where it
    occurs first: a record put after [pre] is kept if and only if it does
    not occur in [pre]. *)
Theorem deduplicate_first_occurrences (records : list A) :
  deduplicate records `sublist_of` records /\
  NoDup (deduplicate records) /\
  (forall x, x ∈ deduplicate records <-> x ∈ records) /\
  (forall (pre : list A) (x : A),
      deduplicate (pre ++ [x]) =
        deduplicate pre ++ (if decide (x ∈ pre) then [] else [x])).
Proof.
  unfold deduplicate. repeat split.
  - apply dedup_loop_sublist.
  - apply dedup_loop_NoDup.
  - intros Hx. apply dedup_loop_elem in Hx. tauto.
  - intros Hx. apply dedup_loop_elem. split; [assumption | apply not_elem_of_empty].
  - intros pre x. rewrite dedup_loop_snoc. f_equal.
    destruct (decide (x ∈ pre)) as [Hx|Hx].
    + rewrite decide_True by tauto. reflexivity.
    + rewrite decide_False; [reflexivity|].
      intros [Hin | Hin]; [contradiction | exact (not_elem_of_empty x Hin)].
Qed.
End DedupFacts.

(** ** Paths *)

Lemma chars_of_append (a b : string) :
  chars_of (a +:+ b) = chars_of a ++ chars_of b.
Proof.
  unfold chars_of. induction a as [|c a IH]; simpl; [reflexivity|].
  rewrite IH. reflexivity.
Qed.

Lemma until_slash_plain (name rest : list ascii) :
  forallb (fun c => negb (is_slash c)) name = true ->
  until_slash (name ++ rest) = name ++ until_slash rest.
Proof.
  induction name as [|c name IH]; simpl; [reflexivity|].
  intros Hc. apply andb_true_iff in Hc as [Hc Hname].
  destruct (is_slash c); [discriminate|]. rewrite IH by assumption. reflexivity.
Qed.

Lemma forallb_rev {X} (f : X -> bool) (l : list X) :
  forallb f (rev l) = forallb f l.
Proof.
  induction l as [|x l IH]; simpl; [reflexivity|].
  rewrite forallb_app, IH. simpl. rewrite andb_true_r. apply andb_comm.
Qed.

Lemma basename_of_chars (dir name : list ascii) :
  forallb (fun c => negb (is_slash c)) name = true ->
  until_slash (rev dir) = [] ->
  basename (string_of (dir ++ name)) = string_of name.
Proof.
  intros Hname Hdir. unfold basename, chars_of, string_of.
  rewrite list_ascii_of_string_of_list_ascii, rev_app_distr.
  rewrite until_slash_plain by (rewrite forallb_rev; exact Hname).
  rewrite Hdir, app_nil_r, rev_involutive. reflexivity.
Qed.

Lemma string_endswith_slash (d : string) :
  string_endswith d "/" = true -> until_slash (rev (chars_of d)) = [].
Proof.
  unfold string_endswith. intros Hd. apply bool_decide_eq_true in Hd.
  change (chars_of "/") with [slash] in Hd. simpl length in Hd.
  rewrite <- (take_drop (length (chars_of d) - 1) (chars_of d)), Hd.
  rewrite rev_app_distr. reflexivity.
Qed.

Lemma string_of_chars (s : string) : string_of (chars_of s) = s.
Proof. apply string_of_list_ascii_of_string. Qed.

(** Joining a directory and a name without "/" gives a path whose last
    component is the name. *)
Lemma basename_path_join (d name : string) :
  name <> ""%string ->
  forallb (fun c => negb (is_slash c)) (chars_of name) = true ->
  basename (path_join d name) = name.
Proof.
  intros Hne Hname. unfold path_join.
  destruct (chars_of name) as [|c cs] eqn:Hcs.
  { exfalso. apply Hne. rewrite <- (string_of_chars name), Hcs. reflexivity. }
  assert (Hc : is_slash c = false).
  { simpl in Hname. destruct (is_slash c); [discriminate | reflexivity]. }
  rewrite Hc. rewrite <- Hcs in Hname.
  transitivity (string_of (chars_of name)); [|apply string_of_chars].
  destruct (string_endswith d "/") eqn:Hend; simpl orb.
  - rewrite <- (string_of_chars (d +:+ name)), chars_of_append.
    apply basename_of_chars; [assumption|].
    apply string_endswith_slash. exact Hend.
  - destruct (bool_decide (d = ""%string)) eqn:Hempty.
    + apply bool_decide_eq_true in Hempty. subst d.
      change (("" +:+ name)%string) with name.
      rewrite <- (string_of_chars name) at 1.
      apply (basename_of_chars [] (chars_of name)); [assumption | reflexivity].
    + rewrite <- (string_of_chars (d +:+ "/" +:+ name)), !chars_of_append.
      change (chars_of "/") with [slash].
      rewrite app_assoc. apply basename_of_chars; [assumption|].
      rewrite rev_app_distr. reflexivity.
Qed.

Lemma append_empty (a b : string) : (a +:+ b)%string = ""%string -> b = ""%string.
Proof. destruct a; simpl; [tauto | discriminate]. Qed.

Lemma path_join_nonempty (d name : string) :
  name <> ""%string -> path_join d name <> ""%string.
Proof.
  intros Hne. unfold path_join.
  destruct (chars_of name) as [|c cs] eqn:Hcs.
  { exfalso. apply Hne. rewrite <- (string_of_chars name), Hcs. reflexivity. }
  destruct (is_slash c); [exact Hne|].
  destruct (_ || _); intros Hj; apply append_empty in Hj.
  - contradiction.
  - discriminate.
Qed.

(** ** Result stores *)

Lemma odict_get_set_eq {V} (k : string) (v : V) (d : odict V) :
  odict_get k (odict_set k v d) = Some v.
Proof.
  induction d as [|[k' v'] d IH]; simpl.
  - rewrite decide_True by reflexivity. reflexivity.
  - destruct (decide (k = k')) as [-> | Hne]; simpl.
    + rewrite decide_True by reflexivity. reflexivity.
    + rewrite decide_False by assumption. exact IH.
Qed.

Lemma odict_get_set_ne {V} (k k' : string) (v : V) (d : odict V) :
  k' <> k -> odict_get k' (odict_set k v d) = odict_get k' d.
Proof.
  intros Hne. induction d as [|[k0 v0] d IH]; simpl.
  - rewrite decide_False by assumption. reflexivity.
  - destruct (decide (k = k0)) as [-> | Hk]; simpl.
    + rewrite !decide_False by assumption. reflexivity.
    + destruct (decide (k' = k0)); [reflexivity | exact IH].
Qed.

Lemma archive_name_truthy (gz_path : string) :
  is_archive_name gz_path = true -> truthy_archive (Some gz_path) = Some gz_path.
Proof.
  intros Harch. unfold truthy_archive.
  destruct (bool_decide (gz_path = ""%string)) eqn:E; [|reflexivity].
  apply bool_decide_eq_true in E. subst gz_path. discriminate Harch.
Qed.

(** ** The worker *)

Section WorkerFacts.
Context {rt : Runtime}.
Variable disk_free : string -> option Z.
Variable stop : nat -> bool.

Lemma process_log_running (fs : gmap string bytes) (path : string)
    (data : bytes) (st : pstate) :
  stop (polls st) = false ->
  fs !! path = Some data ->
  process_log fs disk_free stop path st =
    extract_records fs disk_free stop path
      (detect_encoding fs stop path (poll stop st).2).1 data
      (count_lines fs stop path (detect_encoding fs stop path (poll stop st).2).2).2.
Proof.
  intros Hstop Hf. unfold process_log, poll. rewrite Hstop. cbn [snd].
  generalize {| polls := S (polls st); trace := trace st |}. intros s0.
  destruct (detect_encoding fs stop path s0) as [enc s1]. rewrite Hf. cbn [fst snd].
  destruct (count_lines fs stop path s1) as [n s2]. reflexivity.
Qed.

(** C2, as the code has it. A run of [process_log] that passes the disk
    check and reads the stop flag as set at the poll of a line, after the
    lines [before], returns at once: no record, the stopped message as
    its error value, and no further I/O. The worker stores that result
    like any other error, with status failed. *)
Theorem stopped_extraction_is_recorded_failed (a : app_state) (path : string)
    (source_archive : option string) (data : bytes) (free : Z)
    (before : list str) (line : str) (after : list str) :
  let fs := files a in
  let st := processor a in
  let detected := detect_encoding fs stop path (poll stop st).2 in
  let st2 := (count_lines fs stop path detected.2).2 in
  stop (polls st) = false ->
  fs !! path = Some data ->
  disk_free (dirname path) = Some free ->
  (min_free_bytes <= free)%Z ->
  ts_lines (text_lines detected.1 data) = before ++ line :: after ->
  (forall i, (i < length before)%nat -> stop (polls st2 + i) = false) ->
  garbled before <= 100 ->
  stop (polls st2 + length before) = true ->
  process_log fs disk_free stop path st
    = (Returned path [] (Some MsgStopped),
       {| polls := S (polls st2 + length before);
          trace := OpenText path detected.1 :: trace st2 |}) /\
  results (worker_task disk_free stop (Process path source_archive) a) !! path
    = Some {| r_records := []; r_error := Some MsgStopped;
              r_status := StatusFailed; r_source_archive := source_archive |}.
Proof.
  intros fs st detected st2 Hstop Hf Hfree Hge Hlines Hrun Herr Hstopped.
  assert (Hlog : process_log fs disk_free stop path st
                 = (Returned path [] (Some MsgStopped),
                    {| polls := S (polls st2 + length before);
                       trace := OpenText path detected.1 :: trace st2 |})).
  { rewrite (process_log_running fs path data st Hstop Hf).
    fold detected. fold st2. unfold extract_records. rewrite Hfree.
    assert ((free <? min_free_bytes)%Z = false) as -> by (apply Z.ltb_ge; exact Hge).
    rewrite Hlines.
    rewrite (primary_loop_stopped stop before line after [] 0
               (record_event (OpenText path detected.1) st2));
      [reflexivity | exact Hrun | lia | exact Hstopped]. }
  split; [exact Hlog|].
  unfold worker_task. fold fs. fold st. rewrite Hlog.
  unfold store_result. cbn [results]. rewrite lookup_insert_eq. reflexivity.
Qed.

Lemma extract_gz_file_path (gz_path : string) (a a1 : app_state)
    (extracted : string) (error : option error_msg) :
  extract_gz_file disk_free gz_path a = ((Some extracted, error), a1) ->
  member_name gz_path <> ""%string /\
  exists dir,
    extracted = path_join (path_join dir (basename gz_path +:+ "_extracted"))
                  (member_name gz_path).
Proof.
  unfold extract_gz_file. intros Hex.
  destruct (disk_free (dirname gz_path)) as [free|]; [|discriminate].
  destruct (free <? min_free_bytes)%Z; [discriminate|].
  destruct (files a !! gz_path) as [compressed|]; [|discriminate].
  destruct (bool_decide (member_name gz_path = ""%string)) eqn:E; [discriminate|].
  apply bool_decide_eq_false in E.
  destruct (gunzip compressed); [|discriminate].
  injection Hex as <- _ _. split; [exact E|]. eexists. reflexivity.
Qed.

Lemma extract_gz_file_queue (gz_path : string) (a : app_state) :
  task_queue (extract_gz_file disk_free gz_path a).2 = task_queue a.
Proof.
  unfold extract_gz_file. repeat case_match; reflexivity.
Qed.

(** C9. For a path the submitter queues as an archive: the submitter
    queues an Extract task for it, never a Process task; the only task
    its Extract task adds to the queue is a Process task for the
    extracted member that carries the archive's path; handling that task
    stores the member's records under the archive's path in
    [results_by_id], maps the member's path to the archive's path, keeps
    the archive's path in the result entry, and leaves the entry of the
    member's own path in [results_by_id] as it was. An archive named
    chat.log.gz is extracted to a member named chat.log. *)
Theorem archive_member_attribution (a : app_state) (gz_path : string) :
  is_archive_name gz_path = true ->
  (forall queue, enqueue_file gz_path queue = queue ++ [Extract gz_path]) /\
  (forall extracted error a1,
      extract_gz_file disk_free gz_path a = ((Some extracted, error), a1) ->
      task_queue (worker_task disk_free stop (Extract gz_path) a)
        = task_queue a ++ [Process extracted (Some gz_path)]) /\
  (forall t,
      t ∈ task_queue (worker_task disk_free stop (Extract gz_path) a) ->
      t ∈ task_queue a \/ exists extracted, t = Process extracted (Some gz_path)) /\
  (forall member p records error st,
      process_log (files a) disk_free stop member (processor a)
        = (Returned p records error, st) ->
      let a' := worker_task disk_free stop (Process member (Some gz_path)) a in
      results_by_id a' = odict_set gz_path records (results_by_id a) /\
      odict_get gz_path (results_by_id a') = Some records /\
      filepath_to_treeid a' = odict_set member gz_path (filepath_to_treeid a) /\
      results a' !! member
        = Some {| r_records := records; r_error := error;
                  r_status := status_of error;
                  r_source_archive := Some gz_path |} /\
      (member <> gz_path ->
       odict_get member (results_by_id a') = odict_get member (results_by_id a))) /\
  (basename gz_path = "chat.log.gz"%string ->
   member_name gz_path = "chat.log"%string /\
   forall extracted error a1,
     extract_gz_file disk_free gz_path a = ((Some extracted, error), a1) ->
     basename extracted = "chat.log"%string).
Proof.
  intros Harch. pose proof (archive_name_truthy gz_path Harch) as Htruthy.
  split; [|split; [|split; [|split]]].
  - intros queue. unfold enqueue_file. rewrite Harch. reflexivity.
  - intros extracted error a1 Hex. unfold worker_task. rewrite Hex.
    destruct (bool_decide (extracted = ""%string)) eqn:E.
    + exfalso. apply bool_decide_eq_true in E. subst extracted.
      apply extract_gz_file_path in Hex as [Hne [dir Hp]].
      symmetry in Hp. revert Hp. apply path_join_nonempty. exact Hne.
    + simpl. f_equal.
      pose proof (extract_gz_file_queue gz_path a) as Hq.
      rewrite Hex in Hq. exact Hq.
  - intros t. unfold worker_task.
    pose proof (extract_gz_file_queue gz_path a) as Hq.
    destruct (extract_gz_file disk_free gz_path a) as [[[extracted|] error] a1].
    + cbn [snd] in Hq. destruct (bool_decide (extracted = ""%string)).
      * rewrite Hq. tauto.
      * simpl. rewrite Hq, elem_of_app, list_elem_of_singleton.
        intros [Ht | ->]; [tauto|]. right. exists extracted. reflexivity.
    + cbn [snd] in Hq. rewrite Hq. tauto.
  - intros member p records error st Hlog a'. subst a'.
    unfold worker_task. rewrite Hlog. unfold store_result. rewrite Htruthy.
    cbn [results_by_id filepath_to_treeid results].
    repeat split.
    + apply odict_get_set_eq.
    + apply lookup_insert_eq.
    + intros Hne. apply odict_get_set_ne. exact Hne.
  - intros Hbase.
    assert (Hmember : member_name gz_path = "chat.log"%string).
    { unfold member_name. rewrite Hbase. reflexivity. }
    split; [exact Hmember|].
    intros extracted error a1 Hex.
    apply extract_gz_file_path in Hex as [_ [dir ->]].
    rewrite Hmember. apply basename_path_join; [discriminate | reflexivity].
Qed.
End WorkerFacts.

(** ** Byte-order marks *)

Lemma bytes_startswith_app (data bom more : bytes) :
  bytes_startswith data (bom ++ more) = true -> bytes_startswith data bom = true.
Proof.
  revert data. induction bom as [|b bom IH]; intros data; simpl; [reflexivity|].
  destruct data as [|d data]; [discriminate|].
  rewrite !andb_true_iff. intros [Hb Hrest]. split; [exact Hb | apply IH; exact Hrest].
Qed.

(** C4 does not hold for the UTF-32-LE mark. The table is searched in
    insertion order and the two-byte mark [FF FE] of UTF-16-LE comes before
    the four-byte mark [FF FE 00 00], so a file that starts with the
    UTF-32-LE mark is detected as utf-16-le, and a header never selects the
    table's utf-32-le entry. *)
Theorem utf32le_bom_detected_as_utf16le {rt : Runtime} (fs : gmap string bytes)
    (stop : nat -> bool) (path : string) (rest : bytes) (st : pstate) :
  (detect_encoding (<[path := xff :: xfe :: x00 :: x00 :: rest]> fs) stop path st).1
    = "utf-16-le"%string /\
  forall header, match_bom bom_encodings header <> Some "utf-32-le"%string.
Proof.
  split.
  - unfold detect_encoding. rewrite lookup_insert_eq.
    destruct rest; reflexivity.
  - intros header. unfold bom_encodings. cbn [match_bom].
    destruct (bytes_startswith header [xef; xbb; xbf]); [discriminate|].
    destruct (bytes_startswith header [xff; xfe]) eqn:E16; [discriminate|].
    destruct (bytes_startswith header [xfe; xff]); [discriminate|].
    destruct (bytes_startswith header [xff; xfe; x00; x00]) eqn:E32.
    + exfalso. apply (bytes_startswith_app header [xff; xfe] [x00; x00]) in E32.
      congruence.
    + destruct (bytes_startswith header [x00; x00; xfe; xff]); discriminate.
Qed.

(** ** Whole runs without cancellation *)

Lemma chunks_from_concat (n room : N) (cur data : bytes) :
  concat (chunks_from n room cur data) = rev cur ++ data.
Proof.
  revert room cur. induction data as [|b data IH]; intros room cur; simpl.
  - destruct cur as [|c cur]; simpl.
    + reflexivity.
    + rewrite !app_nil_r. reflexivity.
  - destruct (room =? 0); simpl; rewrite IH; simpl.
    + reflexivity.
    + rewrite <- app_assoc. reflexivity.
Qed.

Lemma file_chunks_concat (n : N) (data : bytes) :
  concat (file_chunks n data) = data.
Proof. unfold file_chunks. rewrite chunks_from_concat. reflexivity. Qed.

Lemma count_byte_app (b : byte) (l1 l2 : bytes) :
  count_byte b (l1 ++ l2) = count_byte b l1 + count_byte b l2.
Proof.
  unfold count_byte. induction l1 as [|c l1 IH].
  - reflexivity.
  - change ((c :: l1) ++ l2) with (c :: (l1 ++ l2)). rewrite !filter_cons.
    destruct (decide (Byte.eqb b c = true)); simpl length; lia.
Qed.

Lemma bytes_read_record (path : string) (n : N) (st : pstate) :
  bytes_read (record_event (ReadBinary path n) st) = n + bytes_read st.
Proof. reflexivity. Qed.

Section RunFacts.
Context {rt : Runtime}.
Variable fs : gmap string bytes.
Variable disk_free : string -> option Z.
Variable stop : nat -> bool.
Hypothesis not_stopped : never_stopped stop.

Lemma count_lines_loop_never (path : string) (chunks : list bytes) (lines : N)
    (st : pstate) :
  (count_lines_loop stop path chunks lines st).1
    = lines + count_byte byte_lf (concat chunks) /\
  bytes_read (count_lines_loop stop path chunks lines st).2
    = bytes_read st + N.of_nat (length (concat chunks)).
Proof.
  revert lines st. induction chunks as [|buf rest IH]; intros lines st.
  - simpl. split; [unfold count_byte; simpl; lia|].
    rewrite bytes_read_record. lia.
  - cbn [count_lines_loop poll]. rewrite not_stopped.
    destruct (IH (lines + count_byte byte_lf buf)
                {| polls := S (polls (record_event
                                   (ReadBinary path (N.of_nat (length buf))) st));
                   trace := trace (record_event
                                   (ReadBinary path (N.of_nat (length buf))) st) |})
      as [IH1 IH2].
    rewrite IH1, IH2. cbn [concat]. rewrite count_byte_app, length_app.
    split; [lia|].
    change (bytes_read _) with (N.of_nat (length buf) + bytes_read st) at 1. lia.
Qed.

(** Without cancellation [count_lines] counts the line feeds of the file
    and reads every byte of it. *)
Lemma count_lines_never (path : string) (data : bytes) (st : pstate) :
  fs !! path = Some data ->
  (count_lines fs stop path st).1 = count_byte byte_lf data /\
  bytes_read (count_lines fs stop path st).2
    = bytes_read st + N.of_nat (length data).
Proof.
  intros Hf. unfold count_lines. rewrite Hf.
  destruct (count_lines_loop_never path (file_chunks (1024 * 1024) data) 0 st)
    as [H1 H2].
  rewrite H1, H2, file_chunks_concat. split; [lia | reflexivity].
Qed.

Lemma primary_loop_never (lines : list str) (chat_records : list str)
    (line_errors : N) (st : pstate) :
  line_errors + garbled lines <= 100 ->
  primary_loop stop lines chat_records line_errors st =
    (LoopDone (fold_left (fun recs line => scan_prefixes prefixes line recs)
                 lines chat_records),
     {| polls := polls st + length lines; trace := trace st |}).
Proof.
  revert chat_records line_errors st.
  induction lines as [|l lines IH]; intros chat_records line_errors st Hle.
  - simpl. rewrite Nat.add_0_r. destruct st; reflexivity.
  - cbn [primary_loop poll]. rewrite not_stopped.
    rewrite garbled_cons in Hle.
    destruct (has_replacement l).
    + assert ((100 <? line_errors + 1) = false) as -> by (apply N.ltb_ge; lia).
      rewrite IH by lia. simpl. do 2 f_equal. lia.
    + rewrite IH by lia. simpl. do 2 f_equal. lia.
Qed.

(** A run that is not cancelled, has the disk space, and decodes the file
    with at most 100 garbled lines returns the chat lines of the file in
    order, with no error. *)
Lemma process_log_success (path : string) (data : bytes) (free : Z) (st : pstate) :
  fs !! path = Some data ->
  disk_free (dirname path) = Some free ->
  (min_free_bytes <= free)%Z ->
  let encoding := (detect_encoding fs stop path (poll stop st).2).1 in
  ts_end (text_lines encoding data) = AtEOF ->
  garbled (ts_lines (text_lines encoding data)) <= 100 ->
  (process_log fs disk_free stop path st).1
    = Returned path (chat_lines (ts_lines (text_lines encoding data))) None.
Proof.
  intros Hf Hfree Hge encoding Hend Hgarbled.
  rewrite (process_log_running disk_free stop fs path data st (not_stopped _) Hf).
  fold encoding. unfold extract_records. rewrite Hfree.
  assert ((free <? min_free_bytes)%Z = false) as -> by (apply Z.ltb_ge; exact Hge).
  rewrite primary_loop_never by lia. rewrite Hend. reflexivity.
Qed.
End RunFacts.

(** ** Trimming *)

Lemma lstrip_spec (s : str) :
  exists l, s = l ++ lstrip s /\ forallb isspace l = true /\
            forall c t, lstrip s = c :: t -> isspace c = false.
Proof.
  induction s as [|c s (l & Hs & Hl & Hhead)]; simpl.
  - exists []. repeat split. intros; discriminate.
  - destruct (isspace c) eqn:Hc.
    + exists (c :: l). simpl. rewrite Hc, Hl. repeat split; [|exact Hhead].
      f_equal. exact Hs.
    + exists []. repeat split. intros c' t Heq. injection Heq as <- _. exact Hc.
Qed.

Lemma lstrip_snoc (s : str) (c : char) :
  isspace c = false -> lstrip (s ++ [c]) = lstrip s ++ [c].
Proof.
  intros Hc. induction s as [|d s IH]; simpl.
  - rewrite Hc. reflexivity.
  - destruct (isspace d); [exact IH | reflexivity].
Qed.

(** [strip] removes whitespace, and only whitespace, from both ends: what
    is left neither starts nor ends with a whitespace character. *)
Lemma strip_spec (s : str) :
  exists l r,
    s = l ++ strip s ++ r /\
    forallb isspace l = true /\ forallb isspace r = true /\
    (forall c t, strip s = c :: t -> isspace c = false) /\
    (forall t c, strip s = t ++ [c] -> isspace c = false).
Proof.
  unfold strip, rstrip.
  destruct (lstrip_spec s) as (l & Hs & Hl & Hhead).
  destruct (lstrip_spec (rev (lstrip s))) as (r & Hr & Hrs & Hlast).
  exists l, (rev r). repeat split.
  - rewrite Hs at 1. f_equal.
    rewrite <- (rev_involutive (lstrip s)), Hr at 1.
    rewrite rev_app_distr. reflexivity.
  - exact Hl.
  - rewrite forallb_rev. exact Hrs.
  - intros c t Heq.
    destruct (lstrip s) as [|d m] eqn:Hm; [discriminate|].
    pose proof (Hhead d m eq_refl) as Hd.
    simpl rev in Heq. rewrite lstrip_snoc in Heq by exact Hd.
    rewrite rev_app_distr in Heq. simpl in Heq. injection Heq as <- _. exact Hd.
  - intros t c Heq.
    apply (f_equal (@rev char)) in Heq.
    rewrite rev_involutive, rev_app_distr in Heq. simpl in Heq.
    apply (Hlast c (rev t)). exact Heq.
Qed.

(** ** The deduplication pass over the result store *)

Lemma odict_set_middle {V} (k : string) (v v0 : V) (l1 l2 : odict V) :
  k ∉ map fst l1 ->
  odict_set k v (l1 ++ (k, v0) :: l2) = l1 ++ (k, v) :: l2.
Proof.
  induction l1 as [|[k1 v1] l1 IH]; simpl; intros Hk.
  - rewrite decide_True by reflexivity. reflexivity.
  - rewrite not_elem_of_cons in Hk. destruct Hk as [Hne Hk].
    rewrite decide_False by exact Hne. rewrite IH by exact Hk. reflexivity.
Qed.

Section DedupStoreFacts.
Variable app_stop : nat -> bool.
Hypothesis not_stopped : never_stopped app_stop.

Lemma dedup_entries_store (processed entries : list (string * list str))
    (a : app_state) (count : nat) :
  NoDup (map fst (processed ++ entries)) ->
  results_by_id a = map dedup_entry processed ++ entries ->
  results_by_id (dedup_entries app_stop entries a count).2
    = map dedup_entry (processed ++ entries).
Proof.
  revert processed a count.
  induction entries as [|[k v] entries IH]; intros processed a count Hnd Hstore.
  - simpl. rewrite Hstore, !app_nil_r. reflexivity.
  - cbn [dedup_entries app_poll]. rewrite not_stopped.
    replace (processed ++ (k, v) :: entries)
      with ((processed ++ [(k, v)]) ++ entries) in * by (rewrite <- app_assoc; reflexivity).
    destruct v as [|r v].
    + apply IH; [exact Hnd|]. cbn [results_by_id]. rewrite Hstore.
      rewrite map_app, <- app_assoc. reflexivity.
    + apply IH; [exact Hnd|]. unfold set_records. cbn [results_by_id].
      rewrite Hstore, odict_set_middle.
      * rewrite map_app, <- app_assoc. reflexivity.
      * rewrite !map_app, <- app_assoc in Hnd.
        apply NoDup_app in Hnd as (_ & Hdisj & _).
        intros Hin. apply (Hdisj k).
        -- rewrite map_map in Hin. exact Hin.
        -- left.
Qed.

(** Without cancellation [deduplicate_records] replaces the record list of
    every logical file by its deduplication and keeps the order of the
    store. *)
Lemma deduplicate_records_store (a : app_state) :
  NoDup (map fst (results_by_id a)) ->
  results_by_id (deduplicate_records app_stop a).2
    = map dedup_entry (results_by_id a).
Proof.
  intros Hnd. unfold deduplicate_records, app_poll. rewrite not_stopped.
  apply (dedup_entries_store [] (results_by_id a)); [exact Hnd | reflexivity].
Qed.
End DedupStoreFacts.

(* ================================================================== *)
(** * Further properties of the code *)

(** ** count_lines *)

Lemma count_lines_loop_bounds {rt : Runtime} (stop : nat -> bool) (path : string)
    (chunks : list bytes) (lines : N) (st : pstate) :
  (count_lines_loop stop path chunks lines st).1
    <= lines + count_byte byte_lf (concat chunks) /\
  bytes_read (count_lines_loop stop path chunks lines st).2
    <= bytes_read st + N.of_nat (length (concat chunks)).
Proof.
  revert lines st. induction chunks as [|buf rest IH]; intros lines st.
  - simpl. rewrite bytes_read_record. unfold count_byte. simpl. lia.
  - cbn [count_lines_loop poll concat]. rewrite count_byte_app, length_app.
    set (st1 := {| polls := S (polls (record_event
                                 (ReadBinary path (N.of_nat (length buf))) st));
                   trace := trace (record_event
                                 (ReadBinary path (N.of_nat (length buf))) st) |}).
    assert (Hst1 : bytes_read st1 = N.of_nat (length buf) + bytes_read st)
      by reflexivity.
    destruct (stop _).
    + cbn [fst snd]. lia.
    + destruct (IH (lines + count_byte byte_lf buf) st1) as [IH1 IH2]. lia.
Qed.

(** X1. [count_lines] answers 0, reading nothing, for a file it cannot
    open. For a file it can open it never counts more than the line feeds
    of the file and never reads more than the file holds, however the stop
    flag behaves; when the flag is never set it counts every line feed and
    reads every byte, whatever the size of the file against the 1 MiB
    buffer. *)
Theorem count_lines_bounds {rt : Runtime} (fs : gmap string bytes)
    (stop : nat -> bool) (path : string) (st : pstate) :
  (fs !! path = None -> count_lines fs stop path st = (0, st)) /\
  (forall data : bytes, fs !! path = Some data ->
     (count_lines fs stop path st).1 <= count_byte byte_lf data /\
     bytes_read (count_lines fs stop path st).2
       <= bytes_read st + N.of_nat (length data) /\
     (never_stopped stop ->
        (count_lines fs stop path st).1 = count_byte byte_lf data /\
        bytes_read (count_lines fs stop path st).2
          = bytes_read st + N.of_nat (length data))).
Proof.
  split.
  - intros Hf. unfold count_lines. rewrite Hf. reflexivity.
  - intros data Hf. split; [|split].
    + unfold count_lines. rewrite Hf.
      pose proof (count_lines_loop_bounds stop path
                    (file_chunks (1024 * 1024) data) 0 st) as [H1 _].
      rewrite file_chunks_concat in H1. lia.
    + unfold count_lines. rewrite Hf.
      pose proof (count_lines_loop_bounds stop path
                    (file_chunks (1024 * 1024) data) 0 st) as [_ H2].
      rewrite file_chunks_concat in H2. exact H2.
    + intros Hn. apply (count_lines_never fs stop Hn path data st Hf).
Qed.

(** ** detect_encoding and select_best_encoding *)

Lemma read_prefix_length (n : N) (data : bytes) :
  N.of_nat (length (read_prefix n data)) <= n.
Proof.
  revert n. induction data as [|b data IH]; intros n; simpl; [lia|].
  destruct (N.eqb_spec n 0) as [->|Hn]; simpl; [lia|].
  specialize (IH (N.pred n)). lia.
Qed.

Lemma match_bom_elem (table : list (bytes * string)) (header : bytes)
    (encoding : string) :
  match_bom table header = Some encoding ->
  exists bom, (bom, encoding) ∈ table /\ bytes_startswith header bom = true.
Proof.
  induction table as [|[bom e] table IH]; simpl; [discriminate|].
  destruct (bytes_startswith header bom) eqn:Hsw.
  - intros [= <-]. exists bom. split; [left | exact Hsw].
  - intros Hm. destruct (IH Hm) as (bom' & Hin & Hsw'). exists bom'.
    split; [right; exact Hin | exact Hsw'].
Qed.

(** X2. A file that starts with the byte-order mark of utf-8, utf-16-le,
    utf-16-be or utf-32-be gets that encoding from its first four bytes:
    [detect_encoding] does one read of at most four bytes, does not
    consult chardet and does not poll the stop flag. *)
Theorem detect_encoding_bom {rt : Runtime} (fs : gmap string bytes)
    (stop : nat -> bool) (path : string) (bom : bytes) (encoding : string)
    (rest : bytes) (st : pstate) :
  (bom, encoding) ∈ bom_encodings ->
  encoding <> "utf-32-le"%string ->
  (fs !! path : option bytes) = Some (bom ++ rest) ->
  let header := read_prefix 4 (bom ++ rest) in
  detect_encoding fs stop path st
    = (encoding, record_event (ReadBinary path (N.of_nat (length header))) st) /\
  N.of_nat (length header) <= 4.
Proof.
  intros Hin Hne Hf header. split; [|apply read_prefix_length].
  unfold detect_encoding. rewrite Hf. fold header.
  assert (Hm : match_bom bom_encodings header = Some encoding).
  { unfold header, bom_encodings.
    repeat (apply elem_of_cons in Hin as [Hin | Hin];
            [injection Hin as -> ->; try congruence; reflexivity|]).
    apply elem_of_nil in Hin. destruct Hin. }
  rewrite Hm. reflexivity.
Qed.

Lemma select_loop_elem {rt : Runtime} (stop : nat -> bool) (mode : errors_mode)
    (encodings : list string) (sample : bytes) (best : string)
    (best_score : spec_float) (st : pstate) :
  (select_loop stop mode encodings sample best best_score st).1
    ∈ best :: encodings.
Proof.
  revert best best_score st.
  induction encodings as [|e rest IH]; intros best best_score st; simpl.
  - left.
  - destruct (stop (polls st)); [left|].
    destruct (bytes_decode e mode sample) as [decoded|].
    + destruct (b64_ltb best_score (sample_score decoded)).
      * right. apply IH.
      * specialize (IH best best_score {| polls := S (polls st); trace := trace st |}).
        apply elem_of_cons in IH as [-> | IH]; [left | right; right; exact IH].
    + specialize (IH best best_score {| polls := S (polls st); trace := trace st |}).
      apply elem_of_cons in IH as [-> | IH]; [left | right; right; exact IH].
Qed.

Lemma select_loop_polls {rt : Runtime} (stop : nat -> bool) (mode : errors_mode)
    (encodings : list string) (sample : bytes) (best : string)
    (best_score : spec_float) (st : pstate) :
  (polls st <= polls (select_loop stop mode encodings sample best best_score st).2
            <= polls st + length encodings)%nat.
Proof.
  revert best best_score st.
  induction encodings as [|e rest IH]; intros best best_score st; simpl.
  - lia.
  - destruct (stop (polls st)); [simpl; lia|].
    destruct (bytes_decode e mode sample) as [decoded|];
      [destruct (b64_ltb best_score (sample_score decoded))|];
      match goal with
      | |- context [select_loop stop mode rest sample ?b ?s ?st1] =>
          specialize (IH b s st1); simpl in IH; lia
      end.
Qed.

(** X3. Whatever the sample, the codecs and the stop flag,
    [select_best_encoding] returns one of the candidates of the fixed
    list, does no I/O, and reads the stop flag at most once per
    candidate. *)
Theorem select_best_encoding_frame {rt : Runtime} (stop : nat -> bool)
    (sample : bytes) (st : pstate) :
  (select_best_encoding stop sample st).1 ∈ backup_encodings /\
  trace (select_best_encoding stop sample st).2 = trace st /\
  (polls st <= polls (select_best_encoding stop sample st).2
            <= polls st + length backup_encodings)%nat.
Proof.
  unfold select_best_encoding. split; [|split].
  - pose proof (select_loop_elem stop Ignore backup_encodings sample
                  "utf-8"%string b64_zero st) as Hin.
    apply elem_of_cons in Hin as [-> | Hin]; [left | exact Hin].
  - apply select_loop_trace.
  - apply select_loop_polls.
Qed.

Lemma bytes_read_same_trace (st st' : pstate) :
  trace st' = trace st -> bytes_read st' = bytes_read st.
Proof. unfold bytes_read. intros ->. reflexivity. Qed.

Lemma detect_by_chardet_bytes {rt : Runtime} (fs : gmap string bytes)
    (stop : nat -> bool) (path : string) (st : pstate) :
  bytes_read (detect_by_chardet fs stop path st).2 <= bytes_read st + 50000.
Proof.
  unfold detect_by_chardet. destruct (fs !! path) as [data|]; [|simpl; lia].
  pose proof (read_prefix_length 50000 data) as Hlen.
  cbv zeta. destruct (b64_ltb _ _).
  - unfold select_best_encoding.
    rewrite (bytes_read_same_trace _ _ (select_loop_trace stop Ignore _ _ _ _ _)).
    rewrite bytes_read_record. lia.
  - cbn [snd]. rewrite bytes_read_record. lia.
Qed.

(** X4. [detect_encoding] answers utf-8 for a file it cannot open,
    touching nothing. For any file it reads at most 50004 bytes (the
    header and the chardet sample), whatever the size of the file, and
    never opens the file for decoding. *)
Theorem detect_encoding_bounds {rt : Runtime} (fs : gmap string bytes)
    (stop : nat -> bool) (path : string) (st : pstate) :
  (fs !! path = None -> detect_encoding fs stop path st = ("utf-8"%string, st)) /\
  bytes_read (detect_encoding fs stop path st).2 <= bytes_read st + 50004 /\
  reads_only st (detect_encoding fs stop path st).2.
Proof.
  split; [|split].
  - intros Hf. unfold detect_encoding, detect_by_chardet. rewrite Hf. reflexivity.
  - unfold detect_encoding. destruct (fs !! path) as [data|] eqn:Hf.
    + pose proof (read_prefix_length 4 data) as Hlen. cbv zeta.
      destruct (match_bom _ _).
      * cbn [snd]. rewrite bytes_read_record. lia.
      * pose proof (detect_by_chardet_bytes fs stop path
                      (record_event (ReadBinary path
                         (N.of_nat (length (read_prefix 4 data)))) st)) as Hb.
        rewrite bytes_read_record in Hb. lia.
    + pose proof (detect_by_chardet_bytes fs stop path st). lia.
  - apply detect_encoding_reads.
Qed.

(** ** What process_log and try_backup_encodings return *)

Lemma try_backup_encodings_outcome {rt : Runtime} (fs : gmap string bytes)
    (stop : nat -> bool) (path : string) (st : pstate) :
  match (try_backup_encodings fs stop path st).1 with
  | Returned p records error =>
      p = path /\ (error = None <-> records <> []) /\
      (fs !! path = None -> error = Some MsgStopped)
  | Raised => stop (polls st) = false /\ fs !! path = None
  end.
Proof.
  unfold try_backup_encodings, poll. destruct (stop (polls st)) eqn:Hstop.
  - cbn [fst]. split; [reflexivity|]. split; [|reflexivity].
    split; [discriminate | intros H; contradiction H; reflexivity].
  - destruct (fs !! path) as [data|] eqn:Hf; [|cbn [fst]; split; reflexivity].
    remember (backup_loop fs stop path backup_encodings no_best
                {| polls := S (polls st); trace := trace st |}) as final eqn:Hfinal.
    clear Hfinal. destruct final as [best st2]. cbn [fst].
    unfold backup_result. destruct (best_records best) as [|r rs] eqn:Hbest.
    + split; [reflexivity|]. split; [|discriminate].
      split; [discriminate | intros H; contradiction H; reflexivity].
    + split; [reflexivity|]. split; [|discriminate].
      split; [discriminate | reflexivity].
Qed.

Lemma extract_records_outcome {rt : Runtime} (fs : gmap string bytes)
    (disk_free : string -> option Z) (stop : nat -> bool)
    (path encoding : string) (data : bytes) (st : pstate) :
  match (extract_records fs disk_free stop path encoding data st).1 with
  | Returned p records error => p = path /\ (error <> None -> records = [])
  | Raised => fs !! path = None
  end.
Proof.
  unfold extract_records.
  destruct (disk_free (dirname path)) as [free|];
    [|cbn [fst]; split; reflexivity].
  destruct (free <? min_free_bytes)%Z; [cbn [fst]; split; reflexivity|].
  destruct (primary_loop stop _ _ _ _) as [[recs| |] st2].
  - destruct (ts_end _).
    + cbn [fst]. split; [reflexivity | intros H; contradiction H; reflexivity].
    + pose proof (try_backup_encodings_outcome fs stop path st2) as Hb.
      destruct (try_backup_encodings fs stop path st2) as [[p records error|] st3];
        cbn [fst] in Hb |- *.
      * destruct Hb as (-> & Hiff & _). split; [reflexivity|].
        intros Herr. destruct records; [reflexivity|].
        contradiction Herr. apply Hiff. discriminate.
      * apply Hb.
    + cbn [fst]. split; reflexivity.
  - cbn [fst]. split; reflexivity.
  - pose proof (try_backup_encodings_outcome fs stop path st2) as Hb.
    destruct (try_backup_encodings fs stop path st2) as [[p records error|] st3];
      cbn [fst] in Hb |- *.
    + destruct Hb as (-> & Hiff & _). split; [reflexivity|].
      intros Herr. destruct records; [reflexivity|].
      contradiction Herr. apply Hiff. discriminate.
    + split; reflexivity.
Qed.

Lemma process_log_missing {rt : Runtime} (fs : gmap string bytes)
    (disk_free : string -> option Z) (stop : nat -> bool) (path : string)
    (st : pstate) :
  stop (polls st) = false -> fs !! path = None ->
  process_log fs disk_free stop path st = (Raised, (poll stop st).2).
Proof.
  intros Hstop Hf. unfold process_log, poll. rewrite Hstop.
  unfold detect_encoding, detect_by_chardet. rewrite Hf. reflexivity.
Qed.

Lemma process_log_outcome {rt : Runtime} (fs : gmap string bytes)
    (disk_free : string -> option Z) (stop : nat -> bool) (path : string)
    (st : pstate) :
  match (process_log fs disk_free stop path st).1 with
  | Returned p records error => p = path /\ (error <> None -> records = [])
  | Raised => stop (polls st) = false /\ fs !! path = None
  end.
Proof.
  destruct (stop (polls st)) eqn:Hstop.
  - unfold process_log, poll. rewrite Hstop. cbn [fst]. split; reflexivity.
  - destruct (fs !! path) as [data|] eqn:Hf.
    + rewrite (process_log_running disk_free stop fs path data st Hstop Hf).
      pose proof (extract_records_outcome fs disk_free stop path
                    (detect_encoding fs stop path (poll stop st).2).1 data
                    (count_lines fs stop path
                       (detect_encoding fs stop path (poll stop st).2).2).2) as Ho.
      destruct (extract_records _ _ _ _ _ _ _).1 as [p records error|];
        [exact Ho | congruence].
    + rewrite (process_log_missing fs disk_free stop path st Hstop Hf).
      cbn [fst]. split; reflexivity.
Qed.

(** X5. Whatever the file, the codecs, the disk and the stop flag: a
    triple that [process_log] returns names the path it was given, and an
    error in it always comes with an empty record list; a triple that
    [try_backup_encodings] returns has no error exactly when its record
    list is not empty. *)
Theorem returned_error_has_no_records {rt : Runtime} (fs : gmap string bytes)
    (disk_free : string -> option Z) (stop : nat -> bool) (path : string)
    (st : pstate) :
  (forall p records error st',
      process_log fs disk_free stop path st = (Returned p records error, st') ->
      p = path /\ (error <> None -> records = [])) /\
  (forall p records error st',
      try_backup_encodings fs stop path st = (Returned p records error, st') ->
      p = path /\ (error = None <-> records <> [])).
Proof.
  split.
  - intros p records error st' Hrun.
    pose proof (process_log_outcome fs disk_free stop path st) as Ho.
    rewrite Hrun in Ho. exact Ho.
  - intros p records error st' Hrun.
    pose proof (try_backup_encodings_outcome fs stop path st) as Ho.
    rewrite Hrun in Ho. cbn [fst] in Ho. destruct Ho as (Hp & Hiff & _).
    split; assumption.
Qed.


(** ** The primary pass *)

Lemma scan_prefixes_acc (ps : list str) (line : str) (recs : list str) :
  scan_prefixes ps line recs = recs ++ scan_prefixes ps line [].
Proof.
  induction ps as [|p ps IH]; simpl.
  - rewrite app_nil_r. reflexivity.
  - destruct (contains line p); [|exact IH].
    destruct (is_chat_content _); [reflexivity | rewrite app_nil_r; reflexivity].
Qed.

Lemma scan_prefixes_one (ps : list str) (line : str) :
  scan_prefixes ps line [] = [] \/ scan_prefixes ps line [] = [strip line].
Proof.
  induction ps as [|p ps IH]; simpl.
  - left. reflexivity.
  - destruct (contains line p); [|exact IH].
    destruct (is_chat_content _); [right | left]; reflexivity.
Qed.

Lemma scan_prefixes_chat_line (line : str) (recs : list str) :
  scan_prefixes prefixes line recs =
    recs ++ (if is_chat_line line then [strip line] else []).
Proof.
  rewrite scan_prefixes_acc. f_equal. unfold is_chat_line.
  destruct (scan_prefixes_one prefixes line) as [-> | ->]; reflexivity.
Qed.

Lemma chat_lines_from (lines : list str) (recs : list str) :
  fold_left (fun chat_records line => scan_prefixes prefixes line chat_records)
    lines recs
  = recs ++ map strip (filter (fun line => is_chat_line line = true) lines).
Proof.
  revert recs. induction lines as [|l lines IH]; intros recs; cbn [fold_left].
  - rewrite app_nil_r. reflexivity.
  - rewrite IH, scan_prefixes_chat_line, filter_cons.
    destruct (is_chat_line l) eqn:Hl.
    + destruct (decide (true = true)) as [_|Hne]; [|contradiction Hne; reflexivity].
      simpl. rewrite <- app_assoc. reflexivity.
    + destruct (decide (false = true)) as [Heq|_]; [discriminate|].
      rewrite app_nil_r. reflexivity.
Qed.

Lemma primary_loop_done_from (stop : nat -> bool) (lines : list str)
    (chat_records : list str) (line_errors : N) (st : pstate)
    (recs : list str) (st' : pstate) :
  primary_loop stop lines chat_records line_errors st = (LoopDone recs, st') ->
  recs = chat_records
           ++ map strip (filter (fun line => is_chat_line line = true) lines) /\
  (line_errors <= 100 -> line_errors + garbled lines <= 100) /\
  (forall i, (i < length lines)%nat -> stop (polls st + i)%nat = false) /\
  st' = {| polls := polls st + length lines; trace := trace st |}.
Proof.
  revert chat_records line_errors st.
  induction lines as [|l lines IH]; intros chat_records line_errors st Hrun.
  - simpl in Hrun. injection Hrun as <- <-. rewrite app_nil_r.
    split; [reflexivity|]. split; [unfold garbled; simpl; lia|].
    split; [simpl; lia|]. rewrite Nat.add_0_r. destruct st; reflexivity.
  - cbn [primary_loop poll] in Hrun.
    destruct (stop (polls st)) eqn:Hstop; [discriminate|].
    rewrite garbled_cons.
    assert (Hstep : forall errs,
              primary_loop stop lines (scan_prefixes prefixes l chat_records) errs
                {| polls := S (polls st); trace := trace st |} = (LoopDone recs, st') ->
              recs = chat_records
                ++ map strip (filter (fun line => is_chat_line line = true) (l :: lines)) /\
              (errs <= 100 -> errs + garbled lines <= 100) /\
              (forall i, (i < length (l :: lines))%nat -> stop (polls st + i)%nat = false) /\
              st' = {| polls := polls st + length (l :: lines); trace := trace st |}).
    { intros errs Hrest. destruct (IH _ _ _ Hrest) as (Hrecs & Herrs & Hpolls & Hst).
      cbn [polls trace] in Hpolls, Hst. split; [|split; [exact Herrs|split]].
      - rewrite Hrecs, scan_prefixes_chat_line, filter_cons.
        destruct (is_chat_line l) eqn:Hl.
        + destruct (decide (true = true)) as [_|Hne]; [|contradiction Hne; reflexivity].
          simpl. rewrite <- app_assoc. reflexivity.
        + destruct (decide (false = true)) as [Heq|_]; [discriminate|].
          rewrite app_nil_r. reflexivity.
      - intros [|i] Hi.
        + rewrite Nat.add_0_r. exact Hstop.
        + simpl in Hi. replace (polls st + S i)%nat with (S (polls st) + i)%nat by lia.
          apply Hpolls. lia.
      - rewrite Hst. simpl. f_equal. lia. }
    destruct (has_replacement l).
    + destruct (100 <? line_errors + 1) eqn:Hlt; [discriminate|].
      apply N.ltb_ge in Hlt.
      destruct (Hstep _ Hrun) as (H1 & H2 & H3 & H4).
      split; [exact H1|]. split; [|split; assumption]. intros _.
      specialize (H2 Hlt). lia.
    + destruct (Hstep _ Hrun) as (H1 & H2 & H3 & H4).
      split; [exact H1|]. split; [|split; assumption]. intros Hle.
      specialize (H2 Hle). lia.
Qed.

(** X7. When the line loop of [process_log] runs to the end of the file,
    no line was skipped: the stop flag was read once per line and was
    clear each time, at most 100 lines held U+FFFD, and the records are
    the trimmed chat lines of the file in file order. The loop does no
    I/O of its own. *)
Theorem primary_loop_done (stop : nat -> bool) (lines : list str) (st : pstate)
    (recs : list str) (st' : pstate) :
  primary_loop stop lines [] 0 st = (LoopDone recs, st') ->
  recs = map strip (filter (fun line => is_chat_line line = true) lines) /\
  garbled lines <= 100 /\
  (forall i, (i < length lines)%nat -> stop (polls st + i)%nat = false) /\
  st' = {| polls := polls st + length lines; trace := trace st |}.
Proof.
  intros Hrun.
  destruct (primary_loop_done_from stop lines [] 0 st recs st' Hrun)
    as (H1 & H2 & H3 & H4).
  split; [exact H1|]. split; [|split; assumption].
  specialize (H2 ltac:(lia)). lia.
Qed.

(** ** Runs that are never stopped do not depend on the poll counter *)

Section StateIndependence.
Context {rt : Runtime}.
Variable fs : gmap string bytes.
Variable disk_free : string -> option Z.
Variable stop : nat -> bool.
Hypothesis not_stopped : never_stopped stop.

Lemma select_loop_state (mode : errors_mode) (encodings : list string)
    (sample : bytes) (best : string) (best_score : spec_float) (st st' : pstate) :
  (select_loop stop mode encodings sample best best_score st).1
    = (select_loop stop mode encodings sample best best_score st').1.
Proof.
  revert best best_score st st'.
  induction encodings as [|e rest IH]; intros best best_score st st';
    cbn [select_loop poll]; [reflexivity|].
  rewrite !not_stopped.
  destruct (bytes_decode e mode sample) as [decoded|];
    [destruct (b64_ltb best_score (sample_score decoded))|]; apply IH.
Qed.

Lemma detect_by_chardet_state (path : string) (st st' : pstate) :
  (detect_by_chardet fs stop path st).1 = (detect_by_chardet fs stop path st').1.
Proof.
  unfold detect_by_chardet. destruct (fs !! path) as [data|]; [|reflexivity].
  cbv zeta. destruct (b64_ltb _ _); [|reflexivity].
  unfold select_best_encoding. apply select_loop_state.
Qed.

Lemma detect_encoding_state (path : string) (st st' : pstate) :
  (detect_encoding fs stop path st).1 = (detect_encoding fs stop path st').1.
Proof.
  unfold detect_encoding. destruct (fs !! path) as [data|].
  - cbv zeta. destruct (match_bom _ _); [reflexivity|]. apply detect_by_chardet_state.
  - apply detect_by_chardet_state.
Qed.

Lemma primary_loop_state (lines : list str) (chat_records : list str)
    (line_errors : N) (st st' : pstate) :
  (primary_loop stop lines chat_records line_errors st).1
    = (primary_loop stop lines chat_records line_errors st').1.
Proof.
  revert chat_records line_errors st st'.
  induction lines as [|l lines IH]; intros chat_records line_errors st st';
    cbn [primary_loop poll]; [reflexivity|].
  rewrite !not_stopped.
  destruct (has_replacement l); [destruct (100 <? line_errors + 1)|];
    first [reflexivity | apply IH].
Qed.

Lemma primary_loop_too_many (lines : list str) (chat_records : list str)
    (line_errors : N) (st : pstate) :
  line_errors <= 100 ->
  100 < line_errors + garbled lines ->
  (primary_loop stop lines chat_records line_errors st).1 = LoopTooManyErrors.
Proof.
  revert chat_records line_errors st.
  induction lines as [|l lines IH]; intros chat_records line_errors st Hle Hgt.
  - unfold garbled in Hgt. simpl in Hgt. lia.
  - cbn [primary_loop poll]. rewrite not_stopped. rewrite garbled_cons in Hgt.
    destruct (has_replacement l).
    + destruct (100 <? line_errors + 1) eqn:Hlt; [reflexivity|].
      apply N.ltb_ge in Hlt. apply IH; lia.
    + apply IH; lia.
Qed.

Lemma backup_loop_state (path : string) (data : bytes) (encodings : list string)
    (best : backup_state) (st st' : pstate) :
  fs !! path = Some data ->
  (backup_loop fs stop path encodings best st).1
    = (backup_loop fs stop path encodings best st').1.
Proof.
  intros Hf. revert best st st'.
  induction encodings as [|e rest IH]; intros best st st';
    cbn [backup_loop poll]; [reflexivity|].
  rewrite !not_stopped.
  pose proof (backup_pass_never fs stop path e data
                {| polls := S (polls st); trace := trace st |} not_stopped Hf) as H1.
  pose proof (backup_pass_never fs stop path e data
                {| polls := S (polls st'); trace := trace st' |} not_stopped Hf) as H2.
  destruct (backup_pass fs stop path e {| polls := S (polls st); trace := trace st |})
    as [r1 s1].
  destruct (backup_pass fs stop path e {| polls := S (polls st'); trace := trace st' |})
    as [r2 s2].
  cbn [fst] in H1, H2. subst r1 r2. apply IH.
Qed.

Lemma try_backup_encodings_state (path : string) (data : bytes) (st st' : pstate) :
  fs !! path = Some data ->
  (try_backup_encodings fs stop path st).1 = (try_backup_encodings fs stop path st').1.
Proof.
  intros Hf.
  rewrite (try_backup_encodings_running fs stop path data st (not_stopped _) Hf).
  rewrite (try_backup_encodings_running fs stop path data st' (not_stopped _) Hf).
  pose proof (backup_loop_state path data backup_encodings no_best
                (poll stop st).2 (poll stop st').2 Hf) as Heq.
  remember (backup_loop fs stop path backup_encodings no_best (poll stop st).2) as f1 eqn:E1.
  remember (backup_loop fs stop path backup_encodings no_best (poll stop st').2) as f2 eqn:E2.
  clear E1 E2. destruct f1 as [b1 s1], f2 as [b2 s2]. cbn [fst] in Heq |- *.
  rewrite Heq. reflexivity.
Qed.

Lemma try_backup_encodings_returns (path : string) (data : bytes) (st : pstate) :
  fs !! path = Some data ->
  (try_backup_encodings fs stop path st).1 <> Raised.
Proof.
  intros Hf Hr.
  pose proof (try_backup_encodings_outcome fs stop path st) as Ho.
  rewrite Hr in Ho. destruct Ho as [_ Hnone]. congruence.
Qed.

Lemma extract_records_state (path encoding : string) (data : bytes)
    (st st' : pstate) :
  fs !! path = Some data ->
  (extract_records fs disk_free stop path encoding data st).1
    = (extract_records fs disk_free stop path encoding data st').1.
Proof.
  intros Hf. unfold extract_records.
  destruct (disk_free (dirname path)) as [free|]; [|reflexivity].
  destruct (free <? min_free_bytes)%Z; [reflexivity|].
  pose proof (primary_loop_state (ts_lines (text_lines encoding data)) [] 0
                (record_event (OpenText path encoding) st)
                (record_event (OpenText path encoding) st')) as Hloop.
  destruct (primary_loop stop _ _ _ (record_event (OpenText path encoding) st))
    as [exit1 s1].
  destruct (primary_loop stop _ _ _ (record_event (OpenText path encoding) st'))
    as [exit2 s2].
  cbn [fst] in Hloop. subst exit2.
  destruct exit1 as [recs| |].
  - destruct (ts_end _); [reflexivity | | reflexivity].
    apply (try_backup_encodings_state path data s1 s2 Hf).
  - reflexivity.
  - pose proof (try_backup_encodings_state path data s1 s2 Hf) as Hb.
    destruct (try_backup_encodings fs stop path s1) as [[p1 r1 e1|] t1],
             (try_backup_encodings fs stop path s2) as [[p2 r2 e2|] t2];
      cbn [fst] in Hb |- *; congruence.
Qed.

Lemma process_log_state (path : string) (st st' : pstate) :
  (process_log fs disk_free stop path st).1
    = (process_log fs disk_free stop path st').1.
Proof.
  destruct (fs !! path) as [data|] eqn:Hf.
  - rewrite (process_log_running disk_free stop fs path data st (not_stopped _) Hf).
    rewrite (process_log_running disk_free stop fs path data st' (not_stopped _) Hf).
    rewrite (detect_encoding_state path (poll stop st).2 (poll stop st').2).
    apply extract_records_state. exact Hf.
  - unfold process_log, poll. rewrite !not_stopped.
    unfold detect_encoding, detect_by_chardet. rewrite Hf. reflexivity.
Qed.

End StateIndependence.

(** X8. In a run that is not cancelled and has the disk space, a file
    that decodes to more than 100 lines holding U+FFFD, or whose decoding
    raises UnicodeDecodeError, gets the result of [try_backup_encodings]:
    what the primary pass had collected is dropped. *)
Theorem process_log_falls_back {rt : Runtime} (fs : gmap string bytes)
    (disk_free : string -> option Z) (stop : nat -> bool) (path : string)
    (data : bytes) (free : Z) (st : pstate) :
  never_stopped stop ->
  fs !! path = Some data ->
  disk_free (dirname path) = Some free ->
  (min_free_bytes <= free)%Z ->
  let stream := text_lines (detect_encoding fs stop path (poll stop st).2).1 data in
  100 < garbled (ts_lines stream) \/ ts_end stream = RaisesUnicodeDecodeError ->
  (process_log fs disk_free stop path st).1
    = (try_backup_encodings fs stop path st).1.
Proof.
  intros Hn Hf Hfree Hge stream Hcase.
  rewrite (process_log_running disk_free stop fs path data st (Hn _) Hf).
  fold stream. unfold extract_records. rewrite Hfree.
  assert ((free <? min_free_bytes)%Z = false) as -> by (apply Z.ltb_ge; exact Hge).
  fold stream.
  set (st2 := record_event _ _).
  destruct (N.lt_ge_cases 100 (garbled (ts_lines stream))) as [Hgt | Hle].
  - pose proof (primary_loop_too_many stop Hn (ts_lines stream) [] 0 st2
                  ltac:(lia) ltac:(lia)) as Hloop.
    destruct (primary_loop stop (ts_lines stream) [] 0 st2) as [exit s3].
    cbn [fst] in Hloop. subst exit.
    pose proof (try_backup_encodings_state fs stop Hn path data s3 st Hf) as Hstate.
    pose proof (try_backup_encodings_returns fs stop path data s3 Hf) as Hret.
    destruct (try_backup_encodings fs stop path s3) as [[p r e|] t];
      cbn [fst] in Hstate, Hret |- *; [exact Hstate | contradiction Hret; reflexivity].
  - destruct Hcase as [Hgt | Hend]; [lia|].
    rewrite (primary_loop_never stop Hn (ts_lines stream) [] 0 st2) by lia.
    rewrite Hend.
    apply (try_backup_encodings_state fs stop Hn path data _ st Hf).
Qed.

(** ** The file opens of try_backup_encodings *)

Lemma backup_pass_loop_trace {rt : Runtime} (stop : nat -> bool) (lines : list str)
    (chat_records : list str) (line_errors : N) (st : pstate) :
  trace (backup_pass_loop stop lines chat_records line_errors st).2 = trace st.
Proof.
  revert chat_records line_errors st.
  induction lines as [|l lines IH]; intros chat_records line_errors st;
    cbn [backup_pass_loop poll]; [reflexivity|].
  destruct (stop (polls st)); [reflexivity|].
  destruct (has_replacement l); [destruct (50 <? line_errors + 1)|];
    first [reflexivity | rewrite IH; reflexivity].
Qed.

Lemma backup_pass_trace {rt : Runtime} (fs : gmap string bytes)
    (stop : nat -> bool) (path encoding : string) (st : pstate) :
  trace (backup_pass fs stop path encoding st).2 = OpenText path encoding :: trace st.
Proof.
  unfold backup_pass. destruct (fs !! path) as [data|]; [|reflexivity].
  pose proof (backup_pass_loop_trace stop (ts_lines (text_lines encoding data)) [] 0
                (record_event (OpenText path encoding) st)) as Ht.
  destruct (backup_pass_loop _ _ _ _ _) as [[recs|recs|] st2]; cbn [snd] in Ht.
  - destruct (ts_end _); exact Ht.
  - exact Ht.
  - exact Ht.
Qed.

Lemma backup_loop_trace {rt : Runtime} (fs : gmap string bytes)
    (stop : nat -> bool) (path : string) (encodings : list string)
    (best : backup_state) (st : pstate) :
  exists tried,
    attempts (backup_loop fs stop path encodings best st).1 = attempts best ++ tried /\
    trace (backup_loop fs stop path encodings best st).2
      = rev (map (fun attempt => OpenText path attempt.1) tried) ++ trace st.
Proof.
  revert best st.
  induction encodings as [|e rest IH]; intros best st; cbn [backup_loop poll].
  - exists []. rewrite app_nil_r. split; reflexivity.
  - destruct (stop (polls st)).
    + exists []. rewrite app_nil_r. split; reflexivity.
    + pose proof (backup_pass_trace fs stop path e
                    {| polls := S (polls st); trace := trace st |}) as Ht.
      destruct (backup_pass fs stop path e _) as [result st2].
      cbn [snd trace] in Ht.
      match goal with
      | |- context [backup_loop fs stop path rest ?b st2] =>
          destruct (IH b st2) as (tried & Ha & Htr);
          assert (Hb : attempts b = attempts best ++ [(e, result)])
      end.
      { destruct result as [recs|]; [|reflexivity].
        destruct (length (best_records best) <? length recs)%nat; reflexivity. }
      exists ((e, result) :: tried). split.
      * rewrite Ha, Hb, <- app_assoc. reflexivity.
      * rewrite Htr, Ht. cbn [map rev fst]. rewrite <- app_assoc. reflexivity.
Qed.

Lemma text_opens_app (events : list io_event) (st st' : pstate) :
  trace st' = events ++ trace st ->
  forallb (fun e => negb (is_binary_read e)) events = true ->
  text_opens st' = (length events + text_opens st)%nat.
Proof.
  unfold text_opens. intros -> Hall.
  induction events as [|e events IH]; [reflexivity|].
  simpl in Hall. apply andb_true_iff in Hall as [He Hall].
  simpl. rewrite filter_cons.
  destruct (decide (is_binary_read e = false)) as [_|Hne].
  - simpl. rewrite IH by exact Hall. reflexivity.
  - destruct (is_binary_read e); [discriminate | contradiction Hne; reflexivity].
Qed.

(** X9. [try_backup_encodings] opens the file anew for every candidate
    it tries, in the order tried, and does no other I/O; a run that is
    not cancelled opens the file 19 times. *)
Theorem try_backup_encodings_opens {rt : Runtime} (fs : gmap string bytes)
    (stop : nat -> bool) (path : string) (data : bytes) (st : pstate) :
  fs !! path = Some data ->
  trace (try_backup_encodings fs stop path st).2
    = rev (map (fun attempt => OpenText path attempt.1)
             (backup_attempts fs stop path st)) ++ trace st /\
  (never_stopped stop ->
   text_opens (try_backup_encodings fs stop path st).2 = (19 + text_opens st)%nat).
Proof.
  intros Hf.
  assert (Htrace : trace (try_backup_encodings fs stop path st).2
            = rev (map (fun attempt => OpenText path attempt.1)
                     (backup_attempts fs stop path st)) ++ trace st).
  { destruct (stop (polls st)) eqn:Hstop.
    - rewrite backup_attempts_stopped by exact Hstop.
      unfold try_backup_encodings, poll. rewrite Hstop. reflexivity.
    - rewrite (try_backup_encodings_running fs stop path data st Hstop Hf).
      rewrite backup_attempts_eq by exact Hstop.
      destruct (backup_loop_trace fs stop path backup_encodings no_best (poll stop st).2)
        as (tried & Ha & Htr).
      remember (backup_loop fs stop path backup_encodings no_best (poll stop st).2)
        as final eqn:E.
      clear E. destruct final as [best st2]. cbn [fst snd] in Ha, Htr |- *.
      rewrite Ha, Htr. reflexivity. }
  split; [exact Htrace|]. intros Hn.
  rewrite (text_opens_app _ st _ Htrace).
  - rewrite length_rev, length_map, backup_attempts_eq by apply Hn.
    destruct (backup_loop_never fs stop path data backup_encodings no_best
                (poll stop st).2 Hn Hf) as [Ha _].
    rewrite Ha. cbn [no_best attempts app]. rewrite length_map. reflexivity.
  - rewrite forallb_rev. apply forallb_forall. intros e He.
    apply in_map_iff in He as (attempt & <- & _). reflexivity.
Qed.

(** ** Archive names *)

Lemma chars_of_string_of (l : list ascii) : chars_of (string_of l) = l.
Proof. apply list_ascii_of_string_of_list_ascii. Qed.

Lemma string_endswith_spec (s suffix : string) :
  string_endswith s suffix = true
    <-> exists pre, chars_of s = pre ++ chars_of suffix.
Proof.
  unfold string_endswith. cbv zeta. rewrite bool_decide_eq_true. split.
  - intros Hdrop.
    exists (take (length (chars_of s) - length (chars_of suffix)) (chars_of s)).
    rewrite <- (take_drop (length (chars_of s) - length (chars_of suffix))
                  (chars_of s)) at 1.
    f_equal. exact Hdrop.
  - intros [pre ->]. rewrite length_app.
    replace (length pre + length (chars_of suffix) - length (chars_of suffix))%nat
      with (length pre) by lia.
    apply drop_app_length.
Qed.

Lemma drop_last_suffix (s : string) (pre suffix : list ascii) :
  chars_of s = pre ++ suffix ->
  drop_last (length suffix) s = string_of pre.
Proof.
  intros Hs. unfold drop_last. cbv zeta. rewrite Hs, length_app.
  replace (length pre + length suffix - length suffix)%nat with (length pre) by lia.
  rewrite take_app_length. reflexivity.
Qed.

Lemma log_gz_is_gz (s : string) :
  string_endswith s ".log.gz" = true -> string_endswith s ".gz" = true.
Proof.
  rewrite !string_endswith_spec. intros [pre Hs].
  exists (pre ++ chars_of ".log"). rewrite Hs, <- app_assoc. reflexivity.
Qed.

(** X10. The second suffix of the test [endswith(('.gz', '.log.gz'))] of
    [process_files] never decides: a path is queued for extraction
    exactly when its lower-cased name ends with ".gz". *)
Theorem is_archive_name_gz (file_path : string) :
  is_archive_name file_path = string_endswith (lower file_path) ".gz".
Proof.
  unfold is_archive_name.
  destruct (string_endswith (lower file_path) ".log.gz") eqn:Hlong.
  - rewrite (log_gz_is_gz _ Hlong). reflexivity.
  - apply orb_false_r.
Qed.

Lemma string_eq_chars (s t : string) : chars_of s = chars_of t -> s = t.
Proof.
  intros H. rewrite <- (string_of_chars s), <- (string_of_chars t), H. reflexivity.
Qed.

(** X11. The two renaming branches of [extract_gz_file] do the same: the
    member of an archive whose name ends with ".gz" is named as the
    archive without that suffix, and any other archive keeps its name.
    The test is case-sensitive, unlike the one that queued the archive. *)
Theorem member_name_drops_gz (gz_path : string) :
  (string_endswith (basename gz_path) ".gz" = true ->
     (member_name gz_path +:+ ".gz")%string = basename gz_path) /\
  (string_endswith (basename gz_path) ".gz" = false ->
     member_name gz_path = basename gz_path).
Proof.
  unfold member_name. cbv zeta. split.
  - intros Hgz. destruct (string_endswith (basename gz_path) ".log.gz") eqn:Hlong.
    + apply string_endswith_spec in Hlong as [pre Hs].
      pose proof (drop_last_suffix _ pre (chars_of ".log.gz") Hs) as Hd.
      change (length (chars_of ".log.gz")) with 7%nat in Hd. rewrite Hd.
      apply string_eq_chars.
      rewrite !chars_of_append, chars_of_string_of, Hs, <- app_assoc. reflexivity.
    + rewrite Hgz. apply string_endswith_spec in Hgz as [pre Hs].
      pose proof (drop_last_suffix _ pre (chars_of ".gz") Hs) as Hd.
      change (length (chars_of ".gz")) with 3%nat in Hd. rewrite Hd.
      apply string_eq_chars.
      rewrite chars_of_append, chars_of_string_of, Hs. reflexivity.
  - intros Hgz. destruct (string_endswith (basename gz_path) ".log.gz") eqn:Hlong.
    + rewrite (log_gz_is_gz _ Hlong) in Hgz. discriminate.
    + rewrite Hgz. reflexivity.
Qed.

(** ** Tasks that leave a result, and tasks that do not *)

(** X12. A successful call of [extract_gz_file] had the disk space and an
    archive that inflates; it wrote the inflated data to the returned
    path, which lies in the temporary directory (created on first use,
    kept afterwards), and changed no other file and no result store. *)
Theorem extract_gz_file_success {rt : Runtime} (disk_free : string -> option Z)
    (gz_path : string) (a a1 : app_state) (extracted : string)
    (error : option error_msg) :
  extract_gz_file disk_free gz_path a = ((Some extracted, error), a1) ->
  error = None /\
  (exists free, disk_free (dirname gz_path) = Some free /\ (min_free_bytes <= free)%Z) /\
  (exists compressed data,
      files a !! gz_path = Some compressed /\ gunzip compressed = Some data /\
      files a1 = <[extracted := data]> (files a)) /\
  temp_dir a1 = Some (default mkdtemp (temp_dir a)) /\
  extracted = path_join (path_join (default mkdtemp (temp_dir a))
                           (basename gz_path +:+ "_extracted"))
                (member_name gz_path) /\
  results a1 = results a /\ all_results a1 = all_results a /\
  results_by_id a1 = results_by_id a /\
  filepath_to_treeid a1 = filepath_to_treeid a /\
  processed_files a1 = processed_files a.
Proof.
  unfold extract_gz_file. intros Hex.
  destruct (disk_free (dirname gz_path)) as [free|]; [|discriminate].
  destruct (free <? min_free_bytes)%Z eqn:Hfree; [discriminate|].
  apply Z.ltb_ge in Hfree.
  destruct (files a !! gz_path) as [compressed|] eqn:Hgz; [|discriminate].
  destruct (bool_decide (member_name gz_path = ""%string)); [discriminate|].
  destruct (gunzip compressed) as [data|] eqn:Hdata; [|discriminate].
  injection Hex as <- <- <-.
  split; [reflexivity|]. split; [exists free; split; [reflexivity | exact Hfree]|].
  split; [exists compressed, data; split; [reflexivity | split; [exact Hdata | reflexivity]]|].
  repeat split; reflexivity.
Qed.

Section TaskFacts.
Context {rt : Runtime}.
Variable disk_free : string -> option Z.
Variable stop : nat -> bool.

Lemma extract_gz_file_stores (gz_path : string) (a : app_state) :
  let a1 := (extract_gz_file disk_free gz_path a).2 in
  results a1 = results a /\ all_results a1 = all_results a /\
  results_by_id a1 = results_by_id a /\
  filepath_to_treeid a1 = filepath_to_treeid a /\
  processed_files a1 = processed_files a /\
  currently_processing a1 = currently_processing a /\
  processor a1 = processor a /\
  ((extract_gz_file disk_free gz_path a).1.1 = None -> files a1 = files a).
Proof.
  unfold extract_gz_file. repeat case_match; cbn; repeat split; try reflexivity;
    intros; discriminate.
Qed.



(** X15. In every other case a process task stores a result: when the
    stop flag is set on entry or the file can be opened, the worker
    records the triple of [process_log] under the file's path, with
    status failed exactly when there is an error, and with an empty
    record list whenever there is one; [all_results] gets the same
    records and the file is counted as processed. *)
Theorem process_task_stores_result (path : string)
    (source_archive : option string) (a : app_state) :
  stop (polls (processor a)) = true \/ files a !! path <> None ->
  let a' := worker_task disk_free stop (Process path source_archive) a in
  exists records error,
    results a' !! path
      = Some {| r_records := records; r_error := error;
                r_status := status_of error;
                r_source_archive := source_archive |} /\
    (error <> None -> records = []) /\
    (status_of error = StatusSuccess <-> error = None) /\
    all_results a' !! path = Some records /\
    processed_files a' = S (processed_files a) /\
    currently_processing a' = S (currently_processing a).
Proof.
  intros Hcase. cbv zeta. cbn [worker_task].
  pose proof (process_log_outcome (files a) disk_free stop path (processor a)) as Ho.
  destruct (process_log (files a) disk_free stop path (processor a))
    as [[p records error|] st]; cbn [fst] in Ho.
  - destruct Ho as [_ Herr]. exists records, error.
    unfold store_result. cbn [results all_results processed_files currently_processing].
    rewrite !lookup_insert_eq. repeat split; try assumption.
    + destruct error; [discriminate | reflexivity].
    + intros ->. reflexivity.
  - destruct Ho as [Hstop Hf]. destruct Hcase as [Hs | Hex]; congruence.
Qed.

End TaskFacts.

(** ** deduplicate_records under any behaviour of the stop flag *)

Lemma total_records_app (d1 d2 : odict (list str)) :
  total_records (d1 ++ d2) = (total_records d1 + total_records d2)%nat.
Proof.
  unfold total_records. induction d1 as [|kv d1 IH]; simpl; [reflexivity|].
  rewrite IH. lia.
Qed.

Lemma deduplicate_length (records : list str) :
  (length (deduplicate records) <= length records)%nat.
Proof. apply sublist_length, dedup_loop_sublist. Qed.

Lemma dedup_entries_any (app_stop : nat -> bool)
    (processed entries : list (string * list str)) (a : app_state) (count : nat) :
  NoDup (map fst (processed ++ entries)) ->
  results_by_id a = map dedup_entry processed ++ entries ->
  exists done rest,
    entries = done ++ rest /\
    results_by_id (dedup_entries app_stop entries a count).2
      = map dedup_entry (processed ++ done) ++ rest /\
    ((dedup_entries app_stop entries a count).1
       + total_records (map dedup_entry done)
     = count + total_records done)%nat.
Proof.
  revert processed a count.
  induction entries as [|[k v] entries IH]; intros processed a count Hnd Hstore.
  - exists [], []. simpl. rewrite Hstore, !app_nil_r. repeat split; reflexivity.
  - cbn [dedup_entries app_poll]. destruct (app_stop (app_polls a)).
    + exists [], ((k, v) :: entries). cbn [fst snd results_by_id].
      rewrite Hstore, app_nil_r. repeat split; reflexivity.
    + assert (Hnd' : NoDup (map fst ((processed ++ [(k, v)]) ++ entries)))
        by (rewrite <- app_assoc; exact Hnd).
      destruct v as [|r v].
      * match goal with
        | |- context [dedup_entries app_stop entries ?a1 count] =>
            destruct (IH (processed ++ [(k, [])]) a1 count Hnd')
              as (done & rest & -> & Hres & Hcount)
        end.
        { cbn [results_by_id]. rewrite Hstore, map_app, <- app_assoc. reflexivity. }
        exists ((k, []) :: done), rest. split; [reflexivity|]. split.
        -- rewrite Hres, <- app_assoc. reflexivity.
        -- pose proof (deduplicate_length []) as Hlen.
           unfold total_records in Hcount |- *.
           cbn [map fold_right dedup_entry fst snd length] in Hcount, Hlen |- *. lia.
      * match goal with
        | |- context [dedup_entries app_stop entries ?a1 ?c] =>
            destruct (IH (processed ++ [(k, r :: v)]) a1 c Hnd')
              as (done & rest & -> & Hres & Hcount)
        end.
        { unfold set_records. cbn [results_by_id]. rewrite Hstore, odict_set_middle.
          - rewrite map_app, <- app_assoc. reflexivity.
          - rewrite !map_app in Hnd.
            apply NoDup_app in Hnd as (_ & Hdisj & _).
            intros Hin. apply (Hdisj k).
            + rewrite map_map in Hin. exact Hin.
            + left. }
        exists ((k, r :: v) :: done), rest. split; [reflexivity|]. split.
        -- rewrite Hres, <- app_assoc. reflexivity.
        -- pose proof (deduplicate_length (r :: v)) as Hlen.
           unfold total_records in Hcount |- *.
           cbn [map fold_right dedup_entry fst snd] in Hcount |- *. lia.
Qed.

Lemma deduplicate_records_any (app_stop : nat -> bool) (a : app_state) :
  NoDup (map fst (results_by_id a)) ->
  exists done rest,
    results_by_id a = done ++ rest /\
    results_by_id (deduplicate_records app_stop a).2 = map dedup_entry done ++ rest /\
    ((deduplicate_records app_stop a).1 + total_records (map dedup_entry done)
     = total_records done)%nat.
Proof.
  intros Hnd. unfold deduplicate_records, app_poll.
  destruct (app_stop (app_polls a)).
  - exists [], (results_by_id a). repeat split; reflexivity.
  - cbn [results_by_id].
    match goal with
    | |- context [dedup_entries app_stop (results_by_id a) ?a1 0%nat] =>
        destruct (dedup_entries_any app_stop [] (results_by_id a) a1 0%nat Hnd eq_refl)
          as (done & rest & Hsplit & Hres & Hcount)
    end.
    exists done, rest. split; [exact Hsplit|]. split; [exact Hres | exact Hcount].
Qed.

Lemma deduplicate_records_removed (app_stop : nat -> bool) (a : app_state) :
  NoDup (map fst (results_by_id a)) ->
  ((deduplicate_records app_stop a).1
     + total_records (results_by_id (deduplicate_records app_stop a).2)
   = total_records (results_by_id a))%nat.
Proof.
  intros Hnd.
  destruct (deduplicate_records_any app_stop a Hnd) as (done & rest & Hsplit & Hres & Hcount).
  rewrite Hres, Hsplit, !total_records_app. lia.
Qed.

(** X16. However the stop flag behaves, [deduplicate_records] has
    deduplicated the record lists of a leading part of the store and left
    the others as they were, keeping the keys and their order; the count
    it returns is the number of records it removed. *)
Theorem deduplicate_records_count (app_stop : nat -> bool) (a : app_state) :
  NoDup (map fst (results_by_id a)) ->
  let run := deduplicate_records app_stop a in
  (run.1 + total_records (results_by_id run.2)
   = total_records (results_by_id a))%nat /\
  exists n,
    results_by_id run.2
      = map dedup_entry (take n (results_by_id a)) ++ drop n (results_by_id a).
Proof.
  intros Hnd run. split; [apply deduplicate_records_removed; exact Hnd|].
  destruct (deduplicate_records_any app_stop a Hnd) as (done & rest & Hsplit & Hres & _).
  exists (length done). unfold run.
  rewrite Hres, Hsplit, take_app_length, drop_app_length. reflexivity.
Qed.

(** ** validate_content *)

Lemma odict_set_keys {V} (k : string) (v : V) (d : odict V) :
  k ∈ map fst d -> map fst (odict_set k v d) = map fst d.
Proof.
  induction d as [|[k' v'] d IH]; simpl; intros Hin.
  - apply elem_of_nil in Hin. destruct Hin.
  - destruct (decide (k = k')) as [->|Hne]; [reflexivity|].
    simpl. f_equal. apply IH.
    apply elem_of_cons in Hin as [Heq | Hin]; [contradiction | exact Hin].
Qed.

Lemma repaired_from_refl (a : app_state) : repaired_from a a.
Proof. unfold repaired_from. repeat split; try reflexivity; intros; left; assumption. Qed.

Lemma repaired_from_trans (a1 a2 a3 : app_state) :
  repaired_from a1 a2 -> repaired_from a2 a3 -> repaired_from a1 a3.
Proof.
  intros (A1 & A2 & A3 & A4 & A5 & A6 & A7 & A8) (B1 & B2 & B3 & B4 & B5 & B6 & B7 & B8).
  unfold repaired_from. repeat split; try congruence.
  - intros k recs Hk. destruct (B7 k recs Hk) as [Hold | Hclean]; [|right; exact Hclean].
    apply A7. exact Hold.
  - intros f recs Hf. destruct (B8 f recs Hf) as [Hold | Hclean]; [|right; exact Hclean].
    apply A8. exact Hold.
Qed.

Lemma repaired_from_replace (tree_id file_path : string) (records : list str)
    (a : app_state) :
  tree_id ∈ map fst (results_by_id a) ->
  has_garbled records = false ->
  repaired_from a (replace_records tree_id file_path records a).
Proof.
  intros Hin Hclean. unfold repaired_from, replace_records.
  cbn [results filepath_to_treeid task_queue files processed_files results_by_id
       all_results].
  repeat split; try reflexivity.
  - apply odict_set_keys. exact Hin.
  - intros k recs Hk. destruct (decide (k = tree_id)) as [->|Hne].
    + rewrite odict_get_set_eq in Hk. injection Hk as <-. right. exact Hclean.
    + rewrite odict_get_set_ne in Hk by exact Hne. left. exact Hk.
  - intros f recs Hf. destruct (decide (f = file_path)) as [->|Hne].
    + rewrite lookup_insert_eq in Hf. injection Hf as <-. right. exact Hclean.
    + rewrite lookup_insert_ne in Hf by congruence. left. exact Hf.
Qed.

Section ValidationFacts.
Context {rt : Runtime}.
Variable disk_free : string -> option Z.
Variable stop : nat -> bool.
Variable app_stop : nat -> bool.

Lemma validate_entries_repaired (entries : list (string * list str))
    (a : app_state) (revalidated : nat) :
  (forall kv, kv ∈ entries -> kv.1 ∈ map fst (results_by_id a)) ->
  repaired_from a (validate_entries disk_free stop app_stop entries a revalidated).2.
Proof.
  revert a revalidated.
  induction entries as [|[tree_id records] entries IH]; intros a revalidated Hkeys.
  - apply repaired_from_refl.
  - assert (Hrest : forall a', repaired_from a a' ->
              forall n, repaired_from a
                (validate_entries disk_free stop app_stop entries a' n).2).
    { intros a' Hrep n. apply (repaired_from_trans a a'); [exact Hrep|].
      apply IH. intros kv Hkv.
      destruct Hrep as (_ & _ & _ & _ & _ & -> & _). apply Hkeys. right. exact Hkv. }
    cbn [validate_entries app_poll].
    destruct (app_stop (app_polls a)).
    { cbn [snd]. unfold repaired_from. cbn.
      repeat split; try reflexivity; intros; left; assumption. }
    set (a1 := {| task_queue := task_queue a; results := results a;
                  all_results := all_results a; results_by_id := results_by_id a;
                  filepath_to_treeid := filepath_to_treeid a; temp_dir := temp_dir a;
                  files := files a; processed_files := processed_files a;
                  currently_processing := currently_processing a;
                  processor := processor a; app_polls := S (app_polls a) |}).
    assert (H1 : repaired_from a a1).
    { unfold repaired_from. cbn. repeat split; try reflexivity; intros; left; assumption. }
    destruct (negb (has_garbled records)); [apply Hrest; exact H1|].
    destruct (path_of_tree_id tree_id a1) as [file_path|]; [|apply Hrest; exact H1].
    destruct (bool_decide (file_path = ""%string)); [apply Hrest; exact H1|].
    destruct (process_log (files a1) disk_free stop file_path (processor a1))
      as [[p new_records error|] st].
    + assert (H2 : repaired_from a (set_processor st a1)).
      { unfold repaired_from. cbn. repeat split; try reflexivity; intros; left; assumption. }
      destruct error as [e|]; [apply Hrest; exact H2|].
      destruct (has_garbled new_records) eqn:Hg; [apply Hrest; exact H2|].
      apply Hrest. apply (repaired_from_trans a (set_processor st a1)); [exact H2|].
      apply repaired_from_replace; [|exact Hg].
      apply (Hkeys (tree_id, records)). left.
    + cbn [snd]. unfold repaired_from. cbn.
      repeat split; try reflexivity; intros; left; assumption.
Qed.

(** X17. Whatever happens during [validate_content] (a repair, a failed
    repair, a cancellation, an exception of [process_log]), it keeps the
    keys of [results_by_id] and their order, never touches [self.results]
    (whose records and status stay those of the first pass), the tree
    ids, the queue or the files, and every record list it stores is free
    of U+FFFD. *)
Theorem validate_content_repaired (a : app_state) :
  repaired_from a (validate_content disk_free stop app_stop a).2.
Proof.
  unfold validate_content. apply validate_entries_repaired.
  intros kv Hkv. apply (list_elem_of_fmap_2 fst). exact Hkv.
Qed.

Hypothesis not_stopped : never_stopped stop.

Lemma validate_entries_same (entries : list (string * list str))
    (a : app_state) (revalidated : nat) :
  (forall tree_id records file_path,
      (tree_id, records) ∈ entries ->
      has_garbled records = true ->
      path_of_tree_id tree_id a = Some file_path ->
      exists st,
        (process_log (files a) disk_free stop file_path st).1
          = Returned file_path records None) ->
  (validate_entries disk_free stop app_stop entries a revalidated).1
    = Revalidated revalidated /\
  results_by_id (validate_entries disk_free stop app_stop entries a revalidated).2
    = results_by_id a /\
  all_results (validate_entries disk_free stop app_stop entries a revalidated).2
    = all_results a.
Proof.
  revert a revalidated.
  induction entries as [|[tree_id records] entries IH]; intros a revalidated Hstored.
  - repeat split; reflexivity.
  - cbn [validate_entries app_poll].
    destruct (app_stop (app_polls a)); [repeat split; reflexivity|].
    set (a1 := {| task_queue := task_queue a; results := results a;
                  all_results := all_results a; results_by_id := results_by_id a;
                  filepath_to_treeid := filepath_to_treeid a; temp_dir := temp_dir a;
                  files := files a; processed_files := processed_files a;
                  currently_processing := currently_processing a;
                  processor := processor a; app_polls := S (app_polls a) |}).
    assert (Hnext : forall st,
              (validate_entries disk_free stop app_stop entries
                 (set_processor st a1) revalidated).1 = Revalidated revalidated /\
              results_by_id (validate_entries disk_free stop app_stop entries
                               (set_processor st a1) revalidated).2 = results_by_id a /\
              all_results (validate_entries disk_free stop app_stop entries
                             (set_processor st a1) revalidated).2 = all_results a).
    { intros st. apply (IH (set_processor st a1) revalidated).
      intros t r f Hin Hg Hp. apply (Hstored t r f); [right; exact Hin | exact Hg | exact Hp]. }
    assert (Ha1 : a1 = set_processor (processor a) a1) by reflexivity.
    destruct (has_garbled records) eqn:Hg; cbn [negb].
    2:{ rewrite Ha1. apply Hnext. }
    destruct (path_of_tree_id tree_id a1) as [file_path|] eqn:Hpath.
    2:{ rewrite Ha1. apply Hnext. }
    destruct (bool_decide (file_path = ""%string)).
    { rewrite Ha1. apply Hnext. }
    destruct (Hstored tree_id records file_path ltac:(left) Hg Hpath) as [st0 Hrun].
    pose proof (process_log_state (files a) disk_free stop not_stopped file_path
                  (processor a) st0) as Hstate.
    rewrite Hrun in Hstate.
    change (files a1) with (files a). change (processor a1) with (processor a).
    destruct (process_log (files a) disk_free stop file_path (processor a))
      as [[p new_records error|] st]; cbn [fst] in Hstate; [|discriminate].
    injection Hstate as -> -> ->. rewrite Hg. apply Hnext.
Qed.

(** X18. While the extraction is not being cancelled, [validate_content]
    repairs nothing that [process_log] produced: if every stored list
    that holds U+FFFD is what [process_log] returns for its file,
    processing the file again returns the same list, so the stores are
    left as they are and the count of repaired files is 0. *)
Theorem validate_content_repairs_nothing (a : app_state) :
  (forall tree_id records file_path,
      (tree_id, records) ∈ results_by_id a ->
      has_garbled records = true ->
      path_of_tree_id tree_id a = Some file_path ->
      exists st,
        (process_log (files a) disk_free stop file_path st).1
          = Returned file_path records None) ->
  (validate_content disk_free stop app_stop a).1 = Revalidated 0 /\
  results_by_id (validate_content disk_free stop app_stop a).2 = results_by_id a /\
  all_results (validate_content disk_free stop app_stop a).2 = all_results a.
Proof.
  intros Hstored. unfold validate_content. apply validate_entries_same. exact Hstored.
Qed.

End ValidationFacts.

(** ** The loop of the worker *)

Lemma queue_weight_app (q1 q2 : list task) :
  queue_weight (q1 ++ q2) = (queue_weight q1 + queue_weight q2)%nat.
Proof.
  unfold queue_weight. induction q1 as [|t q1 IH]; simpl; [reflexivity|].
  rewrite IH. lia.
Qed.

Lemma enqueue_files_plain (paths : list string) (queue : list task) :
  (forall f, f ∈ paths -> is_archive_name f = false) ->
  enqueue_files paths queue = queue ++ map (fun f => Process f None) paths.
Proof.
  unfold enqueue_files. revert queue.
  induction paths as [|f paths IH]; intros queue Hplain; simpl.
  - rewrite app_nil_r. reflexivity.
  - rewrite IH by (intros g Hg; apply Hplain; right; exact Hg).
    unfold enqueue_file. rewrite (Hplain f) by left.
    rewrite <- app_assoc. reflexivity.
Qed.

Section WorkerLoopFacts.
Context {rt : Runtime}.
Variable disk_free : string -> option Z.
Variable stop : nat -> bool.
Variable app_stop : nat -> bool.

Lemma worker_task_effect (t : task) (a : app_state) :
  let a' := worker_task disk_free stop t a in
  (queue_weight (task_queue a') + 1 <= queue_weight (task_queue a) + task_weight t)%nat /\
  (processed_files a' + queue_weight (task_queue a')
     <= processed_files a + queue_weight (task_queue a) + task_weight t)%nat.
Proof.
  cbv zeta. destruct t as [gz_path | file_path source_archive]; cbn [worker_task task_weight].
  - pose proof (extract_gz_file_stores disk_free gz_path a) as Hs.
    pose proof (extract_gz_file_queue disk_free gz_path a) as Hq.
    cbv zeta in Hs.
    destruct (extract_gz_file disk_free gz_path a) as [[[extracted|] error] a1];
      cbn [fst snd] in Hs, Hq |- *; destruct Hs as (_ & _ & _ & _ & Hp & _).
    + destruct (bool_decide (extracted = ""%string)).
      * rewrite Hq, Hp. lia.
      * cbn [put_task task_queue processed_files].
        rewrite queue_weight_app, Hq, Hp. unfold queue_weight. cbn. lia.
    + rewrite Hq, Hp. lia.
  - destruct (process_log (files a) disk_free stop file_path (processor a))
      as [[p records error|] st]; unfold queue_weight; cbn; lia.
Qed.

Lemma worker_step (fuel : nat) (a : app_state) :
  worker disk_free stop app_stop (S fuel) a =
    let (stopped, a1) := app_poll app_stop a in
    if stopped then Some a1
    else match task_queue a1 with
         | [] => Some a1
         | t :: _ => worker disk_free stop app_stop fuel
                       (worker_task disk_free stop t (take_task a1))
         end.
Proof. reflexivity. Qed.

(** X19. The loop of the worker ends: a queue gives it at most one task
    per process task and two per extract task. When the app's stop flag
    is never set it leaves the queue empty, and it never counts more
    files as processed than the queue could give. *)
Theorem worker_terminates (fuel : nat) (a : app_state) :
  (queue_weight (task_queue a) < fuel)%nat ->
  exists a',
    worker disk_free stop app_stop fuel a = Some a' /\
    (never_stopped app_stop -> task_queue a' = []) /\
    (processed_files a' <= processed_files a + queue_weight (task_queue a))%nat.
Proof.
  revert a. induction fuel as [|fuel IH]; intros a Hfuel; [lia|].
  rewrite worker_step. unfold app_poll. destruct (app_stop (app_polls a)) eqn:Hstop.
  - eexists. split; [reflexivity|]. split.
    + intros Hn. rewrite Hn in Hstop. discriminate.
    + cbn. lia.
  - cbn [task_queue]. destruct (task_queue a) as [|t queue] eqn:Hq.
    + eexists. split; [reflexivity|]. split; [intros _; reflexivity | cbn; lia].
    + match goal with
      | |- context [worker_task disk_free stop t ?a1] =>
          pose proof (worker_task_effect t a1) as He;
          destruct (IH (worker_task disk_free stop t a1)) as (a' & Hrun & Hempty & Hcount)
      end.
      * cbv zeta in He. cbn [take_task task_queue tail] in He |- *.
        change (queue_weight (t :: queue))
          with (task_weight t + queue_weight queue)%nat in Hfuel. lia.
      * exists a'. split; [exact Hrun|]. split; [exact Hempty|].
        cbv zeta in He.
        cbn [take_task task_queue tail processed_files] in He, Hcount |- *.
        change (queue_weight (t :: queue))
          with (task_weight t + queue_weight queue)%nat. lia.
Qed.

Hypothesis not_stopped : never_stopped app_stop.

Lemma worker_plain_queue (paths : list string) (a : app_state) :
  task_queue a = map (fun f => Process f None) paths ->
  (forall f, f ∈ paths -> files a !! f <> None) ->
  exists a',
    worker disk_free stop app_stop (S (length paths)) a = Some a' /\
    task_queue a' = [] /\
    processed_files a' = (processed_files a + length paths)%nat /\
    files a' = files a /\
    (forall f, f ∈ paths ->
       exists records,
         all_results a' !! f = Some records /\
         odict_get f (results_by_id a') = Some records /\
         odict_get f (filepath_to_treeid a') = Some f) /\
    (forall g, g ∉ paths ->
       all_results a' !! g = all_results a !! g /\
       odict_get g (results_by_id a') = odict_get g (results_by_id a) /\
       odict_get g (filepath_to_treeid a') = odict_get g (filepath_to_treeid a)).
Proof.
  revert a. induction paths as [|f paths IH]; intros a Hq Hfiles.
  - cbn [length]. rewrite worker_step. unfold app_poll.
    rewrite not_stopped. cbn [task_queue]. rewrite Hq.
    eexists. split; [reflexivity|]. cbn.
    split; [reflexivity|]. split; [lia|]. split; [reflexivity|]. split.
    + intros f Hf. apply elem_of_nil in Hf. destruct Hf.
    + intros g _. repeat split; reflexivity.
  - cbn [length]. rewrite worker_step. unfold app_poll.
    rewrite not_stopped. cbn [task_queue].
    rewrite Hq. cbn [map worker_task take_task files processor].
    pose proof (process_log_outcome (files a) disk_free stop f (processor a)) as Ho.
    destruct (process_log (files a) disk_free stop f (processor a))
      as [[p records error|] st]; cbn [fst] in Ho.
    2:{ destruct Ho as [_ Hnone]. exfalso. apply (Hfiles f); [left | exact Hnone]. }
    match goal with
    | |- context [worker disk_free stop app_stop (S (length paths)) ?a2] =>
        destruct (IH a2) as (a' & Hrun & Hempty & Hcount & Hfs & Hin & Hout)
    end.
    { reflexivity. }
    { intros g Hg. cbn. apply Hfiles. right. exact Hg. }
    exists a'. split; [exact Hrun|]. split; [exact Hempty|].
    cbn [store_result take_task processed_files files all_results results_by_id
         filepath_to_treeid truthy_archive] in Hcount, Hfs, Hout.
    split; [lia|]. split; [exact Hfs|]. split.
    + intros g Hg. destruct (decide (g ∈ paths)) as [Hgin | Hgout]; [apply Hin; exact Hgin|].
      assert (g = f) as -> by (apply elem_of_cons in Hg as [Hg | Hg]; [exact Hg | contradiction]).
      destruct (Hout f Hgout) as (H1 & H2 & H3).
      exists records. rewrite H1, H2, H3, lookup_insert_eq, !odict_get_set_eq.
      repeat split; reflexivity.
    + intros g Hg.
      assert (Hgf : g <> f) by (intros ->; apply Hg; left).
      assert (Hgp : g ∉ paths) by (intros Hin'; apply Hg; right; exact Hin').
      destruct (Hout g Hgp) as (H1 & H2 & H3).
      rewrite H1, H2, H3, lookup_insert_ne by congruence.
      rewrite !odict_get_set_ne by exact Hgf. repeat split; reflexivity.
Qed.

(** X20. A run over plain log files that can all be opened: after the
    queueing loop of [process_files] and the loop of the worker, with the
    app's stop flag never set, the queue is empty, every file is counted
    as processed, and for each file [all_results] and [results_by_id]
    hold the same record list under the file's own path; entries of other
    paths are as before, and no file was written. *)
Theorem worker_processes_plain_files (paths : list string) (a : app_state) :
  task_queue a = enqueue_files paths [] ->
  (forall f, f ∈ paths -> is_archive_name f = false /\ files a !! f <> None) ->
  exists a',
    worker disk_free stop app_stop (S (length paths)) a = Some a' /\
    task_queue a' = [] /\
    processed_files a' = (processed_files a + length paths)%nat /\
    files a' = files a /\
    (forall f, f ∈ paths ->
       exists records,
         all_results a' !! f = Some records /\
         odict_get f (results_by_id a') = Some records /\
         odict_get f (filepath_to_treeid a') = Some f) /\
    (forall g, g ∉ paths ->
       all_results a' !! g = all_results a !! g /\
       odict_get g (results_by_id a') = odict_get g (results_by_id a) /\
       odict_get g (filepath_to_treeid a') = odict_get g (filepath_to_treeid a)).
Proof.
  intros Hq Hpaths. apply worker_plain_queue.
  - rewrite Hq. apply (enqueue_files_plain paths []).
    intros f Hf. apply (Hpaths f Hf).
  - intros f Hf. apply (Hpaths f Hf).
Qed.

End WorkerLoopFacts.

(** ** A fallback pass that is cancelled *)

Section CancelledPass.
Context {rt : Runtime}.
Variable fs : gmap string bytes.
Variable stop : nat -> bool.

Lemma backup_pass_loop_broken (before : list str) (line : str) (after : list str)
    (chat_records : list str) (line_errors : N) (st : pstate) :
  (forall i, (i < length before)%nat -> stop (polls st + i)%nat = false) ->
  line_errors + garbled before <= 50 ->
  stop (polls st + length before)%nat = true ->
  backup_pass_loop stop (before ++ line :: after) chat_records line_errors st
    = (PassBroken
         (fold_left (fun recs l => scan_prefixes prefixes l recs) before chat_records),
       {| polls := S (polls st + length before); trace := trace st |}).
Proof.
  revert chat_records line_errors st.
  induction before as [|l before IH]; intros chat_records line_errors st Hrun Herr Hstop.
  - simpl in *. rewrite Nat.add_0_r in *. rewrite Hstop. reflexivity.
  - simpl app. cbn [backup_pass_loop poll fold_left].
    rewrite <- (Nat.add_0_r (polls st)) at 1.
    rewrite (Hrun 0%nat) by (simpl; lia).
    rewrite garbled_cons in Herr.
    set (st1 := {| polls := S (polls st); trace := trace st |}).
    assert (Hrun' : forall i, (i < length before)%nat -> stop (polls st1 + i)%nat = false).
    { intros i Hi. replace (polls st1 + i)%nat with (polls st + S i)%nat by (simpl; lia).
      apply Hrun. simpl. lia. }
    assert (Hstop' : stop (polls st1 + length before)%nat = true).
    { replace (polls st1 + length before)%nat
        with (polls st + length (l :: before))%nat by (simpl; lia).
      exact Hstop. }
    destruct (has_replacement l).
    + assert ((50 <? line_errors + 1) = false) as -> by (apply N.ltb_ge; lia).
      rewrite IH; [|assumption|lia|assumption].
      simpl. do 2 f_equal. lia.
    + rewrite IH; [|assumption|lia|assumption].
      simpl. do 2 f_equal. lia.
Qed.

Lemma backup_encodings_cons :
  exists rest, backup_encodings = "utf-8"%string :: "gbk"%string :: rest.
Proof. eexists. reflexivity. Qed.

Lemma backup_loop_cancelled_pass (e next : string) (rest : list string)
    (path : string) (data : bytes) (st : pstate)
    (before : list str) (line : str) (after : list str) :
  fs !! path = Some data ->
  ts_lines (text_lines e data) = before ++ line :: after ->
  stop (polls st) = false ->
  (forall i, (i < length before)%nat -> stop (S (polls st) + i)%nat = false) ->
  garbled before <= 50 ->
  stop (S (polls st) + length before)%nat = true ->
  stop (S (S (polls st) + length before)) = true ->
  chat_lines before <> [] ->
  best_records (backup_loop fs stop path (e :: next :: rest) no_best st).1
    = chat_lines before.
Proof.
  intros Hf Hlines H1 Hrun Hgarbled Hbreak Hstill Hne.
  cbn [backup_loop poll]. rewrite H1.
  unfold backup_pass. rewrite Hf, Hlines.
  rewrite backup_pass_loop_broken; [|exact Hrun|lia|exact Hbreak].
  cbn [polls trace record_event]. fold (chat_lines before).
  destruct (chat_lines before) as [|r rs] eqn:Hcl; [congruence|].
  cbn [no_best best_records length Nat.ltb Nat.leb attempts app].
  cbn [backup_loop poll polls]. rewrite Hstill. reflexivity.
Qed.

(** X21. Cancelling inside a fallback pass is reported as a success with
    a partial list: when the stop flag is first seen at a line of the
    pass of the first candidate, after the lines [before], and is still
    set at the next poll, [try_backup_encodings] returns the chat lines of
    [before] with no error, provided there is one. (The line loop of
    [process_log] returns the stopped message and no record instead.) *)
Theorem cancelled_pass_returns_partial (path : string) (data : bytes)
    (st : pstate) (before : list str) (line : str) (after : list str) :
  fs !! path = Some data ->
  ts_lines (text_lines "utf-8" data) = before ++ line :: after ->
  (forall i, (i < 2 + length before)%nat -> stop (polls st + i)%nat = false) ->
  garbled before <= 50 ->
  stop (polls st + 2 + length before)%nat = true ->
  stop (polls st + 3 + length before)%nat = true ->
  chat_lines before <> [] ->
  (try_backup_encodings fs stop path st).1
    = Returned path (chat_lines before) None.
Proof.
  intros Hf Hlines Hrun Hgarbled Hbreak Hstill Hne.
  assert (H0 : stop (polls st) = false).
  { rewrite <- (Nat.add_0_r (polls st)). apply Hrun. lia. }
  rewrite (try_backup_encodings_running fs stop path data st H0 Hf).
  destruct backup_encodings_cons as (rest & ->).
  assert (Hbest : best_records
            (backup_loop fs stop path ("utf-8"%string :: "gbk"%string :: rest)
               no_best (poll stop st).2).1 = chat_lines before).
  { apply (backup_loop_cancelled_pass "utf-8" "gbk" rest path data
             (poll stop st).2 before line after Hf Hlines); cbn [poll snd polls].
    - replace (S (polls st)) with (polls st + 1)%nat by lia. apply Hrun. lia.
    - intros i Hi.
      replace (S (S (polls st)) + i)%nat with (polls st + (2 + i))%nat by lia.
      apply Hrun. lia.
    - exact Hgarbled.
    - replace (S (S (polls st)) + length before)%nat
        with (polls st + 2 + length before)%nat by lia.
      exact Hbreak.
    - replace (S (S (S (polls st)) + length before))
        with (polls st + 3 + length before)%nat by lia.
      exact Hstill.
    - exact Hne. }
  remember (backup_loop fs stop path ("utf-8"%string :: "gbk"%string :: rest)
              no_best (poll stop st).2) as final eqn:E.
  clear E. destruct final as [best st2]. cbn [fst] in Hbest |- *.
  unfold backup_result. rewrite Hbest.
  destruct (chat_lines before); [congruence | reflexivity].
Qed.

End CancelledPass.

(** ** The I/O of a call of process_log *)

Lemma bytes_read_app (events : list io_event) (st st' : pstate) :
  trace st' = events ++ trace st ->
  forallb (fun e => negb (is_binary_read e)) events = true ->
  bytes_read st' = bytes_read st.
Proof.
  unfold bytes_read. intros -> Hall.
  induction events as [|e events IH]; [reflexivity|].
  simpl in Hall. apply andb_true_iff in Hall as [He Hall].
  simpl. rewrite IH by exact Hall. destruct e; [discriminate | reflexivity].
Qed.

Lemma text_opens_reads_only (st st' : pstate) :
  reads_only st st' -> text_opens st' = text_opens st.
Proof.
  intros (events & Ht & Hall). unfold text_opens. rewrite Ht. clear Ht.
  induction events as [|e events IH]; [reflexivity|].
  simpl in Hall. apply andb_true_iff in Hall as [He Hall].
  simpl. rewrite filter_cons.
  destruct (decide (is_binary_read e = false)) as [Hf|_]; [congruence|].
  apply IH. exact Hall.
Qed.

Lemma primary_loop_trace (stop : nat -> bool) (lines : list str)
    (chat_records : list str) (line_errors : N) (st : pstate) :
  trace (primary_loop stop lines chat_records line_errors st).2 = trace st.
Proof.
  revert chat_records line_errors st.
  induction lines as [|l lines IH]; intros chat_records line_errors st;
    cbn [primary_loop poll]; [reflexivity|].
  destruct (stop (polls st)); [reflexivity|].
  destruct (has_replacement l); [destruct (100 <? line_errors + 1)|];
    first [reflexivity | rewrite IH; reflexivity].
Qed.

Section IOFacts.
Context {rt : Runtime}.
Variable fs : gmap string bytes.
Variable disk_free : string -> option Z.
Variable stop : nat -> bool.

Lemma backup_loop_opens (path : string) (encodings : list string)
    (best : backup_state) (st : pstate) :
  exists events,
    trace (backup_loop fs stop path encodings best st).2 = events ++ trace st /\
    forallb (fun e => negb (is_binary_read e)) events = true /\
    (length events <= length encodings)%nat.
Proof.
  revert best st.
  induction encodings as [|e rest IH]; intros best st.
  - exists []. split; [reflexivity|]. split; [reflexivity | simpl; lia].
  - cbn [backup_loop poll]. destruct (stop (polls st)).
    + exists []. split; [reflexivity|]. split; [reflexivity | simpl; lia].
    + pose proof (backup_pass_trace fs stop path e
                    {| polls := S (polls st); trace := trace st |}) as Ht.
      destruct (backup_pass fs stop path e _) as [result st2].
      cbn [snd trace] in Ht.
      match goal with
      | |- context [backup_loop fs stop path rest ?b st2] =>
          destruct (IH b st2) as (events & Hev & Hall & Hlen)
      end.
      exists (events ++ [OpenText path e]). split; [|split].
      * rewrite Hev, Ht, <- app_assoc. reflexivity.
      * rewrite forallb_app, Hall. reflexivity.
      * rewrite length_app. simpl. lia.
Qed.

Lemma try_backup_encodings_io (path : string) (st : pstate) :
  bytes_read (try_backup_encodings fs stop path st).2 = bytes_read st /\
  (text_opens (try_backup_encodings fs stop path st).2
     <= text_opens st + length backup_encodings)%nat.
Proof.
  unfold try_backup_encodings, poll. destruct (stop (polls st)).
  { cbn [snd]. split; [reflexivity | unfold text_opens; cbn [trace]; lia]. }
  destruct (fs !! path) as [data|].
  2:{ cbn [snd]. split; [reflexivity | unfold text_opens; cbn [trace]; lia]. }
  destruct (backup_loop_opens path backup_encodings no_best
              {| polls := S (polls st); trace := trace st |})
    as (events & Hev & Hall & Hlen).
  remember (backup_loop fs stop path backup_encodings no_best
              {| polls := S (polls st); trace := trace st |}) as final eqn:E.
  clear E. destruct final as [best st2]. cbn [snd trace] in Hev |- *. split.
  - rewrite (bytes_read_app events {| polls := S (polls st); trace := trace st |} st2 Hev Hall).
    reflexivity.
  - rewrite (text_opens_app events {| polls := S (polls st); trace := trace st |} st2 Hev Hall).
    unfold text_opens. cbn [trace]. lia.
Qed.

Lemma extract_records_io (path encoding : string) (data : bytes) (st : pstate) :
  bytes_read (extract_records fs disk_free stop path encoding data st).2
    = bytes_read st /\
  (text_opens (extract_records fs disk_free stop path encoding data st).2
     <= text_opens st + 1 + length backup_encodings)%nat.
Proof.
  unfold extract_records.
  destruct (disk_free (dirname path)) as [free|]; [|cbn [snd]; split; [reflexivity | lia]].
  destruct (free <? min_free_bytes)%Z; [cbn [snd]; split; [reflexivity | lia]|].
  pose proof (primary_loop_trace stop (ts_lines (text_lines encoding data)) [] 0
                (record_event (OpenText path encoding) st)) as Ht.
  destruct (primary_loop stop _ _ _ _) as [exit st2]. cbn [snd] in Ht.
  assert (Hb : bytes_read st2 = bytes_read st).
  { unfold bytes_read. rewrite Ht. reflexivity. }
  assert (Ho : text_opens st2 = S (text_opens st)).
  { unfold text_opens. rewrite Ht. reflexivity. }
  pose proof (try_backup_encodings_io path st2) as [Hb' Ho'].
  destruct exit as [recs| |].
  - destruct (ts_end _); cbn [snd]; try (split; [exact Hb | lia]).
    split; [congruence | lia].
  - cbn [snd]. split; [exact Hb | lia].
  - destruct (try_backup_encodings fs stop path st2) as [[p r e|] st3];
      cbn [snd] in Hb', Ho' |- *; split; first [congruence | lia].
Qed.

(** X22. The I/O of one call of [process_log], whatever the stop flag
    does: in binary mode it reads at most 50004 bytes for the detection
    plus the size of the file for the line count; it opens the file for
    decoding at most 20 times (once for the primary pass, once per
    fallback candidate). *)
Theorem process_log_io_bound (path : string) (st : pstate) :
  bytes_read (process_log fs disk_free stop path st).2
    <= bytes_read st + 50004 + file_size fs path /\
  (text_opens (process_log fs disk_free stop path st).2 <= text_opens st + 20)%nat.
Proof.
  unfold file_size. destruct (stop (polls st)) eqn:Hstop.
  { unfold process_log, poll. rewrite Hstop. cbn [snd].
    unfold bytes_read, text_opens. cbn [trace]. split; lia. }
  destruct (fs !! path) as [data|] eqn:Hf.
  2:{ rewrite (process_log_missing fs disk_free stop path st Hstop Hf).
      unfold poll, bytes_read, text_opens. cbn [snd trace]. split; lia. }
  rewrite (process_log_running disk_free stop fs path data st Hstop Hf).
  set (st0 := (poll stop st).2).
  assert (Hb0 : bytes_read st0 = bytes_read st) by reflexivity.
  assert (Ho0 : text_opens st0 = text_opens st) by reflexivity.
  pose proof (detect_encoding_reads fs stop path st0) as Hr1.
  assert (Hb1 : bytes_read (detect_encoding fs stop path st0).2 <= bytes_read st0 + 50004).
  { unfold detect_encoding. rewrite Hf.
    pose proof (read_prefix_length 4 data) as Hlen. cbv zeta.
    destruct (match_bom _ _).
    - cbn [snd]. rewrite bytes_read_record. lia.
    - pose proof (detect_by_chardet_bytes fs stop path
                    (record_event (ReadBinary path
                       (N.of_nat (length (read_prefix 4 data)))) st0)) as Hb.
      rewrite bytes_read_record in Hb. lia. }
  set (st1 := (detect_encoding fs stop path st0).2) in *.
  pose proof (count_lines_reads fs stop path st1) as Hr2.
  assert (Hb2 : bytes_read (count_lines fs stop path st1).2
                  <= bytes_read st1 + N.of_nat (length data)).
  { unfold count_lines. rewrite Hf.
    pose proof (count_lines_loop_bounds stop path
                  (file_chunks (1024 * 1024) data) 0 st1) as [_ H2].
    rewrite file_chunks_concat in H2. exact H2. }
  set (st2 := (count_lines fs stop path st1).2) in *.
  pose proof (extract_records_io path (detect_encoding fs stop path st0).1 data st2)
    as [Hb3 Ho3].
  rewrite (text_opens_reads_only _ _ Hr2), (text_opens_reads_only _ _ Hr1) in Ho3.
  split; [lia|]. change (length backup_encodings) with 19%nat in Ho3. lia.
Qed.

End IOFacts.

(** ** validate_and_deduplicate *)

Section PostProcessing.
Context {rt : Runtime}.
Variable disk_free : string -> option Z.
Variable stop : nat -> bool.
Variable app_stop : nat -> bool.
Hypothesis not_stopped : never_stopped stop.
Hypothesis app_not_stopped : never_stopped app_stop.

(** X23. The post-processing of a run that is not cancelled, on stores
    that hold what [process_log] returned: validation repairs nothing,
    and the store ends as the deduplication of each of its record lists,
    keys and order kept; the count reported is the number of records
    removed. *)
Theorem validate_and_deduplicate_store (a : app_state) :
  NoDup (map fst (results_by_id a)) ->
  (forall tree_id records file_path,
      (tree_id, records) ∈ results_by_id a ->
      has_garbled records = true ->
      path_of_tree_id tree_id a = Some file_path ->
      exists st,
        (process_log (files a) disk_free stop file_path st).1
          = Returned file_path records None) ->
  let run := validate_and_deduplicate disk_free stop app_stop a in
  results_by_id run.2 = map dedup_entry (results_by_id a) /\
  exists removed,
    run.1 = Some (0%nat, Some removed) /\
    (removed + total_records (results_by_id run.2)
     = total_records (results_by_id a))%nat.
Proof.
  intros Hnd Hstored run. unfold run, validate_and_deduplicate.
  destruct (validate_entries_same disk_free stop app_stop not_stopped
              (results_by_id a) a 0%nat Hstored) as (Hv & Hstore & _).
  fold (validate_content disk_free stop app_stop a) in Hv, Hstore.
  destruct (validate_content disk_free stop app_stop a) as [v a1].
  cbn [fst snd] in Hv, Hstore. subst v.
  unfold app_poll. rewrite app_not_stopped.
  set (a2 := {| task_queue := task_queue a1; results := results a1;
                all_results := all_results a1; results_by_id := results_by_id a1;
                filepath_to_treeid := filepath_to_treeid a1; temp_dir := temp_dir a1;
                files := files a1; processed_files := processed_files a1;
                currently_processing := currently_processing a1;
                processor := processor a1; app_polls := S (app_polls a1) |}).
  assert (Hnd2 : NoDup (map fst (results_by_id a2))) by (cbn; rewrite Hstore; exact Hnd).
  pose proof (deduplicate_records_store app_stop app_not_stopped a2 Hnd2) as Hd.
  pose proof (deduplicate_records_removed app_stop a2 Hnd2) as Hc.
  destruct (deduplicate_records app_stop a2) as [removed a3].
  cbn [fst snd] in Hd, Hc |- *.
  cbn [results_by_id a2] in Hd, Hc. unfold a2 in Hd, Hc. cbn [results_by_id] in Hd, Hc.
  rewrite Hstore in Hd, Hc. split; [exact Hd|].
  exists removed. split; [reflexivity | exact Hc].
Qed.

End PostProcessing.

(* ================================================================== *)
(** * Examples *)

Section Examples.
Import ExampleRuntime.
Import ExampleData.

Lemma first_occurrence_intro (p s pre post : str) :
  split_once s p = [pre; post] -> first_occurrence p s pre post.
Proof.
  revert pre. induction s as [|c s IH]; intros pre Hsplit.
  - simpl in Hsplit. destruct (startswith [] p) eqn:Hsw; [|discriminate].
    injection Hsplit as <- <-.
    apply startswith_spec in Hsw as [post' Hsw].
    destruct p; [|simpl in Hsw; discriminate]. split; [reflexivity|]. intros; simpl; lia.
  - rewrite split_once_cons in Hsplit.
    destruct (startswith (c :: s) p) eqn:Hsw.
    + injection Hsplit as <- <-.
      apply startswith_spec in Hsw as [post' Hsw]. split.
      * rewrite Hsw at 1. simpl. f_equal.
        rewrite Hsw, drop_app_length. reflexivity.
      * intros; simpl; lia.
    + destruct (split_once s p) as [|head [|after tail]] eqn:Hrec; try discriminate.
      destruct tail; [|discriminate].
      injection Hsplit as <- <-.
      destruct (IH head eq_refl) as [Heq Hmin]. split.
      * simpl. rewrite <- Heq. reflexivity.
      * intros [|d pre'] post' Hocc.
        -- simpl in Hocc.
           assert (startswith (c :: s) p = true)
             by (apply startswith_spec; exists post'; exact Hocc).
           congruence.
        -- simpl in Hocc. injection Hocc as _ Hocc.
           specialize (Hmin pre' post' Hocc). simpl. lia.
Qed.

(** The scenario line is a chat line: the first listed prefix occurs in
    it and "<Alice> hello" follows. *)
Lemma scan_prefixes_rule_witness :
  scan_prefixes prefixes alice_line [] = [str_of_string alice].
Proof.
  pose (p := str_of_string
               "[Server thread/INFO] [net.minecraft.server.MinecraftServer/]:").
  pose (pre := str_of_string "[12:00:00] ").
  pose (post := str_of_string " <Alice> hello" ++ [chr_lf]).
  assert (Hfo : first_occurrence p alice_line pre post)
    by (apply first_occurrence_intro; vm_compute; reflexivity).
  assert (Hp : first_listed_prefix prefixes p alice_line).
  { exists [], [str_of_string "[Server thread/INFO] [Console/]:"].
    split; [reflexivity|]. split.
    - apply contains_spec. vm_compute. reflexivity.
    - intros q Hq. inversion Hq. }
  assert (Hc : starts_with_lt_or_bracket (strip post)).
  { apply is_chat_content_spec. vm_compute. reflexivity. }
  rewrite (proj1 (scan_prefixes_rule alice_line []) p pre post Hp Hfo Hc).
  vm_compute. reflexivity.
Defined.

(** With 50 MiB free the log is refused, after 178 bytes of it have been
    read: 4 by the mark check, 87 by chardet's sample, 87 by the line
    count. *)
Lemma process_log_reads_before_disk_check :
  (process_log log_files scarce never log_path initial_pstate).1
    = Returned log_path [] (Some (MsgDiskSpace (50 * 1024 * 1024))) /\
  bytes_read (process_log log_files scarce never log_path initial_pstate).2 = 178 /\
  opened_for_text (process_log log_files scarce never log_path initial_pstate).2 = false.
Proof. repeat split; vm_compute; reflexivity. Qed.

Lemma process_log_disk_check_witness :
  process_log log_files scarce never log_path initial_pstate
    = (Returned log_path [] (Some (MsgDiskSpace (50 * 1024 * 1024))),
       (count_lines log_files never log_path
          (detect_encoding log_files never log_path
             (poll never initial_pstate).2).2).2).
Proof.
  apply (process_log_disk_check log_files scarce never log_path alice_log
           (50 * 1024 * 1024)%Z initial_pstate).
  - reflexivity.
  - vm_compute. reflexivity.
  - reflexivity.
  - vm_compute. reflexivity.
Defined.

(** The stop flag is set when the first line of the log is polled: the
    result is the stopped message with no record, and the worker files it
    under status failed. *)
Lemma stopped_result_is_stored_as_failed :
  (process_log log_files plenty (stop_from 2) log_path initial_pstate).1
    = Returned log_path [] (Some MsgStopped) /\
  results (worker_task plenty (stop_from 2) (Process log_path None)
             (app_with log_files)) !! log_path
    = Some {| r_records := []; r_error := Some MsgStopped;
              r_status := StatusFailed; r_source_archive := None |}.
Proof. split; vm_compute; reflexivity. Qed.

Lemma stopped_extraction_is_recorded_failed_witness :
  r_status <$> results (worker_task plenty (stop_from 2) (Process log_path None)
                          (app_with log_files)) !! log_path
    = Some StatusFailed.
Proof.
  rewrite (proj2 (stopped_extraction_is_recorded_failed plenty (stop_from 2)
                    (app_with log_files) log_path None alice_log
                    (2 * min_free_bytes)%Z [] alice_line []
                    eq_refl
                    ltac:(vm_compute; reflexivity)
                    eq_refl
                    ltac:(vm_compute; discriminate)
                    ltac:(vm_compute; reflexivity)
                    ltac:(intros i Hi; inversion Hi)
                    ltac:(vm_compute; discriminate)
                    ltac:(vm_compute; reflexivity))).
  reflexivity.
Defined.

(** On the sample [E9] the code selects latin1: utf-8 decodes it to
    nothing when invalid bytes are dropped. With invalid bytes replaced,
    as the specification has it, utf-8 scores 1.0 first and wins. *)
Lemma select_best_encoding_drops_invalid_bytes :
  (select_best_encoding never [xe9] initial_pstate).1 = "latin1"%string /\
  select_best_encoding_replacing [xe9] = "utf-8"%string /\
  bytes_decode "utf-8" Ignore [xe9] = Some [] /\
  bytes_decode "utf-8" Replace [xe9] = Some [chr_replacement].
Proof. repeat split; vm_compute; reflexivity. Qed.

Lemma select_best_encoding_rule_witness :
  exists i s,
    examined never 0 backup_encodings !! i
      = Some (select_best_encoding never [xe9] initial_pstate).1 /\
    candidate_score Ignore [xe9] (select_best_encoding never [xe9] initial_pstate).1
      = Some s /\
    b64_ltb b64_zero s = true /\
    (forall j e sj, examined never 0 backup_encodings !! j = Some e ->
                    candidate_score Ignore [xe9] e = Some sj ->
                    b64_ltb s sj = false) /\
    (forall j e sj, (j < i)%nat ->
                    examined never 0 backup_encodings !! j = Some e ->
                    candidate_score Ignore [xe9] e = Some sj ->
                    SFleb s sj = false).
Proof.
  apply (proj2 (proj2 (select_best_encoding_rule never [xe9] initial_pstate))).
  exists "latin1"%string, b64_one. repeat split.
  - vm_compute. do 5 right. left.
Defined.

(** Every fallback candidate is tried on the log when nothing stops the
    run. *)
Lemma fallback_picks_longest_witness :
  backup_attempts log_files never log_path initial_pstate
    = map (fun e => (e, candidate_records e alice_log)) backup_encodings.
Proof.
  apply (proj2 (fallback_picks_longest log_files never log_path initial_pstate)
           alice_log).
  - intros k. reflexivity.
  - vm_compute. reflexivity.
Defined.

(** The stop flag is seen before the second candidate: the record that
    utf-8 found is returned with no error. *)
Lemma cancelled_fallback_returns_best_witness :
  (try_backup_encodings log_files (stop_at 3) log_path initial_pstate).1
    = Returned log_path [str_of_string alice] None.
Proof.
  rewrite (cancelled_fallback_returns_best log_files (stop_at 3) log_path alice_log
             initial_pstate ["utf-8"%string] "gbk"%string
             (drop 2 backup_encodings)
             (backup_loop log_files (stop_at 3) log_path ["utf-8"%string] no_best
                (poll (stop_at 3) initial_pstate).2).1
             (backup_loop log_files (stop_at 3) log_path ["utf-8"%string] no_best
                (poll (stop_at 3) initial_pstate).2).2
             eq_refl
             ltac:(vm_compute; reflexivity)
             eq_refl
             ltac:(vm_compute; reflexivity)
             ltac:(vm_compute; reflexivity)
             ltac:(vm_compute; discriminate)
             ltac:(vm_compute; reflexivity)).
  vm_compute. reflexivity.
Defined.

(** chat.log.gz: the worker queues the member chat.log with the
    archive's path, and the member's result goes under the archive's
    path. *)
Lemma archive_member_attribution_witness :
  task_queue (worker_task plenty never (Extract archive_path) (app_with archive_files))
    = task_queue (app_with archive_files) ++ [Process member_path (Some archive_path)] /\
  basename member_path = "chat.log"%string.
Proof.
  assert (Harch : is_archive_name archive_path = true) by (vm_compute; reflexivity).
  assert (Hex : extract_gz_file plenty archive_path (app_with archive_files)
                = ((Some member_path, None),
                   (extract_gz_file plenty archive_path (app_with archive_files)).2))
    by (vm_compute; reflexivity).
  assert (Hbase : basename archive_path = "chat.log.gz"%string)
    by (vm_compute; reflexivity).
  pose proof (archive_member_attribution plenty never (app_with archive_files)
                archive_path Harch) as (_ & Hqueue & _ & _ & Hname).
  split.
  - exact (Hqueue _ _ _ Hex).
  - exact (proj2 (Hname Hbase) _ _ _ Hex).
Defined.

(** The member of chat.log.gz is processed: its records are stored under
    the archive's path and nothing is stored under the member's path. *)
Example member_result_goes_to_archive :
  let queued := worker_task plenty never (Extract archive_path) (app_with archive_files) in
  let done := worker_task plenty never (Process member_path (Some archive_path)) queued in
  results_by_id done = [(archive_path, [])] /\
  filepath_to_treeid done = [(member_path, archive_path)].
Proof. split; vm_compute; reflexivity. Qed.

(** A log without a chat line gives no record and status success. *)
Example no_matching_line_is_success :
  results (worker_task plenty never (Process log_path None)
             (app_with {[ log_path := bytes_of_string "[12:00:00] [Server thread/INFO]: Done" ]}))
    !! log_path
    = Some {| r_records := []; r_error := None; r_status := StatusSuccess;
              r_source_archive := None |}.
Proof. vm_compute. reflexivity. Qed.

Example deduplicate_keeps_first :
  deduplicate [3; 1; 3; 2; 1] = [3; 1; 2].
Proof. vm_compute. reflexivity. Qed.

(** ** Examples of the further properties *)

(** The line feed of the scenario log is counted and its 87 bytes are
    read. *)
Lemma count_lines_bounds_witness :
  (count_lines log_files never log_path initial_pstate).1 = 1 /\
  bytes_read (count_lines log_files never log_path initial_pstate).2 = 87.
Proof.
  assert (Hf : log_files !! log_path = Some alice_log) by (vm_compute; reflexivity).
  destruct (proj2 (count_lines_bounds log_files never log_path initial_pstate)
              alice_log Hf) as (_ & _ & Hnever).
  destruct (Hnever (fun _ => eq_refl)) as [Hcount Hread].
  split; [exact Hcount | exact Hread].
Defined.

(** Behind the utf-8 mark the log is detected as utf-8 from a read of
    four bytes. *)
Lemma detect_encoding_bom_witness :
  detect_encoding marked_files never log_path initial_pstate
    = ("utf-8"%string, record_event (ReadBinary log_path 4) initial_pstate).
Proof.
  assert (Hin : ([xef; xbb; xbf], "utf-8"%string) ∈ bom_encodings) by left.
  assert (Hne : "utf-8"%string <> "utf-32-le"%string) by discriminate.
  assert (Hf : (marked_files !! log_path : option bytes)
                 = Some ([xef; xbb; xbf] ++ alice_log)) by (vm_compute; reflexivity).
  exact (proj1 (detect_encoding_bom marked_files never log_path [xef; xbb; xbf]
                  "utf-8"%string alice_log initial_pstate Hin Hne Hf)).
Defined.

(** The line loop over the scenario line ends with its record. *)
Lemma primary_loop_done_witness :
  [str_of_string alice]
    = map strip (filter (fun line => is_chat_line line = true) [alice_line]) /\
  garbled [alice_line] <= 100.
Proof.
  assert (Hrun : primary_loop never [alice_line] [] 0 initial_pstate
                 = (LoopDone [str_of_string alice],
                    {| polls := 1; trace := [] |})) by (vm_compute; reflexivity).
  destruct (primary_loop_done never [alice_line] initial_pstate _ _ Hrun)
    as (Hrecs & Hgarbled & _).
  split; [exact Hrecs | exact Hgarbled].
Defined.

(** A log of 101 lines that hold U+FFFD is handed to the fallback. *)
Lemma process_log_falls_back_witness :
  (process_log garbled_files plenty never log_path initial_pstate).1
    = (try_backup_encodings garbled_files never log_path initial_pstate).1.
Proof.
  apply (process_log_falls_back garbled_files plenty never log_path garbled_log
           (2 * min_free_bytes)%Z initial_pstate).
  - intros k. reflexivity.
  - vm_compute. reflexivity.
  - reflexivity.
  - vm_compute. discriminate.
  - left. vm_compute. reflexivity.
Defined.

(** The fallback opens the scenario log 19 times. *)
Lemma try_backup_encodings_opens_witness :
  text_opens (try_backup_encodings log_files never log_path initial_pstate).2
    = 19%nat.
Proof.
  assert (Hf : log_files !! log_path = Some alice_log) by (vm_compute; reflexivity).
  exact (proj2 (try_backup_encodings_opens log_files never log_path alice_log
                  initial_pstate Hf) (fun _ => eq_refl)).
Defined.

(** An archive named in upper case is queued for extraction, and its
    member keeps the archive's name. *)
Lemma member_name_drops_gz_witness :
  is_archive_name upper_archive_path = true /\
  member_name upper_archive_path = basename upper_archive_path.
Proof.
  split; [vm_compute; reflexivity|].
  apply (proj2 (member_name_drops_gz upper_archive_path)).
  vm_compute. reflexivity.
Defined.

(** The empty archive chat.log.gz is inflated to the empty file chat.log
    in the temporary directory. *)
Lemma extract_gz_file_success_witness :
  files (extract_gz_file plenty archive_path (app_with archive_files)).2
    = <[member_path := []]> archive_files /\
  temp_dir (extract_gz_file plenty archive_path (app_with archive_files)).2
    = Some "/tmp/minecraft_logs_run"%string.
Proof.
  assert (Hex : extract_gz_file plenty archive_path (app_with archive_files)
                = ((Some member_path, None),
                   (extract_gz_file plenty archive_path (app_with archive_files)).2))
    by (vm_compute; reflexivity).
  destruct (extract_gz_file_success plenty archive_path (app_with archive_files) _ _ _ Hex)
    as (_ & _ & (compressed & data & Hgz & Hdata & Hfiles) & Htemp & _).
  split; [|exact Htemp].
  assert (Hc : compressed = empty_gzip).
  { assert (Hl : files (app_with archive_files) !! archive_path = Some empty_gzip)
      by (vm_compute; reflexivity).
    congruence. }
  subst compressed.
  assert (Hd : data = []) by (vm_compute in Hdata; congruence).
  subst data. exact Hfiles.
Defined.


(** The process task of the scenario log is counted as processed. *)
Lemma process_task_stores_result_witness :
  processed_files (worker_task plenty never (Process log_path None)
                     (app_with log_files)) = 1%nat.
Proof.
  assert (Hf : files (app_with log_files) !! log_path <> None)
    by (vm_compute; discriminate).
  destruct (process_task_stores_result plenty never log_path None
              (app_with log_files) (or_intror Hf))
    as (records & error & _ & _ & _ & _ & Hcount & _).
  exact Hcount.
Defined.

(** One of two equal records is removed. *)
Lemma deduplicate_records_count_witness :
  ((deduplicate_records never repeated_app).1
     + total_records (results_by_id (deduplicate_records never repeated_app).2)
   = 2)%nat.
Proof.
  assert (Hnd : NoDup (map fst (results_by_id repeated_app))).
  { apply NoDup_singleton. }
  exact (proj1 (deduplicate_records_count never repeated_app Hnd)).
Defined.

(** The record of [replacement_log] holds U+FFFD because the file does:
    validation processes the file again, gets the same record and
    repairs nothing. *)
Lemma validate_content_repairs_nothing_witness :
  has_garbled [replacement_record] = true /\
  results_by_id replacement_app = [(log_path, [replacement_record])] /\
  (validate_content plenty never never replacement_app).1 = Revalidated 0 /\
  results_by_id (validate_content plenty never never replacement_app).2
    = results_by_id replacement_app.
Proof.
  split; [vm_compute; reflexivity|].
  assert (Hstore : results_by_id replacement_app = [(log_path, [replacement_record])])
    by (vm_compute; reflexivity).
  split; [exact Hstore|].
  assert (Hstored : forall tree_id records file_path,
            (tree_id, records) ∈ results_by_id replacement_app ->
            has_garbled records = true ->
            path_of_tree_id tree_id replacement_app = Some file_path ->
            exists st,
              (process_log (files replacement_app) plenty never file_path st).1
                = Returned file_path records None).
  { intros tree_id records file_path Hin _ Hpath. rewrite Hstore in Hin.
    apply list_elem_of_singleton in Hin. injection Hin as -> ->.
    assert (Hp : path_of_tree_id log_path replacement_app = Some log_path)
      by (vm_compute; reflexivity).
    rewrite Hp in Hpath. injection Hpath as <-.
    exists initial_pstate. vm_compute. reflexivity. }
  destruct (validate_content_repairs_nothing plenty never never (fun _ => eq_refl)
              replacement_app Hstored) as (Hv & Hsame & _).
  split; [exact Hv | exact Hsame].
Defined.

(** An extract task and the process task it queues: three rounds of the
    loop suffice. *)
Lemma worker_terminates_witness :
  exists a',
    worker plenty never never 3 (put_task (Extract archive_path) (app_with archive_files))
      = Some a' /\
    task_queue a' = [].
Proof.
  destruct (worker_terminates plenty never never 3
              (put_task (Extract archive_path) (app_with archive_files))
              ltac:(vm_compute; lia))
    as (a' & Hrun & Hempty & _).
  exists a'. split; [exact Hrun | exact (Hempty (fun _ => eq_refl))].
Defined.

(** The scenario log, queued by the submitter and processed by the
    worker. *)
Lemma worker_processes_plain_files_witness :
  exists a',
    worker plenty never never 2
      (put_task (Process log_path None) (app_with log_files)) = Some a' /\
    processed_files a' = 1%nat /\
    exists records,
      all_results a' !! log_path = Some records /\
      odict_get log_path (results_by_id a') = Some records.
Proof.
  assert (Hq : task_queue (put_task (Process log_path None) (app_with log_files))
               = enqueue_files [log_path] []) by (vm_compute; reflexivity).
  assert (Hpaths : forall f, f ∈ [log_path] ->
            is_archive_name f = false /\
            files (put_task (Process log_path None) (app_with log_files)) !! f <> None).
  { intros f Hf. apply list_elem_of_singleton in Hf. subst f.
    split; [vm_compute; reflexivity | vm_compute; discriminate]. }
  destruct (worker_processes_plain_files plenty never never (fun _ => eq_refl)
              [log_path] _ Hq Hpaths)
    as (a' & Hrun & _ & Hcount & _ & Hin & _).
  exists a'. split; [exact Hrun|]. split; [exact Hcount|].
  destruct (Hin log_path ltac:(left)) as (records & Hall & Hby & _).
  exists records. split; [exact Hall | exact Hby].
Defined.

(** The stop flag is set while the second line of the first fallback
    pass is polled: the record of the first line is returned as a
    success. *)
Lemma cancelled_pass_returns_partial_witness :
  (try_backup_encodings two_line_files (stop_from 3) log_path initial_pstate).1
    = Returned log_path [str_of_string alice] None.
Proof.
  assert (Hf : two_line_files !! log_path = Some two_line_log)
    by (vm_compute; reflexivity).
  assert (Hlines : ts_lines (text_lines "utf-8" two_line_log)
                   = [alice_line] ++ alice_line :: []) by (vm_compute; reflexivity).
  assert (Hchat : chat_lines [alice_line] = [str_of_string alice])
    by (vm_compute; reflexivity).
  rewrite <- Hchat.
  apply (cancelled_pass_returns_partial two_line_files (stop_from 3) log_path
           two_line_log initial_pstate [alice_line] alice_line [] Hf Hlines).
  - intros i Hi. simpl in Hi. unfold stop_from. simpl polls.
    apply Nat.leb_gt. lia.
  - vm_compute. discriminate.
  - reflexivity.
  - reflexivity.
  - rewrite Hchat. discriminate.
Defined.

(** Two equal records of one file: validation has nothing to repair and
    deduplication removes one of them. *)
Lemma validate_and_deduplicate_store_witness :
  results_by_id (validate_and_deduplicate plenty never never repeated_app).2
    = [(log_path, [str_of_string alice])].
Proof.
  assert (Hnd : NoDup (map fst (results_by_id repeated_app))) by apply NoDup_singleton.
  assert (Hstored : forall tree_id records file_path,
            (tree_id, records) ∈ results_by_id repeated_app ->
            has_garbled records = true ->
            path_of_tree_id tree_id repeated_app = Some file_path ->
            exists st,
              (process_log (files repeated_app) plenty never file_path st).1
                = Returned file_path records None).
  { intros tree_id records file_path Hin Hg _.
    apply list_elem_of_singleton in Hin. injection Hin as -> ->.
    vm_compute in Hg. discriminate. }
  destruct (validate_and_deduplicate_store plenty never never
              (fun _ => eq_refl) (fun _ => eq_refl) repeated_app Hnd Hstored)
    as (Hstore & _).
  rewrite Hstore. vm_compute. reflexivity.
Defined.

End Examples.
